(** * Wrangle_OpenStreetMap: the tag classifier, the address normalizer and the
    element shaper of [WrangleOpenStreetMapData.py], embedded in Rocq.

    The Python program works on byte strings ([str]); text outside ASCII is
    carried as its UTF-8 bytes, which every pattern below treats alike (no
    byte of such a character is a word character, a space or a digit).

    Layout: a small backtracking regular-expression engine with the meaning of
    Python's [re] for the constructs the program uses; the program's patterns
    and rule tables; the functions of the program; then the properties. *)

From Stdlib Require Import Ascii String NArith ZArith QArith List Lia.
From stdpp Require Import gmap strings list fin_maps.

#[global] Set Default Proof Using "Type".

Local Open Scope N_scope.

(** ** Characters *)

Abbreviation text := (list ascii).

Definition code (c : ascii) : N := N_of_ascii c.

Definition in_range (lo hi : N) (c : ascii) : bool :=
  (lo <=? code c) && (code c <=? hi).

Definition is_code (n : N) (c : ascii) : bool := code c =? n.

(** [[a-z]], [[A-Z]], [[0-9]] *)
Definition is_lower (c : ascii) : bool := in_range 97 122 c.
Definition is_upper (c : ascii) : bool := in_range 65 90 c.
Definition is_digit (c : ascii) : bool := in_range 48 57 c.
Definition is_underscore (c : ascii) : bool := is_code 95 c.

(** [\w] without the LOCALE and UNICODE flags: [[a-zA-Z0-9_]]. *)
Definition is_word (c : ascii) : bool :=
  is_lower c || is_upper c || is_digit c || is_underscore c.

(** [\s] without the LOCALE and UNICODE flags: space, \t, \n, \v, \f, \r. *)
Definition is_space (c : ascii) : bool :=
  is_code 32 c || in_range 9 13 c.

(** [\S] *)
Definition is_nonspace (c : ascii) : bool := negb (is_space c).

Definition newline : ascii := ascii_of_N 10.

Local Close Scope N_scope.

(** ** Regular expressions, with Python's backtracking order *)

Inductive regex : Type :=
| Chr (cls : ascii -> bool)   (* one character of a class *)
| Bol                         (* ^ *)
| Eol                         (* $ *)
| WordB                       (* \b *)
| Eps
| Seq (r1 r2 : regex)
| Alt (r1 r2 : regex)         (* r1|r2, r1 tried first *)
| Star (r : regex).           (* r*, greedy *)

Definition Plus (r : regex) : regex := Seq r (Star r).   (* r+ *)
Definition Opt (r : regex) : regex := Alt r Eps.         (* r? *)

(** A position in the subject string: the text behind it, nearest character
    first, and the text ahead of it. *)
Definition pos : Type := text * text.

(** [$] without MULTILINE: at the end of the string, or just before a newline
    that is the last character. *)
Definition at_eol (ahead : text) : bool :=
  match ahead with
  | [] => true
  | [c] => is_code 10 c
  | _ => false
  end.

Definition word_behind (p : pos) : bool :=
  match p.1 with c :: _ => is_word c | [] => false end.

Definition word_ahead (p : pos) : bool :=
  match p.2 with c :: _ => is_word c | [] => false end.

(** [\b]: exactly one side of the position is a word character. *)
Definition word_boundary (p : pos) : bool :=
  xorb (word_behind p) (word_ahead p).

(** All the positions at which a match of [r] started at [p] can end, in the
    order in which a backtracking matcher tries them.  An iteration of a star
    that consumes nothing is not repeated. *)
Fixpoint ends (r : regex) (p : pos) : list pos :=
  match r with
  | Chr cls =>
      match p.2 with
      | c :: a => if cls c then [(c :: p.1, a)] else []
      | [] => []
      end
  | Bol => match p.1 with [] => [p] | _ :: _ => [] end
  | Eol => if at_eol p.2 then [p] else []
  | WordB => if word_boundary p then [p] else []
  | Eps => [p]
  | Seq r1 r2 => flat_map (ends r2) (ends r1 p)
  | Alt r1 r2 => ends r1 p ++ ends r2 p
  | Star r1 =>
      (fix loop (n : nat) (p : pos) {struct n} : list pos :=
         match n with
         | 0 => [p]
         | S n' =>
             flat_map
               (fun q => if length q.2 <? length p.2 then loop n' q else [])
               (ends r1 p)
             ++ [p]
         end) (length p.2) p
  end.

(** The match a backtracking matcher returns at [p]: the first end. *)
Definition match_at (r : regex) (p : pos) : option pos := head (ends r p).

(** The leftmost match at or after the position [(b, a)]: where it starts and
    where it ends. *)
Fixpoint scan (r : regex) (b a : text) {struct a} : option (pos * pos) :=
  match match_at r (b, a) with
  | Some q => Some ((b, a), q)
  | None =>
      match a with
      | [] => None
      | c :: a' => scan r (c :: b) a'
      end
  end.

(** The text between two positions of one string, [q] not before [p]. *)
Definition between (p q : pos) : text :=
  take (length p.2 - length q.2) p.2.

(** A match object: what is before the match, [group()], what is after. *)
Record Match : Type := mkMatch {
  m_before : string;
  group : string;
  m_after : string
}.

Definition to_text (s : string) : text := list_ascii_of_string s.
Definition of_text (t : text) : string := string_of_list_ascii t.

(** [pattern.search(s)] *)
Definition search (r : regex) (s : string) : option Match :=
  match scan r [] (to_text s) with
  | Some (p, q) =>
      Some (mkMatch (of_text (rev p.1)) (of_text (between p q)) (of_text q.2))
  | None => None
  end.

(** The truth value of what [search] returns: a match object is true, [None]
    is false. *)
Definition found (m : option Match) : bool :=
  match m with Some _ => true | None => false end.

(** [re.findall(pattern, s)] for a pattern without groups: the matched texts
    of the successive matches that do not overlap.  After an empty match the
    scan moves on by one character. *)
Fixpoint findall_from (r : regex) (fuel : nat) (b a : text) : list string :=
  match fuel with
  | 0 => []
  | S fuel' =>
      match scan r b a with
      | None => []
      | Some (p, q) =>
          of_text (between p q) ::
          (if length q.2 <? length p.2 then findall_from r fuel' q.1 q.2
           else match q.2 with
                | [] => []
                | c :: a' => findall_from r fuel' (c :: q.1) a'
                end)
      end
  end.

Definition findall (r : regex) (s : string) : list string :=
  findall_from r (S (String.length s)) [] (to_text s).

(** [re.sub(pattern, repl, s)] for a replacement [repl] without backslashes:
    every match that does not overlap an earlier one is replaced.  An empty
    match directly after a replaced match is left alone, and after an empty
    match the scan moves on by one character. *)
Fixpoint sub_from (r : regex) (repl : text) (fuel : nat) (adjacent : bool)
    (b a : text) : text :=
  match fuel with
  | 0 => a
  | S fuel' =>
      match scan r b a with
      | None => a
      | Some (p, q) =>
          let skipped := between (b, a) p in
          if length q.2 <? length p.2 then
            skipped ++ repl ++ sub_from r repl fuel' true q.1 q.2
          else
            skipped
            ++ (if adjacent && (length skipped =? 0)%nat then [] else repl)
            ++ match q.2 with
               | [] => []
               | c :: a' => c :: sub_from r repl fuel' false (c :: q.1) a'
               end
      end
  end.

Definition sub (r : regex) (repl : string) (s : string) : string :=
  of_text (sub_from r (to_text repl) (S (String.length s)) false [] (to_text s)).

(** ** The program's patterns *)

(** [lower = re.compile(r'^([a-z]|_)*$')] *)
Definition lower : regex :=
  Seq Bol (Seq (Star (Alt (Chr is_lower) (Chr is_underscore))) Eol).

(** [lower_colon = re.compile(r'^([a-z]|_)*:([a-z]|_)*$')] *)
Definition lower_colon : regex :=
  Seq Bol
    (Seq (Star (Alt (Chr is_lower) (Chr is_underscore)))
       (Seq (Chr (is_code 58))
          (Seq (Star (Alt (Chr is_lower) (Chr is_underscore))) Eol))).

(** The characters of the class of [problemchars]:
    = + / & < > ; ' (39) double quote (34) ? % # $ @ , . space \t \r \n *)
Definition is_problemchar (c : ascii) : bool :=
  bool_decide (code c ∈
    [61; 43; 47; 38; 60; 62; 59; 39; 34; 63; 37; 35; 36; 64; 44; 46;
     32; 9; 13; 10]%N).

(** [problemchars]: the pattern is the one character class listed above. *)
Definition problemchars : regex := Chr is_problemchar.

(** [street_type_re = re.compile(r'\b\S+\.?$', re.IGNORECASE)]; the pattern
    has no letter, so IGNORECASE changes nothing. *)
Definition street_type_re : regex :=
  Seq WordB (Seq (Plus (Chr is_nonspace)) (Seq (Opt (Chr (is_code 46))) Eol)).

(** [[NSEW]] under IGNORECASE: either case of the four letters. *)
Definition is_nsew (c : ascii) : bool :=
  bool_decide (code c ∈ [78; 83; 69; 87; 110; 115; 101; 119]%N).

(** [street_direction_re = re.compile(r'^[NSEW]\b\.?', re.IGNORECASE)] *)
Definition street_direction_re : regex :=
  Seq Bol (Seq (Chr is_nsew) (Seq WordB (Opt (Chr (is_code 46))))).

(** ['[0-9]{5}'] *)
Definition five_digits : regex :=
  Seq (Chr is_digit) (Seq (Chr is_digit) (Seq (Chr is_digit)
    (Seq (Chr is_digit) (Chr is_digit)))).

(** ** Rule tables *)

(** [expected_names], as redefined in cell 6 (the value in force when the
    shaper runs). *)
Definition expected_names : list string :=
  ["Street"; "Avenue"; "Boulevard"; "Drive"; "Court"; "Place"; "Square";
   "Lane"; "Road"; "Trail"; "Parkway"; "Commons"; "Circle"; "Expressway";
   "Highway"; "Loop"; "Real"; "Row"; "Terrace"; "Walk"; "Way"; "Plaza";
   "0.1"; "7.1"; "Hamilton"; "Alameda"; "Auzoa"; "Barcelona"; "East";
   "Franklin"; "Franklin"; "Hill"; "Luna"; "Madrid"; "Marino"; "Napoli";
   "Ogrodowa"; "Oro"; "Palamos"; "Paviso"; "Portofino"; "Presada";
   "Seville"; "Sorrento"; "Volante"; "West"; "Winchester"; "robles"].

(** [not_to_import_list]; the letters outside ASCII are their UTF-8 bytes. *)
Definition not_to_import_list : list string :=
  ["Brunnenweg"; "Bäderstraße"; "Cergowska"; "Jana Pawła II";
   "Klosterstraße"; "Marii Konopnickiej"; "Słowacka"].

Definition mapping_street_type_items : list (string * string) :=
  [("Ave", "Avenue"); ("ave", "Avenue"); ("Bascom", "Bascom Avenue");
   ("Bellomy", "Bellomy Street"); ("BLVD", "Boulevard");
   ("Blvd", "Boulevard"); ("Blvd.", "Boulevard"); ("Cir", "Circle");
   ("Ct", "Court"); ("Dr", "Drive"); ("Hill", "Hill Road");
   ("Hwy", "Highway"); ("Julian", "Julian Street"); ("Ln", "Lane");
   ("Pkwy", "Parkway"); ("robles", "Robles"); ("Rd", "Road");
   ("Rd.", "Road"); ("Sq", "Square"); ("St", "Street"); ("St.", "Street");
   ("street", "Street")].

Definition mapping_street_type : gmap string string :=
  list_to_map mapping_street_type_items.

Definition expected_directions : list string :=
  ["North"; "South"; "West"; "East"].

Definition mapping_street_direction_items : list (string * string) :=
  [("E", "East"); ("E.", "East"); ("N", "North"); ("N.", "North");
   ("S", "South"); ("S.", "South"); ("W", "West"); ("W.", "West")].

Definition mapping_street_direction : gmap string string :=
  list_to_map mapping_street_direction_items.

Definition CREATED : list string :=
  ["version"; "changeset"; "timestamp"; "user"; "uid"].

(** ** Exceptions *)

Inductive exn : Type :=
| KeyError (key : string)
| ValueError (arg : string)
| TypeError
| AttributeError
| IndexError.

Inductive result (A : Type) : Type :=
| Ok (a : A)
| Raise (e : exn).
Arguments Ok {A} a.
Arguments Raise {A} e.

Global Instance result_ret : MRet result := fun A a => Ok a.
Global Instance result_bind : MBind result := fun A B f m =>
  match m with
  | Ok a => f a
  | Raise e => Raise e
  end.

(** ** Python values *)

(** The values the shaper builds.  [float] stands for Python's floats. *)
#[warnings="-register-all"]
Inductive value (float : Type) : Type :=
| VNone
| VStr (s : string)
| VFloat (x : float)
| VList (l : list (value float))
| VDict (d : gmap string (value float)).
Arguments VNone {float}.
Arguments VStr {float} s.
Arguments VFloat {float} x.
Arguments VList {float} l.
Arguments VDict {float} d.

(** ** XML elements *)

(** An element of [xml.etree.ElementTree]: its tag, the items of its [attrib]
    dictionary in the order in which the dictionary is iterated, and its
    children in document order. *)
#[warnings="-register-all"]
Inductive Element : Type :=
  mkElement { tag : string; attrib : list (string * string); children : list Element }.

(** [d[k]] on an attribute dictionary *)
Fixpoint getitem (d : list (string * string)) (k : string) : result string :=
  match d with
  | [] => Raise (KeyError k)
  | (k', v) :: d' => if decide (k' = k) then Ok v else getitem d' k
  end.

(** The element and all its descendants, in document order. *)
Fixpoint descendants (e : Element) : list Element :=
  e :: flat_map descendants (children e).

(** [element.iter(name)] *)
Definition iter (name : string) (e : Element) : list Element :=
  filter (fun x => tag x = name) (descendants e).

(** ** Strings *)

(** [s.find(sub)]: the lowest index at which [sub] occurs in [s], or -1. *)
Fixpoint find_from (sub s : string) (i : Z) : Z :=
  if String.prefix sub s then i
  else match s with
       | EmptyString => (-1)%Z
       | String _ s' => find_from sub s' (i + 1)%Z
       end.

Definition find (s sub : string) : Z := find_from sub s 0%Z.

(** [s.split(sep, 1)] for a one-character separator *)
Fixpoint split1 (sep : ascii) (s : string) : list string :=
  match s with
  | EmptyString => [EmptyString]
  | String c s' =>
      if decide (c = sep) then [EmptyString; s']
      else match split1 sep s' with
           | h :: t => String c h :: t
           | [] => []
           end
  end.

(** [l[i]] *)
Definition index (l : list string) (i : nat) : result string :=
  match l !! i with
  | Some x => Ok x
  | None => Raise IndexError
  end.

(** [for x in l: s = f(x, s)], stopping at the first exception *)
Fixpoint for_each {A S : Type} (f : A -> S -> result S) (l : list A) (s : S)
    : result S :=
  match l with
  | [] => Ok s
  | x :: l' => s' ← f x s; for_each f l' s'
  end.

(** ** The tag classifier *)

(** [keys[name] += 1] *)
Definition increment (keys : gmap string Z) (name : string)
    : result (gmap string Z) :=
  match keys !! name with
  | Some n => Ok (<[name := (n + 1)%Z]> keys)
  | None => Raise (KeyError name)
  end.

Definition key_type (element : Element) (keys : gmap string Z)
    : result (gmap string Z) :=
  if decide (tag element = "tag") then
    k ← getitem (attrib element) "k";
    if found (search lower k) then increment keys "lower"
    else if found (search lower_colon k) then increment keys "lower_colon"
    else if found (search problemchars k) then increment keys "problemchars"
    else increment keys "other"
  else Ok keys.

(** The first [process_map] of the program (cell 3), over the elements that
    [ET.iterparse] yields. *)
Definition process_map_keys (elements : list Element) : result (gmap string Z) :=
  for_each key_type elements
    {["lower" := 0%Z; "lower_colon" := 0%Z; "problemchars" := 0%Z; "other" := 0%Z]}.

(** ** The address normalizer *)

Definition is_street_name (elem : Element) : result bool :=
  k ← getitem (attrib elem) "k"; Ok (bool_decide (k = "addr:street")).

Definition is_postal_code (elem : Element) : result bool :=
  k ← getitem (attrib elem) "k"; Ok (bool_decide (k = "addr:postcode")).

(** The values of the two mappings hold no backslash, so [re.sub] inserts
    them as they are. *)
Definition update_name (name_to_update : string) (mapping : gmap string string)
    (re_string : regex) (expected_strings : list string) : result string :=
  match search re_string name_to_update with
  | Some m =>
      let street_return := group m in
      if bool_decide (street_return ∈ expected_strings) then Ok name_to_update
      else
        match mapping !! street_return with
        | Some repl => Ok (sub re_string repl name_to_update)
        | None => Raise (KeyError street_return)
        end
  | None => Ok name_to_update
  end.

(** [zip_out] is the empty string, or the list that [re.findall] returns. *)
Definition update_zip_code {float : Type} (zip_in : string) : value float :=
  if found (search five_digits zip_in)
  then VList (VStr <$> findall five_digits zip_in)
  else VStr "".

(** ** The audit of the data *)

(** The counting loop of cell 2, over the elements that [ET.iterparse] yields:
    [tags[elem.tag] += 1] for a tag name seen before, [tags[elem.tag] = 1] for
    a new one. *)
Definition count_tag (tags : gmap string Z) (elem : Element) : gmap string Z :=
  match tags !! tag elem with
  | Some n => <[tag elem := (n + 1)%Z]> tags
  | None => <[tag elem := 1%Z]> tags
  end.

Definition tags (elements : list Element) : gmap string Z :=
  foldl count_tag ∅ elements.

(** The second [process_map] of the program (cell 4): the set of the [uid]
    attributes of the elements. *)
Definition add_user (element : Element) (users : gset string)
    : result (gset string) :=
  if bool_decide ("uid" ∈ (attrib element).*1) then
    uid ← getitem (attrib element) "uid"; Ok ({[uid]} ∪ users)
  else Ok users.

Definition process_map_users (elements : list Element) : result (gset string) :=
  for_each add_user elements ∅.

(** [return_list] is a [defaultdict(set)]: a missing key reads as the empty
    set. *)
Definition audit_street_type (return_list : gmap string (gset string))
    (search_name : string) (reg_string : regex) (expected_list : list string)
    : gmap string (gset string) :=
  match search reg_string search_name with
  | Some m =>
      let street_type := group m in
      if bool_decide (street_type ∈ expected_list) then return_list
      else
        <[street_type := {[search_name]} ∪ default ∅ (return_list !! street_type)]>
          return_list
  | None => return_list
  end.

(** The body of [for tag in elem.iter("tag")] in [audit]. *)
Definition audit_tag (reg_string : regex) (expected_list : list string)
    (t : Element) (return_list : gmap string (gset string))
    : result (gmap string (gset string)) :=
  street ← is_street_name t;
  if street : bool then
    v ← getitem (attrib t) "v";
    Ok (audit_street_type return_list v reg_string expected_list)
  else Ok return_list.

(** [audit], over the elements that [ET.iterparse] yields at their start
    events, each with the descendants it has by then. *)
Definition audit_elem (reg_string : regex) (expected_list : list string)
    (elem : Element) (return_list : gmap string (gset string))
    : result (gmap string (gset string)) :=
  if decide (tag elem = "node" ∨ tag elem = "way") then
    for_each (audit_tag reg_string expected_list) (iter "tag" elem) return_list
  else Ok return_list.

Definition audit (elements : list Element) (reg_string : regex)
    (expected_list : list string) : result (gmap string (gset string)) :=
  for_each (audit_elem reg_string expected_list) elements ∅.

(** ** The element shaper *)

Section Shaper.

(** Python's builtin [float] on a string: the float it reads, or [None] where
    the builtin raises ValueError. *)
Context {pyfloat : Type} (float : string -> option pyfloat).

Abbreviation document := (gmap string (value pyfloat)).

(** What a key of [node] is bound to: an object of its own, or the one
    dictionary that the local variable [address] also names. *)
Inductive slot : Type :=
| Own (v : value pyfloat)
| AddressObj.

(** The two dictionaries that [shape_element] builds. *)
Record shaping : Type := mkShaping {
  node : gmap string slot;
  address : document
}.

(** [if k not in node: node[k] = v] *)
Definition init_key (k : string) (v : value pyfloat) (node : gmap string slot)
    : gmap string slot :=
  match node !! k with
  | None => <[k := Own v]> node
  | Some _ => node
  end.

(** The body of [for a in element.attrib], on the item [(a, element.attrib[a])]. *)
Definition shape_attr (item : string * string) (node : gmap string slot)
    : result (gmap string slot) :=
  let a := item.1 in
  let v := item.2 in
  if bool_decide (a ∈ CREATED) then
    let node := init_key "created" (VDict ∅) node in
    match node !! "created" with
    | Some (Own (VDict d)) =>
        Ok (<["created" := Own (VDict (<[a := VStr v]> d))]> node)
    | _ => Raise TypeError
    end
  else if bool_decide (a ∈ ["lat"; "lon"]) then
    let node := init_key "pos" (VList [VNone; VNone]) node in
    let i := if bool_decide (a = "lat") then 0%nat else 1%nat in
    match float v with
    | None => Raise (ValueError v)
    | Some x =>
        match node !! "pos" with
        | Some (Own (VList l)) =>
            if bool_decide (i < length l)%nat
            then Ok (<["pos" := Own (VList (<[i := VFloat x]> l))]> node)
            else Raise IndexError
        | _ => Raise TypeError
        end
    end
  else Ok (<[a := Own (VStr v)]> node).

(** The branch of a street-name tag whose value is not on the deny-list. *)
Definition shape_street (v : string) (sub_attr : list string) (address : document)
    : result document :=
  if decide (v = "Stewart Drive Suite #1") then
    Ok (<["unit" := VStr "Suite #1"]> (<["street" := VStr "Stewart Drive"]> address))
  else if decide (v = "West Evelyn Avenue Suite #114") then
    Ok (<["unit" := VStr "Suite #114"]>
          (<["street" := VStr "West Evelyn Avenue"]> address))
  else if decide (v = "Zanker Rd., San Jose, CA" ∨ v = "Zanker Road, San Jose, CA") then
    Ok (<["state" := VStr "CA"]>
          (<["city" := VStr "San Jose"]> (<["street" := VStr "Zanker Road"]> address)))
  else if decide (v = "1425 E Dunne Ave") then
    Ok (<["housenumber" := VStr "1425"]>
          (<["street" := VStr "East Dunne Avenue"]> address))
  else
    new_name_1 ← update_name v mapping_street_type street_type_re expected_names;
    new_name_2 ← update_name new_name_1 mapping_street_direction
                   street_direction_re expected_directions;
    key ← index sub_attr 1;
    Ok (<[key := VStr new_name_2]> address).

(** The branch of a tag whose key matches [lower_colon] and starts with addr. *)
Definition shape_addr_tag (t : Element) (k : string) (st : shaping) : result shaping :=
  let node1 := init_key "address" (VDict ∅) (node st) in
  let sub_attr := split1 ":" k in
  street ← is_street_name t;
  if street : bool then
    v ← getitem (attrib t) "v";
    if bool_decide (v ∈ not_to_import_list) then Ok (mkShaping node1 (address st))
    else
      address1 ← shape_street v sub_attr (address st);
      Ok (mkShaping node1 address1)
  else
    postal ← is_postal_code t;
    if postal : bool then
      v ← getitem (attrib t) "v";
      key ← index sub_attr 1;
      Ok (mkShaping node1 (<[key := update_zip_code v]> (address st)))
    else
      v ← getitem (attrib t) "v";
      key ← index sub_attr 1;
      Ok (mkShaping node1 (<[key := VStr v]> (address st))).

(** [if address: node['address'] = address] *)
Definition attach_address (st : shaping) : shaping :=
  if decide (address st = ∅) then st
  else mkShaping (<["address" := AddressObj]> (node st)) (address st).

(** The body of [for tag in element.iter('tag')]. *)
Definition shape_tag (t : Element) (st : shaping) : result shaping :=
  k ← getitem (attrib t) "k";
  if found (search problemchars k) then Ok st
  else
    st1 ←
      (if found (search lower_colon k) then
         if decide (find k "addr" = 0%Z) then shape_addr_tag t k st
         else
           v ← getitem (attrib t) "v";
           Ok (mkShaping (<[k := Own (VStr v)]> (node st)) (address st))
       else if decide (find k ":" = (-1)%Z) then
         v ← getitem (attrib t) "v";
         Ok (mkShaping (<[k := Own (VStr v)]> (node st)) (address st))
       else Ok st);
    Ok (attach_address st1).

(** The body of [for nd in element.iter('nd')]. *)
Definition shape_nd (nd : Element) (node : gmap string slot)
    : result (gmap string slot) :=
  let node := init_key "node_refs" (VList []) node in
  match node !! "node_refs" with
  | Some (Own (VList l)) =>
      ref ← getitem (attrib nd) "ref";
      Ok (<["node_refs" := Own (VList (l ++ [VStr ref]))]> node)
  | _ => Raise AttributeError
  end.

(** The dictionary that [node] is once the function returns, with the shared
    [address] dictionary read through its binding. *)
Definition snapshot (st : shaping) : document :=
  (fun s => match s with Own v => v | AddressObj => VDict (address st) end)
    <$> node st.

(** The state after the attribute and tag loops. *)
Definition shape_tags (element : Element) : result shaping :=
  node1 ← for_each shape_attr (attrib element)
             {["type" := Own (VStr (tag element))]};
  for_each shape_tag (iter "tag" element) (mkShaping node1 ∅).

(** [shape_element]: [None] is Python's None. *)
Definition shape_element (element : Element) : result (option document) :=
  if decide (tag element = "node" ∨ tag element = "way") then
    st ← shape_tags element;
    node3 ← for_each shape_nd (iter "nd" element) (node st);
    Ok (Some (snapshot (mkShaping node3 (address st))))
  else Ok None.

(** ** The pipeline driver *)

(** What a run of [process_map] leaves: the documents written to the output
    file, one [json.dumps] line each, and either the returned [data] or the
    exception that ended the run. *)
Record run : Type := mkRun {
  written : list document;
  outcome : result (list document)
}.

(** The loop of [process_map] over the elements that [ET.iterparse] yields;
    [data] holds what was appended so far (each appended document is also
    written). *)
Fixpoint process_map_from (elements : list Element) (data : list document) : run :=
  match elements with
  | [] => mkRun data (Ok data)
  | element :: rest =>
      match shape_element element with
      | Raise e => mkRun data (Raise e)
      | Ok None => process_map_from rest data
      | Ok (Some el) =>
          if decide (el = ∅) then process_map_from rest data
          else process_map_from rest (data ++ [el])
      end
  end.

Definition process_map (elements : list Element) : run :=
  process_map_from elements [].

End Shaper.

(** ** A float reader to run the shaper on examples *)

(** Plain decimal literals read exactly, as rationals: an optional sign, then
    digits with an optional point among them.  Python's [float] reads these
    too (and rounds them to binary64); it also reads exponents, inf, nan and
    surrounding blanks, which the examples below do not use.  The properties
    are proved for every reader; this one only instantiates them. *)
Fixpoint read_digits (t : text) (acc : N) : option N :=
  match t with
  | [] => Some acc
  | c :: t' =>
      if is_digit c then read_digits t' (10 * acc + (code c - 48))%N else None
  end.

Definition read_unsigned (t : text) : option Q :=
  match split1 "." (of_text t) with
  | [ip] =>
      match to_text ip with
      | [] => None
      | _ :: _ => n ← read_digits (to_text ip) 0%N; Some (Qmake (Z.of_N n) 1)
      end
  | [ip; fp] =>
      match to_text ip ++ to_text fp with
      | [] => None
      | _ :: _ =>
          n ← read_digits (to_text ip ++ to_text fp) 0%N;
          Some (Qmake (Z.of_N n)
                  match String.length fp with
                  | O => 1%positive
                  | S _ => Pos.pow 10 (Pos.of_nat (String.length fp))
                  end)
      end
  | _ => None
  end.

Definition read_decimal (s : string) : option Q :=
  match to_text s with
  | "-"%char :: t => Qopp <$> read_unsigned t
  | "+"%char :: t => read_unsigned t
  | t => read_unsigned t
  end.

(** * The vocabulary of the properties *)

(** ** Matching, step by step *)

(** The iterations of a star: each one consumes at least one character. *)
Inductive star_path (r : regex) : pos -> pos -> Prop :=
| star_stop p : star_path r p p
| star_more p m q :
    In m (ends r p) -> (length m.2 < length p.2)%nat -> star_path r m q ->
    star_path r p q.

Definition star_loop (r : regex) : nat -> pos -> list pos :=
  fix loop (n : nat) (p : pos) {struct n} : list pos :=
    match n with
    | 0 => [p]
    | S n' =>
        flat_map
          (fun q => if length q.2 <? length p.2 then loop n' q else [])
          (ends r p)
        ++ [p]
    end.

(** A regex that consumes exactly one character of the class [cls]. *)
Definition one_char (r : regex) (cls : ascii -> bool) : Prop :=
  forall p q, In q (ends r p) <->
    exists c a, p.2 = c :: a /\ cls c = true /\ q = (c :: p.1, a).

(** ** Street tokens *)

(** [a] is a run of non-space characters up to the end of the string, or up
    to its final newline. *)
Definition tail_run (a run rest : text) : Prop :=
  a = run ++ rest /\ run <> [] /\ forallb is_nonspace run = true /\
  at_eol rest = true.

(** What [street_type_re.search] finds in [s]: the text before the match, the
    matched token and what follows it. *)
Definition street_found (s pre run rest : text) : Prop :=
  s = pre ++ run ++ rest /\
  word_boundary (rev pre, run ++ rest) = true /\
  tail_run (run ++ rest) run rest /\
  forall x y, s = x ++ y -> (length x < length pre)%nat ->
    match_at street_type_re (rev x, y) = None.

(** A replacement text split after its last space. *)
Fixpoint split_last_space (t : text) : text * text :=
  match t with
  | [] => ([], [])
  | c :: t' =>
      match split_last_space t' with
      | ([], w2) => if decide (c = " "%char) then ([c], w2) else ([], c :: w2)
      | (w1, w2) => (c :: w1, w2)
      end
  end.

(** A key of the mapping starts with a word character. *)
Definition key_ok (k : string) : bool :=
  match to_text k with
  | c :: _ => is_word c
  | [] => false
  end.

(** The last word of a replacement is an expected street type. *)
Definition repl_ok (repl : string) : bool :=
  let w2 := (split_last_space (to_text repl)).2 in
  match w2 with
  | [] => false
  | _ :: _ => forallb is_word w2 && bool_decide (of_text w2 ∈ expected_names)
  end.

(** ** Key shapes and categories *)

(** Some suffix of the text satisfies [P]. *)
Fixpoint any_suffix (P : text -> bool) (a : text) : bool :=
  P a || match a with [] => false | _ :: a' => any_suffix P a' end.

(** The text starts with five digits. *)
Definition digit_run5 (a : text) : bool :=
  match a with
  | c1 :: c2 :: c3 :: c4 :: c5 :: _ =>
      is_digit c1 && is_digit c2 && is_digit c3 && is_digit c4 && is_digit c5
  | _ => false
  end.

(** The string holds a run of five digits. *)
Definition has_digit_run5 (s : string) : bool := any_suffix digit_run5 (to_text s).

Definition head_is (cls : ascii -> bool) (a : text) : bool :=
  match a with c :: _ => cls c | [] => false end.

(** The string holds one of the problem characters. *)
Definition has_problemchar (s : string) : bool := existsb is_problemchar (to_text s).

(** [[a-z]|_] *)
Definition is_lower_us (c : ascii) : bool := is_lower c || is_underscore c.

(** Only lowercase letters and underscores. *)
Definition lowercase (s : string) : bool := forallb is_lower_us (to_text s).

(** Two lowercase segments around one colon. *)
Definition lower_colon_shaped (k : string) : Prop :=
  exists ns sub, k = ns +:+ ":" +:+ sub /\ lowercase ns = true /\ lowercase sub = true.

(** The category under which [key_type] counts a key. *)
Definition key_category (k : string) : string :=
  if found (search lower k) then "lower"
  else if found (search lower_colon k) then "lower_colon"
  else if found (search problemchars k) then "problemchars"
  else "other".

(** The keys that the literal overrides of the street branch write. *)
Definition override_keys : list string :=
  ["street"; "unit"; "city"; "state"; "housenumber"].

(** ** Shaping states and the field [pos] *)

Section Vocabulary.

Context {pyfloat : Type} (float : string -> option pyfloat).

(** Once [address] holds a field, [node] is bound to it. *)
Definition attached (st : @shaping pyfloat) : Prop :=
  address st <> ∅ -> node st !! "address" = Some AddressObj.

(** The slot of [pos] for the attribute [a]: the float read from it, or None
    when the element has no such attribute. *)
Definition coordinate (d : list (string * string)) (a : string) : value pyfloat :=
  match getitem d a with
  | Ok v => match float v with Some x => VFloat x | None => VNone end
  | Raise _ => VNone
  end.

(** The field [pos] that the attribute loop builds. *)
Definition expected_pos (d : list (string * string)) : option (value pyfloat) :=
  if bool_decide ("lat" ∈ d.*1) || bool_decide ("lon" ∈ d.*1)
  then Some (VList [coordinate d "lat"; coordinate d "lon"])
  else None.

(** The slots seen so far, as the loop goes through the items. *)
Fixpoint coords (d : list (string * string)) (la lo : value pyfloat)
    : value pyfloat * value pyfloat :=
  match d with
  | [] => (la, lo)
  | (a, v) :: d' =>
      let x := match float v with Some x => VFloat x | None => VNone end in
      if decide (a = "lat") then coords d' x lo
      else if decide (a = "lon") then coords d' la x
      else coords d' la lo
  end.

Fixpoint seen (d : list (string * string)) (b : bool) : bool :=
  match d with
  | [] => b
  | (a, _) :: d' => seen d' (b || bool_decide (a ∈ ["lat"; "lon"]))
  end.

Definition pos_slot (b : bool) (la lo : value pyfloat) : option (@slot pyfloat) :=
  if b then Some (Own (VList [la; lo])) else None.

End Vocabulary.

(** ** Inputs of the examples *)

(** A [tag] child with the key [k] and the value [v]. *)
Definition tag_elem (k v : string) : Element :=
  mkElement "tag" [("k", k); ("v", v)] [].

(** A [nd] child that refers to [ref]. *)
Definition nd_elem (ref : string) : Element :=
  mkElement "nd" [("ref", ref)] [].

(** The element of the end-to-end example of the specification. *)
Definition example_node : Element :=
  mkElement "node"
    [("id", "1"); ("lat", "37.3"); ("lon", "-121.9"); ("uid", "99");
     ("user", "alice"); ("version", "2"); ("changeset", "5");
     ("timestamp", "2020-01-01T00:00:00Z")]
    [tag_elem "addr:street" "Main St"].

Definition example_doc : gmap string (value Q) :=
  {[ "type" := VStr "node";
     "id" := VStr "1";
     "pos" := VList [VFloat (Qmake 373 10); VFloat (Qmake (-1219) 10)];
     "created" := VDict {[ "uid" := VStr "99"; "user" := VStr "alice";
                           "version" := VStr "2"; "changeset" := VStr "5";
                           "timestamp" := VStr "2020-01-01T00:00:00Z" ]};
     "address" := VDict {[ "street" := VStr "Main Street" ]} ]}.

Definition plain_node (id : string) : Element := mkElement "node" [("id", id)] [].

Definition plain_doc (id : string) : gmap string (value Q) :=
  {[ "type" := VStr "node"; "id" := VStr id ]}.

Definition unreadable_node : Element :=
  mkElement "node" [("id", "2"); ("lat", "abc"); ("lon", "-121.9")] [].

(** The counters with which [process_map_keys] starts. *)
Definition no_keys : gmap string Z :=
  {["lower" := 0%Z; "lower_colon" := 0%Z; "problemchars" := 0%Z; "other" := 0%Z]}.

Definition start_state : @shaping Q :=
  mkShaping {[ "type" := Own (VStr "node") ]} ∅.

(** ** The vocabulary of the further properties *)

(** The counters of the classifier. *)
Definition key_counts (a b c d : Z) : gmap string Z :=
  {["lower" := a; "lower_colon" := b; "problemchars" := c; "other" := d]}.

(** A [tag] element whose key falls in the category [c]. *)
Definition in_category (c : string) (e : Element) : bool :=
  bool_decide (tag e = "tag") &&
  match getitem (attrib e) "k" with
  | Ok k => bool_decide (key_category k = c)
  | Raise _ => false
  end.

Fixpoint counted (c : string) (elements : list Element) : Z :=
  match elements with
  | [] => 0
  | e :: rest => ((if in_category c e then 1 else 0) + counted c rest)%Z
  end.

(** Every [tag] element has an attribute [k]. *)
Definition keyed (e : Element) : Prop :=
  tag e = "tag" -> "k" ∈ (attrib e).*1.

(** Lowercase letters and underscores, then possibly one final newline. *)
Definition lower_like (k : string) : Prop :=
  exists x, lowercase x = true /\ (k = x \/ k = x +:+ String newline "").

(** Two such segments around one colon, then possibly one final newline. *)
Definition lower_colon_like (k : string) : Prop :=
  exists x y, lowercase x = true /\ lowercase y = true /\
    (k = x +:+ ":" +:+ y \/ k = x +:+ ":" +:+ y +:+ String newline "").

(** How often the tag name [t] occurs among the elements. *)
Definition occurrences (t : string) (elements : list Element) : nat :=
  length (filter (fun e => tag e = t) elements).

(** The audit lists [name] under the street type [t]. *)
Definition reported (return_list : gmap string (gset string)) (t name : string)
    : Prop :=
  exists ways, return_list !! t = Some ways /\ name ∈ ways.

(** [reg_string.search(name).group()] is [t]. *)
Definition found_token (reg_string : regex) (name t : string) : Prop :=
  exists m, search reg_string name = Some m /\ group m = t.

(** [name] is the value of a street-name tag of the node or way [e]. *)
Definition street_value (e : Element) (name : string) : Prop :=
  (tag e = "node" \/ tag e = "way") /\
  exists t, In t (iter "tag" e) /\ getitem (attrib t) "k" = Ok "addr:street" /\
    getitem (attrib t) "v" = Ok name.

Definition backslash : ascii := ascii_of_N 92.

(** What [street_direction_re] finds at the start of a name: one of the
    letters N, S, E, W in either case that stands alone as a word, with the
    dot after it if there is one; and the rest of the name. *)
Definition direction_token (name : string) : option (string * string) :=
  match to_text name with
  | c :: r =>
      if is_nsew c && negb (head_is is_word r) then
        match r with
        | d :: r' =>
            if decide (d = "."%char) then Some (of_text [c; d], of_text r')
            else Some (of_text [c], of_text r)
        | [] => Some (of_text [c], of_text r)
        end
      else None
  | [] => None
  end.

(** A node with an abbreviated street name, and what the audit reports on
    it. *)
Definition audited_elements : list Element :=
  [mkElement "node" [("id", "1")] [tag_elem "addr:street" "Main St"]].

Definition audited_report : gmap string (gset string) :=
  {[ "St" := {[ "Main St" ]} ]}.

(** A run of five digits cut out of the string [s]. *)
Definition zip5_of (s z : string) : Prop :=
  String.length z = 5%nat /\ forallb is_digit (to_text z) = true /\
  exists pre post, s = pre +:+ z +:+ post.

Section FieldVocabulary.

Context {pyfloat : Type}.

(** The sub-document [created] for an attribute dictionary: its items whose
    name is in CREATED. *)
Definition created_of (d : list (string * string)) : gmap string (value pyfloat) :=
  list_to_map
    ((fun item => (item.1, VStr item.2))
       <$> filter (fun item => item.1 ∈ CREATED) d).

(** The field [created]: absent when no attribute is in CREATED. *)
Definition expected_created (d : list (string * string)) : option (value pyfloat) :=
  if decide (created_of d = ∅) then None else Some (VDict (created_of d)).

Definition created_slot (m : gmap string (value pyfloat)) : option (@slot pyfloat) :=
  if decide (m = ∅) then None else Some (Own (VDict m)).

(** The field [node_refs]: absent when there is no reference. *)
Definition refs_slot (l : list (value pyfloat)) : option (@slot pyfloat) :=
  match l with
  | [] => None
  | _ :: _ => Some (Own (VList l))
  end.

(** The list under [pos], when there is one, has two slots. *)
Definition two_slots (nd : gmap string (@slot pyfloat)) : Prop :=
  forall l, nd !! "pos" = Some (Own (VList l)) -> length l = 2%nat.

End FieldVocabulary.

(** A key that the shaper stores as a field of the document itself: without
    a problem character, and either without a colon or of the two-segment
    shape with a first segment that does not start with addr. *)
Definition stored_top_level (k : string) : Prop :=
  has_problemchar k = false /\
  (~ In ":"%char (to_text k) \/
   (lower_colon_shaped k /\ String.prefix "addr" k = false)).

(** A way with two references, and its document. *)
Definition example_way : Element :=
  mkElement "way" [("id", "7"); ("user", "bob"); ("uid", "5")]
    [nd_elem "10"; nd_elem "20"; tag_elem "highway" "residential"].

Definition example_way_doc : gmap string (value Q) :=
  {[ "type" := VStr "way"; "id" := VStr "7";
     "created" := VDict {[ "user" := VStr "bob"; "uid" := VStr "5" ]};
     "node_refs" := VList [VStr "10"; VStr "20"];
     "highway" := VStr "residential" ]}.

(** The exception is an IndexError. *)
Definition is_index_error (e : exn) : bool :=
  match e with
  | IndexError => true
  | _ => false
  end.

(** A later tag with the key [k'] writes the sub-key [sub] of [address]:
    its own sub-key is [sub], or it is a street-name tag and [sub] is one of
    the keys of the literal overrides. *)
Definition writes_sub (k' sub : string) : Prop :=
  index (split1 ":" k') 1 = Ok sub \/ (k' = "addr:street" /\ sub ∈ override_keys).

(** A node with a tag whose key holds a blank, and the node without it. *)
Definition noisy_node : Element :=
  mkElement "node" [("id", "1")]
    [tag_elem "name" "x"; mkElement "tag" [("k", "opening hours")] [];
     tag_elem "addr:street" "Main St"; tag_elem "addr:city" "San Jose"].

(** The street values that the shaper replaces by literal fields. *)
Definition street_literals : list string :=
  ["Stewart Drive Suite #1"; "West Evelyn Avenue Suite #114";
   "Zanker Rd., San Jose, CA"; "Zanker Road, San Jose, CA"; "1425 E Dunne Ave"].

(** The two passes that the shaper runs on a street name: the street types,
    then the street directions. *)
Definition normalize_street (v : string) : result string :=
  new_name_1 ← update_name v mapping_street_type street_type_re expected_names;
  update_name new_name_1 mapping_street_direction street_direction_re
    expected_directions.

(** The text goes on without a blank up to the end of the string, or up to
    its final newline. *)
Definition open_tail (rest : text) : Prop :=
  exists run rest0, rest = run ++ rest0 /\ forallb is_nonspace run = true /\
    at_eol rest0 = true.

(** Elements for the classifier: one key of each category and an element that
    is no tag. *)
Definition sample_elements : list Element :=
  [tag_elem "name" "x"; tag_elem "addr:city" "y"; tag_elem "a b" "z";
   tag_elem "FIXME" "w"; plain_node "1"].

(** * Properties *)

(** ** The matcher *)

Lemma match_at_In r p q : match_at r p = Some q -> In q (ends r p).
Proof.
  unfold match_at. destruct (ends r p) as [|x l]; simpl; [discriminate|].
  intros [= ->]. now left.
Qed.

Lemma match_at_None r p : match_at r p = None <-> ends r p = [].
Proof. unfold match_at. destruct (ends r p); simpl; split; congruence. Qed.

(** When every end is the same position, that position is the match. *)
Lemma match_at_only r p q0 :
  ends r p <> [] -> (forall q, In q (ends r p) -> q = q0) -> match_at r p = Some q0.
Proof.
  unfold match_at. destruct (ends r p) as [|x l]; simpl; [congruence|].
  intros _ H. f_equal. apply H. now left.
Qed.

Lemma in_ends_seq r1 r2 p q :
  In q (ends (Seq r1 r2) p) <-> exists m, In m (ends r1 p) /\ In q (ends r2 m).
Proof. simpl. apply in_flat_map. Qed.

Lemma in_ends_alt r1 r2 p q :
  In q (ends (Alt r1 r2) p) <-> In q (ends r1 p) \/ In q (ends r2 p).
Proof. simpl. apply in_app_iff. Qed.

Lemma in_ends_chr cls p q :
  In q (ends (Chr cls) p) <->
  exists c a, p.2 = c :: a /\ cls c = true /\ q = (c :: p.1, a).
Proof.
  destruct p as [b [|c a]]; simpl.
  - split; [tauto | intros (? & ? & ? & _); discriminate].
  - destruct (cls c) eqn:Hc; simpl.
    + split.
      * intros [<- | []]. eauto.
      * intros (c' & a' & [= <- <-] & _ & ->). now left.
    + split; [tauto | intros (c' & a' & [= <- <-] & Hc' & _); congruence].
Qed.

Lemma in_ends_eol p q : In q (ends Eol p) <-> at_eol p.2 = true /\ q = p.
Proof.
  simpl. destruct (at_eol p.2); simpl; split; try tauto.
  - intros [<- | []]. auto.
  - intros [_ ->]. now left.
  - intros [? _]. discriminate.
Qed.

Lemma in_ends_bol p q : In q (ends Bol p) <-> p.1 = [] /\ q = p.
Proof.
  destruct p as [[|c b] a]; simpl; split; try tauto.
  - intros [<- | []]. auto.
  - intros [_ ->]. now left.
  - intros [? _]. discriminate.
Qed.

Lemma in_ends_wordb p q : In q (ends WordB p) <-> word_boundary p = true /\ q = p.
Proof.
  simpl. destruct (word_boundary p); simpl; split; try tauto.
  - intros [<- | []]. auto.
  - intros [_ ->]. now left.
  - intros [? _]. discriminate.
Qed.

Lemma in_ends_eps p q : In q (ends Eps p) <-> q = p.
Proof. simpl. split; [intros [<- | []]; auto | intros ->; now left]. Qed.

Lemma ends_star r p : ends (Star r) p = star_loop r (length p.2) p.
Proof. reflexivity. Qed.

Lemma in_star_loop r n p q :
  (length p.2 <= n)%nat -> In q (star_loop r n p) <-> star_path r p q.
Proof.
  revert p. induction n as [|n IH]; intros p Hn; simpl.
  - split.
    + intros [<- | []]. constructor.
    + intros H. inversion H; subst; [now left | lia].
  - rewrite in_app_iff, in_flat_map. split.
    + intros [(m & Hm & Hq) | [<- | []]]; [|constructor].
      destruct (Nat.ltb_spec (length m.2) (length p.2)) as [Hlt|]; [|destruct Hq].
      apply star_more with m; auto. apply IH; [lia | exact Hq].
    + intros H. inversion H as [|? m ? Hm Hlt Hrest]; subst.
      * right. now left.
      * left. exists m. split; [exact Hm|].
        destruct (Nat.ltb_spec (length m.2) (length p.2)); [|lia].
        apply IH; [lia | exact Hrest].
Qed.

Lemma in_ends_star r p q : In q (ends (Star r) p) <-> star_path r p q.
Proof. rewrite ends_star. now apply in_star_loop. Qed.

Lemma one_char_chr cls : one_char (Chr cls) cls.
Proof. intros p q. apply in_ends_chr. Qed.

Lemma one_char_alt c1 c2 :
  one_char (Alt (Chr c1) (Chr c2)) (fun c => c1 c || c2 c).
Proof.
  intros p q. rewrite in_ends_alt, !in_ends_chr. split.
  - intros [(c & a & ? & Hc & ?) | (c & a & ? & Hc & ?)];
      exists c, a; rewrite Hc; repeat split; auto using orb_true_r.
  - intros (c & a & ? & Hc & ?). apply orb_true_iff in Hc as [Hc|Hc];
      [left | right]; eauto.
Qed.

(** A star over one-character steps consumes a run of the class. *)
Lemma star_path_one_char r cls b a q :
  one_char r cls ->
  star_path r (b, a) q <->
  exists x y, a = x ++ y /\ forallb cls x = true /\ q = (rev x ++ b, y).
Proof.
  intros Hr. split.
  - intros H. remember (b, a) as p eqn:Hp. revert b a Hp.
    induction H as [p | p m q Hm _ _ IH]; intros b a ->.
    + exists [], a. auto.
    + apply Hr in Hm as (c & a' & Ha & Hc & ->). simpl in Ha. subst a.
      destruct (IH _ _ eq_refl) as (x & y & -> & Hx & ->).
      exists (c :: x), y. simpl. rewrite Hc, Hx, <- app_assoc. auto.
  - intros (x & y & -> & Hx & ->). revert b Hx.
    induction x as [|c x IH]; intros b Hx; simpl in *.
    + constructor.
    + apply andb_true_iff in Hx as [Hc Hx].
      apply star_more with (c :: b, x ++ y).
      * apply Hr. exists c, (x ++ y). auto.
      * simpl. lia.
      * rewrite <- app_assoc. simpl. now apply IH.
Qed.

(** ** Scanning for the leftmost match *)

Lemma scan_None r b a :
  scan r b a = None <->
  forall x y, a = x ++ y -> match_at r (rev x ++ b, y) = None.
Proof.
  revert b. induction a as [|c a IH]; intros b; simpl.
  - destruct (match_at r (b, [])) eqn:Hm; split; try congruence.
    + intros H. specialize (H [] [] eq_refl). simpl in H. congruence.
    + intros _ x y Hxy. symmetry in Hxy. apply app_eq_nil in Hxy as [-> ->]. exact Hm.
  - destruct (match_at r (b, c :: a)) eqn:Hm.
    + split; [congruence|]. intros H. specialize (H [] (c :: a) eq_refl).
      simpl in H. congruence.
    + rewrite IH. split.
      * intros H [|c' x] y Hxy; simpl in *; subst; [exact Hm|].
        injection Hxy as <- ->. rewrite <- app_assoc. simpl. now apply H.
      * intros H x y ->. specialize (H (c :: x) y eq_refl).
        simpl in H. rewrite <- app_assoc in H. exact H.
Qed.

Lemma scan_Some r b a p q :
  scan r b a = Some (p, q) <->
  exists x y, a = x ++ y /\ p = (rev x ++ b, y) /\ match_at r p = Some q /\
    forall x' y', a = x' ++ y' -> (length x' < length x)%nat ->
      match_at r (rev x' ++ b, y') = None.
Proof.
  revert b p. induction a as [|c a IH]; intros b p; simpl.
  - destruct (match_at r (b, [])) eqn:Hm; split.
    + intros [= <- <-]. exists [], []. simpl. repeat split; auto.
      intros; lia.
    + intros (x & y & Hxy & -> & Hq & _). symmetry in Hxy.
      apply app_eq_nil in Hxy as [-> ->]. simpl in *.
      rewrite Hm in Hq. now injection Hq as ->.
    + discriminate.
    + intros (x & y & Hxy & -> & Hq & _). symmetry in Hxy.
      apply app_eq_nil in Hxy as [-> ->]. simpl in *. congruence.
  - destruct (match_at r (b, c :: a)) eqn:Hm; split.
    + intros [= <- <-]. exists [], (c :: a). simpl. repeat split; auto.
      intros; lia.
    + intros (x & y & Hxy & -> & Hq & Hfirst). destruct x as [|c' x]; simpl in *.
      * subst y. rewrite Hm in Hq. now injection Hq as ->.
      * specialize (Hfirst [] (c :: a) eq_refl). simpl in Hfirst.
        rewrite Hm in Hfirst. specialize (Hfirst ltac:(lia)). discriminate.
    + intros H. apply IH in H as (x & y & -> & -> & Hq & Hfirst).
      exists (c :: x), y. simpl. rewrite <- app_assoc. repeat split; auto.
      intros [|c' x'] y' Hxy Hlt; simpl in *; [now subst|].
      injection Hxy as <- Hxy. rewrite <- app_assoc. simpl.
      apply Hfirst; [exact Hxy | lia].
    + intros (x & y & Hxy & -> & Hq & Hfirst). destruct x as [|c' x]; simpl in *.
      * subst y. congruence.
      * injection Hxy as <- ->. rewrite <- app_assoc. simpl.
        rewrite <- app_assoc in Hq. simpl in Hq.
        apply IH. exists x, y. repeat split; auto.
        intros x' y' Hxy Hlt. specialize (Hfirst (c :: x') y').
        simpl in Hfirst. rewrite <- app_assoc in Hfirst. simpl in Hfirst.
        apply Hfirst; [now rewrite Hxy | lia].
Qed.

(** ** Characters and strings *)

Lemma to_of_text t : to_text (of_text t) = t.
Proof. apply list_ascii_of_string_of_list_ascii. Qed.

Lemma of_to_text s : of_text (to_text s) = s.
Proof. apply string_of_list_ascii_of_string. Qed.

Lemma length_to_text s : length (to_text s) = String.length s.
Proof. induction s; simpl; auto. Qed.

Lemma newline_is_space c : is_code 10 c = true -> is_nonspace c = false.
Proof.
  unfold is_code, is_nonspace, is_space, in_range, is_code.
  intros H%N.eqb_eq. now rewrite H.
Qed.

Lemma word_is_nonspace c : is_word c = true -> is_nonspace c = true.
Proof. destruct c as [[] [] [] [] [] [] [] []]; vm_compute; congruence. Qed.

Lemma at_eol_cases a :
  at_eol a = true <-> a = [] \/ exists c, a = [c] /\ is_code 10 c = true.
Proof.
  destruct a as [|c [|c' a]]; simpl; split; auto.
  - intros H. right. eauto.
  - intros [|(c0 & [= <-] & H)]; [discriminate | exact H].
  - discriminate.
  - intros [|(c0 & [=] & _)]; discriminate.
Qed.

(** ** The street-type pattern *)

Lemma tail_run_unique a run rest run' rest' :
  tail_run a run rest -> tail_run a run' rest' -> run = run' /\ rest = rest'.
Proof.
  intros (-> & _ & Hr & He) (Ha & _ & Hr' & He').
  revert run' Ha Hr'. induction run as [|c run IH]; intros [|c' run'] Ha Hr'; simpl in *.
  - auto.
  - subst rest. apply andb_true_iff in Hr' as [Hc' _].
    apply at_eol_cases in He as [|(c0 & [= <- _] & H)]; [discriminate|].
    apply newline_is_space in H. congruence.
  - subst rest'. apply andb_true_iff in Hr as [Hc _].
    apply at_eol_cases in He' as [|(c0 & [= <- _] & H)]; [discriminate|].
    apply newline_is_space in H. congruence.
  - injection Ha as <- Ha.
    apply andb_true_iff in Hr as [_ Hr]. apply andb_true_iff in Hr' as [_ Hr'].
    destruct (IH Hr run' Ha Hr') as [-> ->]. auto.
Qed.

Lemma forallb_nonspace_snoc_dot x :
  forallb is_nonspace x = true -> forallb is_nonspace (x ++ ["."%char]) = true.
Proof. intros H. rewrite forallb_app, H. reflexivity. Qed.

Lemma in_ends_street_type b a q :
  In q (ends street_type_re (b, a)) <->
  word_boundary (b, a) = true /\
  exists run rest, tail_run a run rest /\ q = (rev run ++ b, rest).
Proof.
  unfold street_type_re, Plus, Opt.
  rewrite in_ends_seq. split.
  - intros (m1 & H1 & H). apply in_ends_wordb in H1 as [Hb ->]. split; [exact Hb|].
    apply in_ends_seq in H as (m2 & H2 & H).
    apply in_ends_seq in H2 as (m3 & H3 & H2).
    apply in_ends_chr in H3 as (c & a' & Ha & Hc & ->). simpl in Ha. subst a.
    apply in_ends_star in H2.
    apply (star_path_one_char _ _ _ _ _ (one_char_chr _)) in H2
      as (x & y & -> & Hx & ->).
    apply in_ends_seq in H as (m4 & H4 & H).
    apply in_ends_eol in H as [He ->].
    apply in_ends_alt in H4 as [H4 | H4].
    + apply in_ends_chr in H4 as (d & y' & Hy & Hd & ->). simpl in *. subst y.
      assert (d = "."%char) as ->.
      { unfold is_code, code in Hd. apply N.eqb_eq in Hd.
        rewrite <- (ascii_N_embedding d), Hd. reflexivity. }
      exists (c :: x ++ ["."%char]), y'. split.
      * repeat split; simpl.
        -- now rewrite <- app_assoc.
        -- discriminate.
        -- now rewrite Hc, forallb_nonspace_snoc_dot.
        -- exact He.
      * simpl. rewrite rev_app_distr. simpl. now rewrite <- app_assoc.
    + apply in_ends_eps in H4 as ->. simpl in *.
      exists (c :: x), y. split.
      * repeat split; simpl; auto; try discriminate. now rewrite Hc, Hx.
      * simpl. now rewrite <- app_assoc.
  - intros (Hb & run & rest & (-> & Hne & Hr & He) & ->).
    exists (b, run ++ rest). split; [now apply in_ends_wordb|].
    destruct run as [|c x]; [congruence|]. simpl in Hr.
    apply andb_true_iff in Hr as [Hc Hx].
    apply in_ends_seq. exists (rev x ++ c :: b, rest). split.
    + apply in_ends_seq. exists (c :: b, x ++ rest). split.
      * apply in_ends_chr. exists c, (x ++ rest). auto.
      * apply in_ends_star.
        apply (star_path_one_char _ _ _ _ _ (one_char_chr _)). eauto.
    + apply in_ends_seq. exists (rev x ++ c :: b, rest). split.
      * apply in_ends_alt. right. now apply in_ends_eps.
      * replace (rev (c :: x) ++ b) with (rev x ++ c :: b)
          by (simpl; now rewrite <- app_assoc).
        now apply in_ends_eol.
Qed.

Lemma street_type_match b a q :
  match_at street_type_re (b, a) = Some q <->
  word_boundary (b, a) = true /\
  exists run rest, tail_run a run rest /\ q = (rev run ++ b, rest).
Proof.
  split.
  - intros H%match_at_In. now apply in_ends_street_type.
  - intros H. pose proof H as (Hb & run & rest & Ht & ->).
    apply match_at_only.
    + intros Hnil. apply in_ends_street_type in H. rewrite Hnil in H. destruct H.
    + intros q (_ & run' & rest' & Ht' & ->)%in_ends_street_type.
      destruct (tail_run_unique _ _ _ _ _ Ht Ht') as [-> ->]. reflexivity.
Qed.

Lemma street_type_no_match b a :
  match_at street_type_re (b, a) = None <->
  ~ (word_boundary (b, a) = true /\ exists run rest, tail_run a run rest).
Proof.
  split.
  - intros Hn (Hb & run & rest & Ht).
    assert (match_at street_type_re (b, a) = Some (rev run ++ b, rest)) as H
      by (apply street_type_match; eauto).
    congruence.
  - intros Hn. destruct (match_at street_type_re (b, a)) as [q|] eqn:H; [|reflexivity].
    apply street_type_match in H as (Hb & run & rest & Ht & _).
    exfalso. apply Hn. eauto.
Qed.

Lemma between_app (b b' run rest : text) :
  between (b, run ++ rest) (b', rest) = run.
Proof.
  unfold between. simpl. rewrite length_app.
  replace (length run + length rest - length rest)%nat with (length run) by lia.
  now rewrite take_app_length.
Qed.

Lemma scan_street s p q :
  scan street_type_re [] s = Some (p, q) <->
  exists pre run rest, street_found s pre run rest /\
    p = (rev pre, run ++ rest) /\ q = (rev run ++ rev pre, rest).
Proof.
  rewrite scan_Some. split.
  - intros (x & y & -> & -> & Hq & Hfirst). rewrite app_nil_r in *.
    apply street_type_match in Hq as (Hb & run & rest & Ht & ->).
    pose proof Ht as (-> & _). exists x, run, rest.
    split; [|auto]. split; [reflexivity|]. split; [exact Hb|]. split; [exact Ht|].
    intros x' y' Hxy Hlt. specialize (Hfirst x' y' Hxy Hlt).
    now rewrite app_nil_r in Hfirst.
  - intros (pre & run & rest & (-> & Hb & Ht & Hfirst) & -> & ->).
    exists pre, (run ++ rest). rewrite app_nil_r. repeat split.
    + apply street_type_match. eauto.
    + intros x' y' Hxy Hlt. rewrite app_nil_r. now apply Hfirst.
Qed.

Lemma search_street name m :
  search street_type_re name = Some m <->
  exists pre run rest, street_found (to_text name) pre run rest /\
    m = mkMatch (of_text pre) (of_text run) (of_text rest).
Proof.
  unfold search. split.
  - destruct (scan street_type_re [] (to_text name)) as [[p q]|] eqn:Hs; [|discriminate].
    intros [= <-]. apply scan_street in Hs as (pre & run & rest & Hf & -> & ->).
    exists pre, run, rest. split; [exact Hf|]. simpl.
    now rewrite rev_involutive, between_app.
  - intros (pre & run & rest & Hf & ->).
    assert (scan street_type_re [] (to_text name)
            = Some ((rev pre, run ++ rest), (rev run ++ rev pre, rest))) as ->
      by (apply scan_street; eauto 10).
    simpl. now rewrite rev_involutive, between_app.
Qed.

(** After the token nothing is left to match. *)
Lemma scan_street_rest b rest :
  at_eol rest = true -> scan street_type_re b rest = None.
Proof.
  intros He. apply scan_None. intros x y Hxy.
  apply street_type_no_match. intros (_ & run & rest' & -> & Hne & Hr & _).
  destruct run as [|c run]; [congruence|]. simpl in Hr.
  apply andb_true_iff in Hr as [Hc _].
  apply at_eol_cases in He as [-> | (c0 & -> & H0)].
  - destruct x; discriminate.
  - destruct x as [|c1 [|c2 x]]; simpl in Hxy; try discriminate.
    injection Hxy as <- _. apply newline_is_space in H0. congruence.
Qed.

Lemma sub_street name pre run rest repl :
  street_found (to_text name) pre run rest ->
  sub street_type_re repl name = of_text (pre ++ to_text repl ++ rest).
Proof.
  intros Hf. unfold sub. f_equal. simpl.
  assert (scan street_type_re [] (to_text name)
          = Some ((rev pre, run ++ rest), (rev run ++ rev pre, rest))) as ->
    by (apply scan_street; eauto 10).
  destruct Hf as (Hs & _ & (_ & Hne & _ & He) & _). simpl.
  assert ((length rest <? length (run ++ rest)) = true) as ->.
  { apply Nat.ltb_lt. rewrite length_app. destruct run; [congruence | simpl; lia]. }
  assert (between ([], to_text name) (rev pre, run ++ rest) = pre) as ->.
  { rewrite Hs. apply between_app. }
  do 2 f_equal.
  destruct (String.length name) as [|n]; [reflexivity|]. simpl.
  now rewrite scan_street_rest.
Qed.

Lemma tail_run_prefix d z run rest :
  tail_run (d ++ z) run rest ->
  (exists c z', z = c :: z' /\ is_nonspace c = true) ->
  forallb is_nonspace d = true.
Proof.
  intros (Ha & Hne & Hr & He) (c & z' & -> & Hc).
  revert run Ha Hne Hr. induction d as [|c0 d IH]; intros run Ha Hne Hr; [reflexivity|].
  destruct run as [|c1 run]; [congruence|]. simpl in *.
  injection Ha as <- Ha. apply andb_true_iff in Hr as [-> Hr]. simpl.
  destruct run as [|c2 run].
  - simpl in Ha. subst rest.
    apply at_eol_cases in He as [He | (c3 & He & H3)].
    + destruct d; discriminate.
    + destruct d as [|? [|? ?]]; simpl in He; try discriminate.
      injection He as -> _. apply newline_is_space in H3. congruence.
  - apply IH with (c2 :: run); auto.
Qed.

Lemma word_boundary_head b u t t' :
  u <> [] -> word_boundary (b, u ++ t) = word_boundary (b, u ++ t').
Proof. destruct u; [congruence | reflexivity]. Qed.

Lemma forallb_space_suffix (w u x : text) :
  w ++ [" "%char] = x ++ u -> u <> [] -> forallb is_nonspace u = false.
Proof.
  intros H Hu. destruct (exists_last Hu) as (u' & c & ->).
  rewrite app_assoc in H. apply app_inj_tail in H as [_ <-].
  rewrite forallb_app. simpl. apply andb_false_r.
Qed.

(** The second search, in the string in which the token [run] was replaced
    by [w1 ++ w2], where [w2] is a word and [w1] is empty or ends in a space:
    it finds [w2]. *)
Lemma street_found_after s pre run rest w1 w2 :
  street_found s pre run rest ->
  word_ahead (rev pre, run ++ rest) = true ->
  w1 = [] \/ (exists w, w1 = w ++ [" "%char]) ->
  w2 <> [] -> forallb is_word w2 = true ->
  street_found (pre ++ (w1 ++ w2) ++ rest) (pre ++ w1) w2 rest.
Proof.
  intros (-> & Hb & (_ & Hne & Hr & He) & Hfirst) Hw Hw1 Hw2 Hword.
  assert (forallb is_nonspace w2 = true) as Hns.
  { apply forallb_forall. intros c Hc. apply word_is_nonspace.
    rewrite forallb_forall in Hword. auto. }
  assert (exists c z', w2 ++ rest = c :: z' /\ is_nonspace c = true) as Hz.
  { destruct w2 as [|c w2]; [congruence|]. simpl in Hns.
    apply andb_true_iff in Hns as [Hc _]. simpl. eauto. }
  assert (word_ahead (rev (pre ++ w1), w2 ++ rest) = true) as Hw2a.
  { destruct w2 as [|c w2]; [congruence|]. simpl in Hword.
    apply andb_true_iff in Hword as [Hc _]. exact Hc. }
  split; [|split; [|split; [repeat split|]]].
  - now rewrite <- !app_assoc.
  - unfold word_boundary in *. rewrite Hw2a. rewrite Hw in Hb.
    destruct Hw1 as [-> | (w & ->)].
    + now rewrite app_nil_r.
    + rewrite app_assoc, rev_app_distr. reflexivity.
  - exact Hw2.
  - exact Hns.
  - exact He.
  - intros x y Hxy Hlt. apply street_type_no_match.
    intros (Hbx & run' & rest' & Ht).
    rewrite <- !app_assoc in Hxy. rewrite (app_assoc pre w1) in Hxy.
    symmetry in Hxy. apply app_eq_app in Hxy as (u & [[-> _] | [Hpre ->]]).
    { rewrite length_app in Hlt. lia. }
    assert (u <> []) as Hu.
    { intros ->. rewrite app_nil_r in Hpre. rewrite Hpre in Hlt. lia. }
    pose proof (tail_run_prefix _ _ _ _ Ht Hz) as Hnsu.
    destruct Hw1 as [-> | (w & ->)].
    + rewrite app_nil_r in Hpre. subst pre.
      assert (match_at street_type_re (rev x, u ++ run ++ rest) = None) as Hno.
      { apply Hfirst; [now rewrite <- app_assoc | rewrite length_app; destruct u; [congruence | simpl; lia]]. }
      apply street_type_no_match in Hno. apply Hno. split.
      * rewrite <- Hbx. now apply word_boundary_head.
      * exists (u ++ run), rest. repeat split.
        -- now rewrite <- app_assoc.
        -- destruct u; [congruence | discriminate].
        -- now rewrite forallb_app, Hnsu, Hr.
        -- exact He.
    + rewrite app_assoc in Hpre.
      pose proof (forallb_space_suffix _ _ _ Hpre Hu). congruence.
Qed.

(** ** Street normalization applied twice *)

Lemma split_last_space_spec t w1 w2 :
  split_last_space t = (w1, w2) ->
  t = w1 ++ w2 /\ (w1 = [] \/ exists w, w1 = w ++ [" "%char]).
Proof.
  revert w1 w2. induction t as [|c t IH]; intros w1 w2; simpl.
  - intros [= <- <-]. auto.
  - destruct (split_last_space t) as [[|d v1] v2].
    + destruct (IH _ _ eq_refl) as [-> _].
      destruct (decide (c = " "%char)) as [-> | _]; intros [= <- <-]; simpl; auto.
      split; [reflexivity|]. right. now exists [].
    + destruct (IH _ _ eq_refl) as [-> [? | (w & Hw)]]; [discriminate|].
      intros [= <- <-]. split; [reflexivity|]. right. exists (c :: w).
      simpl. now rewrite Hw.
Qed.

Lemma mapping_street_type_ok k repl :
  mapping_street_type !! k = Some repl ->
  k ∈ expected_names \/ (key_ok k = true /\ repl_ok repl = true).
Proof.
  intros H%elem_of_list_to_map_2%list_elem_of_In.
  assert (forallb (fun kv : string * string =>
            bool_decide (kv.1 ∈ expected_names) || (key_ok kv.1 && repl_ok kv.2))
            mapping_street_type_items = true) as Hall by (vm_compute; reflexivity).
  rewrite forallb_forall in Hall. specialize (Hall _ H). simpl in Hall.
  apply orb_true_iff in Hall as [Hin%bool_decide_eq_true | Hok%andb_true_iff]; auto.
Qed.

Lemma update_name_again name pre run rest repl :
  street_found (to_text name) pre run rest ->
  key_ok (of_text run) = true -> repl_ok repl = true ->
  let name' := sub street_type_re repl name in
  update_name name' mapping_street_type street_type_re expected_names = Ok name'.
Proof.
  intros Hf Hk Hr name'. unfold repl_ok in Hr.
  destruct (split_last_space (to_text repl)) as [w1 w2] eqn:Hsplit.
  apply split_last_space_spec in Hsplit as [Hrepl Hw1]. simpl in Hr.
  destruct w2 as [|c w2'] eqn:Hw2; [discriminate|]. rewrite <- Hw2 in *.
  apply andb_true_iff in Hr as [Hword Hexp].
  assert (word_ahead (rev pre, run ++ rest) = true) as Hahead.
  { unfold key_ok in Hk. rewrite to_of_text in Hk.
    destruct Hf as (_ & _ & (_ & Hne & _) & _).
    destruct run; [congruence | exact Hk]. }
  assert (w2 <> []) as Hne2 by (rewrite Hw2; discriminate).
  pose proof (street_found_after _ _ _ _ w1 w2 Hf Hahead Hw1 Hne2 Hword) as Hf'.
  assert (to_text name' = pre ++ (w1 ++ w2) ++ rest) as Htext.
  { unfold name'. rewrite (sub_street _ _ _ _ _ Hf), to_of_text. now rewrite Hrepl. }
  rewrite <- Htext in Hf'.
  assert (search street_type_re name'
          = Some (mkMatch (of_text (pre ++ w1)) (of_text w2) (of_text rest))) as Hs
    by (apply search_street; eauto 10).
  unfold update_name. rewrite Hs. cbn [group]. now rewrite Hexp.
Qed.

(** C9: street normalization is idempotent on its successful outputs: when
    [update_name] with the street-type mapping returns a string, applying it
    to that string returns it unchanged. *)
Theorem update_name_street_type_idempotent (name name' : string) :
  update_name name mapping_street_type street_type_re expected_names = Ok name' ->
  update_name name' mapping_street_type street_type_re expected_names = Ok name'.
Proof.
  intros H. pose proof H as H0. unfold update_name in H.
  destruct (search street_type_re name) as [m|] eqn:Hs.
  - cbv zeta in H. destruct (bool_decide (group m ∈ expected_names)) eqn:Hexp.
    + injection H as <-. exact H0.
    + destruct (mapping_street_type !! group m) as [repl|] eqn:Hmap; [|discriminate].
      injection H as <-.
      apply search_street in Hs as (pre & run & rest & Hf & ->). cbn [group] in *.
      apply mapping_street_type_ok in Hmap as [Hin | [Hk Hr]].
      * apply bool_decide_eq_false in Hexp. contradiction.
      * now apply update_name_again with pre run rest.
  - injection H as <-. exact H0.
Qed.

Lemma update_name_street_type_idempotent_witness :
  update_name "N Main Street" mapping_street_type street_type_re expected_names
  = Ok "N Main Street".
Proof.
  apply (update_name_street_type_idempotent "N Main St"). vm_compute. reflexivity.
Defined.

(** Membership in a literal list of keys. *)
Ltac elem_of_keys :=
  repeat match goal with
         | f : string -> option _ |- _ => clear f
         end;
  repeat match goal with
         | H : context [_ ∈ _] |- _ => revert H
         end;
  rewrite ?fmap_cons, ?elem_of_cons, ?elem_of_nil; cbn [fst snd];
  intuition (try congruence; try discriminate).

(** ** Exceptions *)

Lemma bind_Ok {A B : Type} (m : result A) (f : A -> result B) b :
  (a ← m; f a) = Ok b <-> exists a, m = Ok a /\ f a = Ok b.
Proof.
  destruct m as [a|e]; simpl; split; eauto.
  - intros (a' & [= <-] & H). exact H.
  - discriminate.
  - intros (a' & [=] & _).
Qed.

(** ** Loops *)

Lemma for_each_app {A S : Type} (f : A -> S -> result S) l1 l2 s :
  for_each f (l1 ++ l2) s = (s' ← for_each f l1 s; for_each f l2 s').
Proof.
  revert s. induction l1 as [|x l1 IH]; intros s; simpl; [reflexivity|].
  destruct (f x s) as [s1|e]; simpl; [apply IH | reflexivity].
Qed.

(** A property that every step keeps is kept by the loop. *)
Lemma for_each_invariant {A S : Type} (f : A -> S -> result S) (P : S -> Prop) l :
  (forall x s s', In x l -> f x s = Ok s' -> P s -> P s') ->
  forall s s', for_each f l s = Ok s' -> P s -> P s'.
Proof.
  induction l as [|x l IH]; intros Hstep s s'; simpl.
  - now intros [= <-].
  - destruct (f x s) as [s1|e] eqn:Hf; simpl; [|discriminate].
    intros H Hs. apply IH with s1; auto.
    + intros y t t' Hy. apply Hstep. now right.
    + apply Hstep with x s; auto. now left.
Qed.

(** ** The shaper: which keys each step touches *)

Section AttrFacts.

Context {pyfloat : Type} (float : string -> option pyfloat).

Implicit Types (nd : gmap string (@slot pyfloat)).

Lemma init_key_ne k v nd key : key <> k -> init_key k v nd !! key = nd !! key.
Proof.
  intros H. unfold init_key. destruct (nd !! k); [reflexivity|].
  now rewrite lookup_insert_ne by congruence.
Qed.

Lemma init_key_is_Some k v nd : is_Some (init_key k v nd !! k).
Proof.
  unfold init_key. destruct (nd !! k) eqn:H; [now rewrite H|].
  rewrite lookup_insert_eq. eauto.
Qed.

Lemma shape_attr_frame item nd nd' key :
  shape_attr float item nd = Ok nd' ->
  key <> "created" -> key <> "pos" -> key <> item.1 ->
  nd' !! key = nd !! key.
Proof.
  unfold shape_attr. intros H Hc Hp Hk.
  destruct (bool_decide (item.1 ∈ CREATED)).
  { destruct (init_key "created" _ nd !! "created") as [[[]|]|]; try discriminate.
    injection H as <-. now rewrite lookup_insert_ne, init_key_ne by congruence. }
  destruct (bool_decide (item.1 ∈ ["lat"; "lon"])).
  { destruct (float item.2); [|discriminate].
    destruct (init_key "pos" _ nd !! "pos") as [[[]|]|]; try discriminate.
    destruct (bool_decide _) in H; [|discriminate].
    injection H as <-. now rewrite lookup_insert_ne, init_key_ne by congruence. }
  injection H as <-. now rewrite lookup_insert_ne by congruence.
Qed.

Lemma shape_attr_plain a v nd :
  a ∉ CREATED -> a ∉ ["lat"; "lon"] ->
  shape_attr float (a, v) nd = Ok (<[a := Own (VStr v)]> nd).
Proof.
  intros H1 H2. unfold shape_attr. cbn [fst snd].
  now rewrite !bool_decide_eq_false_2.
Qed.

End AttrFacts.

Section TagFacts.

Context {pyfloat : Type}.

Implicit Types (nd : gmap string (@slot pyfloat)) (st : @shaping pyfloat).

Lemma shape_nd_frame n nd nd' key :
  shape_nd n nd = Ok nd' -> key <> "node_refs" -> nd' !! key = nd !! key.
Proof.
  unfold shape_nd. intros H Hk.
  destruct (init_key "node_refs" _ nd !! "node_refs") as [[[]|]|]; try discriminate.
  destruct (getitem (attrib n) "ref"); [|discriminate].
  injection H as <-. now rewrite lookup_insert_ne, init_key_ne by congruence.
Qed.

Lemma shape_nds_frame nds nd nd' key :
  for_each shape_nd nds nd = Ok nd' -> key <> "node_refs" -> nd' !! key = nd !! key.
Proof.
  intros H Hk. revert nd H. induction nds as [|n nds IH]; intros nd; simpl.
  - now intros [= <-].
  - destruct (shape_nd n nd) as [nd1|] eqn:H1; simpl; [|discriminate].
    intros H. rewrite (IH _ H). now apply (shape_nd_frame n).
Qed.

Lemma attach_address_node_ne st key :
  key <> "address" -> node (attach_address st) !! key = node st !! key.
Proof.
  intros H. unfold attach_address. destruct (decide (address st = ∅)); [reflexivity|].
  simpl. now rewrite lookup_insert_ne by congruence.
Qed.

Lemma attach_address_address st : address (attach_address st) = address st.
Proof. unfold attach_address. now destruct (decide (address st = ∅)). Qed.

Lemma attach_address_attached st : attached (attach_address st).
Proof.
  unfold attached, attach_address. destruct (decide (address st = ∅)); [tauto|].
  simpl. intros _. apply lookup_insert_eq.
Qed.

Lemma attach_address_id st : attached st -> attach_address st = st.
Proof.
  unfold attached, attach_address. intros H.
  destruct (decide (address st = ∅)); [reflexivity|].
  destruct st as [nd ad]. simpl in *. f_equal. apply insert_id. auto.
Qed.

Lemma shape_street_frame v sub_attr (ad ad' : gmap string (value pyfloat)) key :
  shape_street v sub_attr ad = Ok ad' ->
  key ∉ override_keys -> index sub_attr 1 <> Ok key ->
  ad' !! key = ad !! key.
Proof.
  unfold shape_street, override_keys. intros H Hk Hsub.
  assert (key <> "street" /\ key <> "unit" /\ key <> "city" /\ key <> "state"
          /\ key <> "housenumber") as (? & ? & ? & ? & ?).
  { repeat split; intros ->; apply Hk; elem_of_keys. }
  repeat (destruct (decide _) in H;
          [injection H as <-; now rewrite !lookup_insert_ne by congruence|]).
  apply bind_Ok in H as (name1 & _ & H). apply bind_Ok in H as (name2 & _ & H).
  apply bind_Ok in H as (k1 & Hk1 & H). injection H as <-.
  rewrite lookup_insert_ne; congruence.
Qed.

Lemma shape_street_nonempty v sub_attr (ad ad' : gmap string (value pyfloat)) :
  shape_street v sub_attr ad = Ok ad' -> ad' <> ∅.
Proof.
  unfold shape_street. intros H.
  repeat (destruct (decide _) in H; [injection H as <-; apply insert_non_empty|]).
  apply bind_Ok in H as (name1 & _ & H). apply bind_Ok in H as (name2 & _ & H).
  apply bind_Ok in H as (k1 & Hk1 & H). injection H as <-. apply insert_non_empty.
Qed.

(** The address branch leaves [node] alone but for the key [address], and
    either leaves [address] alone or adds to it. *)
Lemma shape_addr_tag_node t k st st1 :
  shape_addr_tag t k st = Ok st1 ->
  node st1 = init_key "address" (VDict ∅) (node st).
Proof.
  unfold shape_addr_tag. intros H.
  apply bind_Ok in H as ([] & _ & H).
  - apply bind_Ok in H as (v & _ & H).
    destruct (bool_decide _) in H; [now injection H as <-|].
    apply bind_Ok in H as (a1 & _ & H). now injection H as <-.
  - apply bind_Ok in H as ([] & _ & H);
      apply bind_Ok in H as (v & _ & H); apply bind_Ok in H as (k1 & _ & H);
      now injection H as <-.
Qed.

Lemma shape_addr_tag_address t k st st1 :
  shape_addr_tag t k st = Ok st1 ->
  address st1 = address st \/ address st1 <> ∅.
Proof.
  unfold shape_addr_tag. intros H.
  apply bind_Ok in H as ([] & _ & H).
  - apply bind_Ok in H as (v & _ & H).
    destruct (bool_decide _) in H; [injection H as <-; now left|].
    apply bind_Ok in H as (a1 & Ha & H). injection H as <-. right.
    simpl. eapply shape_street_nonempty, Ha.
  - apply bind_Ok in H as ([] & _ & H);
      apply bind_Ok in H as (v & _ & H); apply bind_Ok in H as (k1 & _ & H);
      injection H as <-; right; apply insert_non_empty.
Qed.

Lemma shape_addr_tag_address_frame t k st st1 key :
  shape_addr_tag t k st = Ok st1 ->
  key ∉ override_keys -> index (split1 ":" k) 1 <> Ok key ->
  address st1 !! key = address st !! key.
Proof.
  unfold shape_addr_tag. intros H Hk Hsub.
  apply bind_Ok in H as ([] & _ & H).
  - apply bind_Ok in H as (v & _ & H).
    destruct (bool_decide _) in H; [now injection H as <-|].
    apply bind_Ok in H as (a1 & Ha & H). injection H as <-. simpl.
    eapply shape_street_frame; eauto.
  - apply bind_Ok in H as ([] & _ & H);
      apply bind_Ok in H as (v & _ & H); apply bind_Ok in H as (k1 & Hk1 & H);
      injection H as <-; simpl; rewrite lookup_insert_ne; congruence.
Qed.

(** A tag whose key holds a problem character changes nothing. *)
Lemma shape_tag_problem t st k :
  getitem (attrib t) "k" = Ok k -> found (search problemchars k) = true ->
  shape_tag t st = Ok st.
Proof. intros Hk Hp. unfold shape_tag. rewrite Hk. simpl. now rewrite Hp. Qed.

(** What a tag step does, by the branch it takes. *)
Lemma shape_tag_cases t st st' :
  shape_tag t st = Ok st' ->
  exists k, getitem (attrib t) "k" = Ok k /\
    ((found (search problemchars k) = true /\ st' = st) \/
     (found (search problemchars k) = false /\
      exists st1, st' = attach_address st1 /\
        ((found (search lower_colon k) = true /\ find k "addr" = 0%Z /\
          shape_addr_tag t k st = Ok st1) \/
         ((found (search lower_colon k) = true /\ find k "addr" <> 0%Z \/
           found (search lower_colon k) = false /\ find k ":" = (-1)%Z) /\
          exists v, getitem (attrib t) "v" = Ok v /\
            st1 = mkShaping (<[k := Own (VStr v)]> (node st)) (address st)) \/
         (found (search lower_colon k) = false /\ find k ":" <> (-1)%Z /\
          st1 = st)))).
Proof.
  unfold shape_tag. intros H. apply bind_Ok in H as (k & Hk & H).
  exists k. split; [exact Hk|].
  destruct (found (search problemchars k)); [left; now injection H as <- | right].
  split; [reflexivity|].
  apply bind_Ok in H as (st1 & H1 & H). injection H as <-.
  exists st1. split; [reflexivity|].
  destruct (found (search lower_colon k)).
  - destruct (decide (find k "addr" = 0%Z)); [left; auto|].
    right. left. apply bind_Ok in H1 as (v & Hv & H1). injection H1 as <-.
    split; [left; auto | eauto].
  - destruct (decide (find k ":" = (-1)%Z)).
    + right. left. apply bind_Ok in H1 as (v & Hv & H1). injection H1 as <-.
      split; [right; auto | eauto].
    + right. right. injection H1 as <-. auto.
Qed.

Lemma shape_tag_node_frame t st st' key :
  shape_tag t st = Ok st' ->
  key <> "address" -> getitem (attrib t) "k" <> Ok key ->
  node st' !! key = node st !! key.
Proof.
  intros H Hk Hne.
  apply shape_tag_cases in H as (k & Hgk & [[_ ->] | (_ & st1 & -> & H)]); [reflexivity|].
  rewrite attach_address_node_ne by exact Hk.
  destruct H as [(_ & _ & H) | [(_ & v & _ & ->) | (_ & _ & ->)]].
  - apply shape_addr_tag_node in H. rewrite H. now apply init_key_ne.
  - simpl. rewrite lookup_insert_ne; congruence.
  - reflexivity.
Qed.

Lemma shape_tag_address_frame t st st' key :
  shape_tag t st = Ok st' ->
  key ∉ override_keys ->
  (forall k, getitem (attrib t) "k" = Ok k -> index (split1 ":" k) 1 <> Ok key) ->
  address st' !! key = address st !! key.
Proof.
  intros H Hk Hne.
  apply shape_tag_cases in H as (k & Hgk & [[_ ->] | (_ & st1 & -> & H)]); [reflexivity|].
  rewrite attach_address_address.
  destruct H as [(_ & _ & H) | [(_ & v & _ & ->) | (_ & _ & ->)]]; try reflexivity.
  eapply shape_addr_tag_address_frame; eauto.
Qed.

Lemma shape_tag_attached t st st' :
  shape_tag t st = Ok st' -> attached st -> attached st'.
Proof.
  intros H Hst.
  apply shape_tag_cases in H as (k & _ & [[_ ->] | (_ & st1 & -> & _)]); [exact Hst|].
  apply attach_address_attached.
Qed.

Lemma shape_tag_nonempty t st st' :
  shape_tag t st = Ok st' -> address st <> ∅ -> address st' <> ∅.
Proof.
  intros H Hst.
  apply shape_tag_cases in H as (k & _ & [[_ ->] | (_ & st1 & -> & H)]); [exact Hst|].
  rewrite attach_address_address.
  destruct H as [(_ & _ & H) | [(_ & v & _ & ->) | (_ & _ & ->)]]; auto.
  apply shape_addr_tag_address in H as [-> | H]; auto.
Qed.

Lemma shape_tags_attached ts st st' :
  for_each shape_tag ts st = Ok st' -> attached st -> attached st'.
Proof.
  apply (for_each_invariant shape_tag attached).
  intros t s s' _. apply shape_tag_attached.
Qed.

Lemma shape_tags_nonempty ts st st' :
  for_each shape_tag ts st = Ok st' -> address st <> ∅ -> address st' <> ∅.
Proof.
  apply (for_each_invariant shape_tag (fun s => address s <> ∅)).
  intros t s s' _. apply shape_tag_nonempty.
Qed.

Lemma shape_tags_node_frame ts st st' key :
  for_each shape_tag ts st = Ok st' ->
  key <> "address" ->
  (forall t, In t ts -> getitem (attrib t) "k" <> Ok key) ->
  node st' !! key = node st !! key.
Proof.
  intros H Hk Hts. revert st H. induction ts as [|t ts IH]; intros st; simpl.
  - now intros [= <-].
  - intros (st1 & H1 & H)%bind_Ok. rewrite (IH (fun t' Ht' => Hts t' (or_intror Ht')) _ H).
    apply (shape_tag_node_frame t); auto. apply Hts. now left.
Qed.

Lemma shape_tags_address_frame ts st st' key :
  for_each shape_tag ts st = Ok st' ->
  key ∉ override_keys ->
  (forall t k, In t ts -> getitem (attrib t) "k" = Ok k ->
     index (split1 ":" k) 1 <> Ok key) ->
  address st' !! key = address st !! key.
Proof.
  intros H Hk Hts. revert st H. induction ts as [|t ts IH]; intros st; simpl.
  - now intros [= <-].
  - intros (st1 & H1 & H)%bind_Ok.
    rewrite (IH (fun t' k' Ht' => Hts t' k' (or_intror Ht')) _ H).
    apply (shape_tag_address_frame t); auto. intros k. apply Hts. now left.
Qed.

End TagFacts.

(** ** Attribute dictionaries *)

Lemma getitem_In d k v : getitem d k = Ok v -> In (k, v) d.
Proof.
  induction d as [|[k' v'] d IH]; simpl; [discriminate|].
  destruct (decide (k' = k)) as [-> | _]; [intros [= ->]; now left | auto].
Qed.

Lemma getitem_absent d k : k ∉ d.*1 -> getitem d k = Raise (KeyError k).
Proof.
  induction d as [|[k' v'] d IH]; simpl; [reflexivity|].
  intros H. destruct (decide (k' = k)) as [-> | _].
  - exfalso. apply H. elem_of_keys.
  - apply IH. elem_of_keys.
Qed.

Lemma getitem_present d k : k ∈ d.*1 -> exists v, getitem d k = Ok v.
Proof.
  induction d as [|[k' v'] d IH]; simpl; [intros H; elem_of_keys|].
  intros H. destruct (decide (k' = k)) as [-> | Hne]; [eauto|].
  apply IH. elem_of_keys.
Qed.

(** ** The field [pos] *)

Lemma lat_lon_cases (a : string) :
  a ∈ ["lat"; "lon"] <-> a = "lat" \/ a = "lon".
Proof. rewrite !elem_of_cons, elem_of_nil. tauto. Qed.

Lemma created_not_lat_lon (a : string) : a ∈ CREATED -> a <> "lat" /\ a <> "lon".
Proof.
  unfold CREATED. rewrite !elem_of_cons, elem_of_nil.
  intros H; split; intros ->; intuition discriminate.
Qed.

Section Pos.

Context {pyfloat : Type} (float : string -> option pyfloat).

Lemma init_key_lookup k (v : value pyfloat) (nd : gmap string (@slot pyfloat)) :
  init_key k v nd !! k = Some (default (Own v) (nd !! k)).
Proof.
  unfold init_key. destruct (nd !! k) eqn:H; simpl; [exact H|].
  apply lookup_insert_eq.
Qed.

Lemma shape_attr_pos a v nd nd' b la lo :
  shape_attr float (a, v) nd = Ok nd' -> a <> "pos" ->
  nd !! "pos" = pos_slot b la lo ->
  (b = false -> la = VNone /\ lo = VNone) ->
  nd' !! "pos" =
    pos_slot (b || bool_decide (a ∈ ["lat"; "lon"]))
      (coords float [(a, v)] la lo).1 (coords float [(a, v)] la lo).2.
Proof.
  intros H Ha Hnd Hb. unfold shape_attr in H. cbn [fst snd] in H. simpl coords.
  destruct (bool_decide (a ∈ CREATED)) eqn:Hc.
  { apply bool_decide_eq_true, created_not_lat_lon in Hc as [H1 H2].
    destruct (init_key "created" _ nd !! "created") as [[[]|]|]; try discriminate.
    injection H as <-.
    rewrite lookup_insert_ne, init_key_ne, Hnd by congruence.
    rewrite bool_decide_eq_false_2 by (rewrite lat_lon_cases; tauto).
    destruct (decide (a = "lat")); [congruence|].
    destruct (decide (a = "lon")); [congruence|]. now rewrite orb_false_r. }
  destruct (bool_decide (a ∈ ["lat"; "lon"])) eqn:Hl.
  - apply bool_decide_eq_true in Hl. rewrite orb_true_r.
    destruct (float v) as [x|]; [|discriminate].
    rewrite init_key_lookup, Hnd in H.
    assert (default (Own (VList [VNone; VNone])) (pos_slot b la lo)
            = Own (VList [la; lo])) as Hslot.
    { destruct b; [reflexivity|]. destruct (Hb eq_refl) as [-> ->]. reflexivity. }
    rewrite Hslot in H. apply lat_lon_cases in Hl as [-> | ->].
    + rewrite (bool_decide_eq_true_2 ("lat" = "lat")) in H by reflexivity.
      rewrite bool_decide_eq_true_2 in H by (simpl; lia).
      injection H as <-. rewrite lookup_insert_eq.
      destruct (decide ("lat" = "lat")); [reflexivity | congruence].
    + rewrite (bool_decide_eq_false_2 ("lon" = "lat")) in H by discriminate.
      rewrite bool_decide_eq_true_2 in H by (simpl; lia).
      injection H as <-. rewrite lookup_insert_eq.
      destruct (decide ("lon" = "lat")); [discriminate|].
      destruct (decide ("lon" = "lon")); [reflexivity | congruence].
  - apply bool_decide_eq_false in Hl. rewrite lat_lon_cases in Hl.
    injection H as <-. rewrite lookup_insert_ne, Hnd by congruence.
    destruct (decide (a = "lat")); [tauto|].
    destruct (decide (a = "lon")); [tauto|]. now rewrite orb_false_r.
Qed.

Lemma coords_cons a v d la lo :
  coords float ((a, v) :: d) la lo
  = coords float d (coords float [(a, v)] la lo).1 (coords float [(a, v)] la lo).2.
Proof.
  simpl. destruct (decide (a = "lat")); [reflexivity|].
  destruct (decide (a = "lon")); reflexivity.
Qed.

Lemma attrs_pos d nd nd' b la lo :
  for_each (shape_attr float) d nd = Ok nd' -> "pos" ∉ d.*1 ->
  nd !! "pos" = pos_slot b la lo ->
  (b = false -> la = VNone /\ lo = VNone) ->
  nd' !! "pos" = pos_slot (seen d b) (coords float d la lo).1 (coords float d la lo).2.
Proof.
  revert nd b la lo. induction d as [|[a v] d IH]; intros nd b la lo.
  - simpl. now intros [= <-].
  - intros (nd1 & H1 & H)%bind_Ok Hpos Hnd Hb.
    rewrite fmap_cons, not_elem_of_cons in Hpos. destruct Hpos as [Ha Hpos].
    cbn [fst] in Ha.
    rewrite coords_cons. cbn [seen]. apply IH with nd1; auto.
    + apply shape_attr_pos with nd; auto.
    + intros [-> Hl]%orb_false_iff. destruct (Hb eq_refl) as [-> ->].
      apply bool_decide_eq_false in Hl. rewrite lat_lon_cases in Hl. simpl.
      destruct (decide (a = "lat")); [tauto|].
      destruct (decide (a = "lon")); [tauto | auto].
Qed.

Lemma seen_spec d b :
  seen d b = b || (bool_decide ("lat" ∈ d.*1) || bool_decide ("lon" ∈ d.*1)).
Proof.
  revert b. induction d as [|[a v] d IH]; intros b.
  - simpl. now rewrite orb_false_r.
  - cbn [seen]. rewrite IH, <- orb_assoc. f_equal.
    rewrite <- !bool_decide_or. apply bool_decide_ext. elem_of_keys.
Qed.

Lemma coordinate_cons_ne a v d k :
  a <> k -> coordinate float ((a, v) :: d) k = coordinate float d k.
Proof. intros H. unfold coordinate. simpl. now destruct (decide (a = k)). Qed.

Lemma coordinate_cons_eq a v d :
  coordinate float ((a, v) :: d) a
  = match float v with Some x => VFloat x | None => VNone end.
Proof. unfold coordinate. simpl. now destruct (decide (a = a)). Qed.

Lemma coords_lookup d la lo :
  NoDup d.*1 ->
  coords float d la lo =
    (if bool_decide ("lat" ∈ d.*1) then coordinate float d "lat" else la,
     if bool_decide ("lon" ∈ d.*1) then coordinate float d "lon" else lo).
Proof.
  revert la lo. induction d as [|[a v] d IH]; intros la lo Hnd.
  - reflexivity.
  - rewrite fmap_cons in Hnd. apply NoDup_cons in Hnd as [Ha Hnd]. cbn [fst] in Ha.
    cbn [coords]. rewrite !IH by exact Hnd.
    destruct (decide (a = "lat")) as [-> | H1].
    { rewrite (bool_decide_eq_false_2 _ Ha).
      rewrite (bool_decide_eq_true_2 ("lat" ∈ (("lat", v) :: d).*1)) by elem_of_keys.
      rewrite (bool_decide_ext ("lon" ∈ (("lat", v) :: d).*1) ("lon" ∈ d.*1))
        by elem_of_keys.
      now rewrite coordinate_cons_eq, coordinate_cons_ne by discriminate. }
    destruct (decide (a = "lon")) as [-> | H2].
    { rewrite (bool_decide_eq_false_2 _ Ha).
      rewrite (bool_decide_eq_true_2 ("lon" ∈ (("lon", v) :: d).*1)) by elem_of_keys.
      rewrite (bool_decide_ext ("lat" ∈ (("lon", v) :: d).*1) ("lat" ∈ d.*1))
        by elem_of_keys.
      now rewrite coordinate_cons_eq, coordinate_cons_ne by discriminate. }
    rewrite (bool_decide_ext ("lat" ∈ ((a, v) :: d).*1) ("lat" ∈ d.*1))
      by elem_of_keys.
    rewrite (bool_decide_ext ("lon" ∈ ((a, v) :: d).*1) ("lon" ∈ d.*1))
      by elem_of_keys.
    now rewrite !coordinate_cons_ne by assumption.
Qed.

Lemma shape_attr_float_ok a v nd nd' :
  shape_attr float (a, v) nd = Ok nd' -> a ∈ ["lat"; "lon"] -> is_Some (float v).
Proof.
  intros H Ha. unfold shape_attr in H. cbn [fst snd] in H.
  destruct (bool_decide (a ∈ CREATED)) eqn:Hc.
  { apply bool_decide_eq_true, created_not_lat_lon in Hc.
    apply lat_lon_cases in Ha. tauto. }
  rewrite bool_decide_eq_true_2 in H by exact Ha.
  destruct (float v); [eauto | discriminate].
Qed.

Lemma attrs_float_ok d nd nd' a v :
  for_each (shape_attr float) d nd = Ok nd' ->
  In (a, v) d -> a ∈ ["lat"; "lon"] -> is_Some (float v).
Proof.
  revert nd. induction d as [|item d IH]; intros nd; simpl; [tauto|].
  intros (nd1 & H1 & H)%bind_Ok [-> | Hin] Ha.
  - eapply shape_attr_float_ok; eauto.
  - eapply IH; eauto.
Qed.

Lemma snapshot_lookup (st : @shaping pyfloat) key :
  snapshot st !! key =
    (fun s => match s with Own v => v | AddressObj => VDict (address st) end)
      <$> node st !! key.
Proof. unfold snapshot. apply lookup_fmap. Qed.

(** What [shape_element] returns for a node or a way. *)
Lemma shape_element_Some e d :
  shape_element float e = Ok (Some d) ->
  exists nd1 st nd3,
    for_each (shape_attr float) (attrib e) {["type" := Own (VStr (tag e))]} = Ok nd1 /\
    for_each shape_tag (iter "tag" e) (mkShaping nd1 ∅) = Ok st /\
    for_each shape_nd (iter "nd" e) (node st) = Ok nd3 /\
    d = snapshot (mkShaping nd3 (address st)).
Proof.
  unfold shape_element, shape_tags. destruct (decide _); [|discriminate].
  intros (st & (nd1 & H1 & H2)%bind_Ok & (nd3 & H3 & [= <-])%bind_Ok)%bind_Ok.
  eauto 10.
Qed.

(** C2, as amended: for a node or way without an attribute or a tag named
    pos, the field [pos] is present exactly when one of the attributes lat
    and lon is; it is then a list of two slots, the float read from lat (None
    without lat) and the float read from lon (None without lon). *)
Theorem pos_field (e : Element) (d : gmap string (value pyfloat)) :
  shape_element float e = Ok (Some d) ->
  NoDup (attrib e).*1 ->
  "pos" ∉ (attrib e).*1 ->
  (forall t, In t (iter "tag" e) -> getitem (attrib t) "k" <> Ok "pos") ->
  d !! "pos" = expected_pos float (attrib e) /\
  forall a v, a ∈ ["lat"; "lon"] -> getitem (attrib e) a = Ok v -> is_Some (float v).
Proof.
  intros (nd1 & st & nd3 & H1 & H2 & H3 & ->)%shape_element_Some Hnd Hpos Htags.
  split.
  - rewrite snapshot_lookup. cbn [node address].
    rewrite (shape_nds_frame _ _ _ _ H3) by discriminate.
    rewrite (shape_tags_node_frame _ _ _ _ H2) by (auto; discriminate).
    cbn [node].
    rewrite (attrs_pos _ _ _ false VNone VNone H1 Hpos) by (auto; apply lookup_singleton_ne; discriminate).
    rewrite seen_spec, coords_lookup by exact Hnd. unfold expected_pos, pos_slot.
    cbn [orb fst snd].
    destruct (bool_decide ("lat" ∈ (attrib e).*1)) eqn:Hla;
      destruct (bool_decide ("lon" ∈ (attrib e).*1)) eqn:Hlo; cbn [orb fmap option_fmap option_map]; try reflexivity.
    + unfold coordinate.
      rewrite (getitem_absent (attrib e) "lon")
        by (now apply bool_decide_eq_false in Hlo).
      reflexivity.
    + unfold coordinate.
      rewrite (getitem_absent (attrib e) "lat")
        by (now apply bool_decide_eq_false in Hla).
      reflexivity.
  - intros a v Ha Hv. apply getitem_In in Hv. eapply attrs_float_ok; eauto.
Qed.

End Pos.

(** ** The pipeline driver *)

Section Driver.

Context {pyfloat : Type} (float : string -> option pyfloat).

Lemma process_map_from_app es1 es2 (data : list (gmap string (value pyfloat))) :
  process_map_from float (es1 ++ es2) data =
    match outcome (process_map_from float es1 data) with
    | Ok data' => process_map_from float es2 data'
    | Raise _ => process_map_from float es1 data
    end.
Proof.
  revert data. induction es1 as [|e es1 IH]; intros data; simpl; [reflexivity|].
  destruct (shape_element float e) as [[el|]|err]; simpl; auto.
  destruct (decide (el = ∅)); apply IH.
Qed.

(** A run that returns has written what it returns. *)
Lemma process_map_from_written es (data data' : list (gmap string (value pyfloat))) :
  outcome (process_map_from float es data) = Ok data' ->
  written (process_map_from float es data) = data'.
Proof.
  revert data. induction es as [|e es IH]; intros data; simpl.
  - now intros [= <-].
  - destruct (shape_element float e) as [[el|]|err]; simpl; auto; [|discriminate].
    destruct (decide (el = ∅)); apply IH.
Qed.

Lemma unreadable_coordinate_raises e a v :
  tag e = "node" \/ tag e = "way" ->
  In (a, v) (attrib e) -> a ∈ ["lat"; "lon"] -> float v = None ->
  exists err, shape_element float e = Raise err.
Proof.
  intros Htag Hin Ha Hv. unfold shape_element, shape_tags.
  destruct (decide _) as [_|]; [|contradiction].
  destruct (for_each (shape_attr float) (attrib e) _) as [nd1|err] eqn:H1.
  - destruct (attrs_float_ok float _ _ _ _ _ H1 Hin Ha) as [x Hx]. congruence.
  - exists err. reflexivity.
Qed.

(** C5, as amended: when a node or way carries a lat or lon attribute that
    [float] does not read, [shape_element] raises, and [process_map] ends
    with that exception: it returns no data, the elements after it are not
    shaped, and the output file holds the documents of the elements before
    it only. *)
Theorem unreadable_coordinate_aborts (es1 es2 : list Element) (e : Element)
    (a v : string) (data : list (gmap string (value pyfloat))) :
  tag e = "node" \/ tag e = "way" ->
  In (a, v) (attrib e) -> a ∈ ["lat"; "lon"] -> float v = None ->
  outcome (process_map float es1) = Ok data ->
  exists err,
    shape_element float e = Raise err /\
    process_map float (es1 ++ e :: es2) = mkRun data (Raise err).
Proof.
  intros Htag Hin Ha Hv H1.
  destruct (unreadable_coordinate_raises e a v Htag Hin Ha Hv) as [err Herr].
  exists err. split; [exact Herr|].
  unfold process_map in *. rewrite process_map_from_app, H1. simpl.
  now rewrite Herr.
Qed.

End Driver.

(** ** Searching with the other patterns *)

Lemma any_suffix_false P a :
  any_suffix P a = false <-> forall x y, a = x ++ y -> P y = false.
Proof.
  induction a as [|c a IH]; simpl.
  - rewrite orb_false_r. split.
    + intros H x y Hxy. symmetry in Hxy. apply app_eq_nil in Hxy as [_ ->]. exact H.
    + intros H. now apply (H [] []).
  - rewrite orb_false_iff, IH. split.
    + intros [H0 H] [|c' x] y Hxy; simpl in Hxy.
      * now subst y.
      * injection Hxy as _ Hxy. now apply (H x).
    + intros H. split; [now apply (H [])|].
      intros x y ->. now apply (H (c :: x)).
Qed.

(** A pattern whose match at a position depends on the text ahead only. *)
Lemma found_search r (P : text -> bool) s :
  (forall b a, match_at r (b, a) = None <-> P a = false) ->
  found (search r s) = any_suffix P (to_text s).
Proof.
  intros HP. unfold search.
  destruct (any_suffix P (to_text s)) eqn:Hany.
  - destruct (scan r [] (to_text s)) as [[p q]|] eqn:Hscan; [reflexivity|].
    exfalso. rewrite scan_None in Hscan.
    assert (any_suffix P (to_text s) = false); [|congruence].
    apply any_suffix_false. intros x y Hxy. apply (HP (rev x ++ [])). now apply Hscan.
  - assert (scan r [] (to_text s) = None) as ->; [|reflexivity].
    apply scan_None. intros x y Hxy. apply HP.
    rewrite any_suffix_false in Hany. now apply (Hany x).
Qed.

Lemma five_digits_match_at b a :
  match_at five_digits (b, a) = None <-> digit_run5 a = false.
Proof.
  unfold match_at, five_digits.
  destruct a as [|c1 [|c2 [|c3 [|c4 [|c5 a]]]]]; simpl;
    repeat match goal with
           | |- context [is_digit ?c] => destruct (is_digit c); simpl
           end; split; congruence.
Qed.

Lemma five_digits_found s :
  found (search five_digits s) = has_digit_run5 s.
Proof. apply found_search, five_digits_match_at. Qed.

Lemma any_suffix_head cls a : any_suffix (head_is cls) a = existsb cls a.
Proof. induction a as [|c a IH]; simpl; [reflexivity | now rewrite IH]. Qed.

Lemma problemchars_match_at b a :
  match_at problemchars (b, a) = None <-> head_is is_problemchar a = false.
Proof.
  unfold match_at, problemchars. destruct a as [|c a]; simpl; [tauto|].
  destruct (is_problemchar c); simpl; split; congruence.
Qed.

Lemma problemchars_found s :
  found (search problemchars s) = has_problemchar s.
Proof.
  unfold has_problemchar. rewrite <- any_suffix_head.
  apply found_search, problemchars_match_at.
Qed.

(** ** Strings as texts *)

Lemma to_text_append s1 s2 : to_text (s1 +:+ s2) = to_text s1 ++ to_text s2.
Proof.
  induction s1 as [|c s1 IH]; [reflexivity|].
  change (c :: to_text (s1 +:+ s2) = c :: to_text s1 ++ to_text s2).
  now rewrite IH.
Qed.

Lemma of_text_app t1 t2 : of_text (t1 ++ t2) = of_text t1 +:+ of_text t2.
Proof.
  induction t1 as [|c t1 IH]; [reflexivity|].
  change (String c (of_text (t1 ++ t2)) = String c (of_text t1 +:+ of_text t2)).
  now rewrite IH.
Qed.

Lemma to_text_inj s1 s2 : to_text s1 = to_text s2 -> s1 = s2.
Proof. intros H. now rewrite <- (of_to_text s1), H, of_to_text. Qed.

Lemma is_code_eq n c : is_code n c = true -> c = ascii_of_N n.
Proof.
  unfold is_code, code. intros H%N.eqb_eq.
  now rewrite <- (ascii_N_embedding c), H.
Qed.

(** ** Key shapes *)

Lemma lower_colon_match_at b a :
  match_at lower_colon (b, a) <> None <->
  b = [] /\ exists x y rest, a = x ++ ":"%char :: y ++ rest /\
    forallb is_lower_us x = true /\ forallb is_lower_us y = true /\
    at_eol rest = true.
Proof.
  rewrite match_at_None. unfold lower_colon. split.
  - intros Hne. destruct (ends _ (b, a)) as [|q l] eqn:He; [congruence|].
    assert (In q (ends (Seq Bol
      (Seq (Star (Alt (Chr is_lower) (Chr is_underscore)))
         (Seq (Chr (is_code 58))
            (Seq (Star (Alt (Chr is_lower) (Chr is_underscore))) Eol)))) (b, a)))
      as Hq by (rewrite He; now left).
    clear He Hne.
    apply in_ends_seq in Hq as (m1 & [Hb ->]%in_ends_bol & Hq). simpl in Hb. subst b.
    apply in_ends_seq in Hq as (m2 & H2%in_ends_star & Hq).
    apply (star_path_one_char _ _ _ _ _ (one_char_alt _ _)) in H2
      as (x & y0 & -> & Hx & ->).
    apply in_ends_seq in Hq as (m3 & (c & y1 & Hy0 & Hc & ->)%in_ends_chr & Hq).
    simpl in Hy0. subst y0. apply is_code_eq in Hc. subst c.
    apply in_ends_seq in Hq as (m4 & H4%in_ends_star & Hq).
    apply (star_path_one_char _ _ _ _ _ (one_char_alt _ _)) in H4
      as (y & rest & -> & Hy & ->).
    apply in_ends_eol in Hq as [He _]. simpl in He.
    split; [reflexivity|]. exists x, y, rest. auto.
  - intros (-> & x & y & rest & -> & Hx & Hy & He) Hnil.
    assert (In (rev y ++ ":"%char :: rev x ++ [], rest)
      (ends (Seq Bol
      (Seq (Star (Alt (Chr is_lower) (Chr is_underscore)))
         (Seq (Chr (is_code 58))
            (Seq (Star (Alt (Chr is_lower) (Chr is_underscore))) Eol))))
        ([], x ++ ":"%char :: y ++ rest))) as Hin; [|rewrite Hnil in Hin; destruct Hin].
    apply in_ends_seq. exists ([], x ++ ":"%char :: y ++ rest).
    split; [now apply in_ends_bol|].
    apply in_ends_seq. exists (rev x ++ [], ":"%char :: y ++ rest). split.
    { apply in_ends_star, (star_path_one_char _ _ _ _ _ (one_char_alt _ _)). eauto. }
    apply in_ends_seq. exists (":"%char :: rev x ++ [], y ++ rest). split.
    { apply in_ends_chr. exists ":"%char, (y ++ rest). auto. }
    apply in_ends_seq. exists (rev y ++ ":"%char :: rev x ++ [], rest). split.
    { apply in_ends_star, (star_path_one_char _ _ _ _ _ (one_char_alt _ _)). eauto. }
    now apply in_ends_eol.
Qed.

Lemma found_true_iff r s :
  found (search r s) = true <-> scan r [] (to_text s) <> None.
Proof.
  unfold search. destruct (scan r [] (to_text s)) as [[p q]|]; simpl; split;
    congruence.
Qed.

Lemma scan_anchored r a :
  (forall b y, match_at r (b, y) <> None -> b = []) ->
  scan r [] a <> None <-> match_at r ([], a) <> None.
Proof.
  intros Hanch. split.
  - intros H Hm. apply H. apply scan_None. intros x y ->.
    destruct (match_at r (rev x ++ [], y)) eqn:Hxy; [|reflexivity].
    assert (rev x ++ [] = []) as Hx by (apply (Hanch _ y); congruence).
    rewrite app_nil_r in Hx. apply (f_equal (@rev ascii)) in Hx.
    rewrite rev_involutive in Hx. simpl in Hx. subst x. simpl in *. congruence.
  - intros H Hs. rewrite scan_None in Hs. apply H. now apply (Hs [] a).
Qed.

Lemma lower_colon_found k :
  found (search lower_colon k) = true <->
  exists x y rest, to_text k = x ++ ":"%char :: y ++ rest /\
    forallb is_lower_us x = true /\ forallb is_lower_us y = true /\
    at_eol rest = true.
Proof.
  rewrite found_true_iff, scan_anchored.
  - rewrite lower_colon_match_at. split; [intros [_ H]; exact H | auto].
  - intros b y H. now apply lower_colon_match_at in H as [-> _].
Qed.

Lemma newline_is_problemchar c : is_code 10 c = true -> is_problemchar c = true.
Proof. intros ->%is_code_eq. reflexivity. Qed.

Lemma lower_us_not_colon c : is_lower_us c = true -> c <> ":"%char.
Proof. intros H ->. discriminate. Qed.

(** C7, first part: among keys without a problem character, the pattern
    [lower_colon] finds exactly the keys of two lowercase segments around
    one colon. *)
Lemma lower_colon_shape k :
  has_problemchar k = false ->
  found (search lower_colon k) = true <-> lower_colon_shaped k.
Proof.
  intros Hp. rewrite lower_colon_found. unfold lower_colon_shaped, lowercase. split.
  - intros (x & y & rest & Hk & Hx & Hy & He).
    assert (rest = []) as ->.
    { apply at_eol_cases in He as [He | (c & -> & Hc)]; [exact He|].
      apply newline_is_problemchar in Hc. unfold has_problemchar in Hp.
      rewrite Hk, existsb_app in Hp. simpl in Hp. rewrite existsb_app in Hp.
      simpl in Hp. rewrite Hc in Hp.
      rewrite !orb_true_r in Hp. discriminate. }
    rewrite app_nil_r in Hk. exists (of_text x), (of_text y).
    rewrite !to_of_text. repeat split; auto.
    apply to_text_inj. now rewrite Hk, !to_text_append, !to_of_text.
  - intros (ns & sub & -> & Hns & Hsub).
    exists (to_text ns), (to_text sub), []. rewrite app_nil_r, !to_text_append.
    repeat split; auto.
Qed.

(** ** [split], [find] and the classifier's categories *)

Lemma append_cons c s1 s2 : String c s1 +:+ s2 = String c (s1 +:+ s2).
Proof. reflexivity. Qed.

Lemma split1_colon ns sub :
  lowercase ns = true -> split1 ":" (ns +:+ ":" +:+ sub) = [ns; sub].
Proof.
  unfold lowercase. induction ns as [|c ns IH]; intros H.
  - reflexivity.
  - change (to_text (String c ns)) with (c :: to_text ns) in H. simpl in H.
    apply andb_true_iff in H as [Hc H]. apply lower_us_not_colon in Hc.
    rewrite append_cons. cbn [split1].
    destruct (decide (c = ":"%char)); [contradiction|]. now rewrite IH.
Qed.

Lemma find_from_range sub s i :
  (0 <= i)%Z -> find_from sub s i = (-1)%Z \/ (i <= find_from sub s i)%Z.
Proof.
  revert i. induction s as [|c s IH]; intros i Hi; cbn [find_from].
  - destruct (String.prefix sub ""); [right; lia | now left].
  - destruct (String.prefix sub (String c s)); [right; lia|].
    destruct (IH (i + 1)%Z ltac:(lia)) as [-> | H]; [now left | right; lia].
Qed.

(** [s.find(sub) == 0] says that [s] starts with [sub]. *)
Lemma find_zero s sub : find s sub = 0%Z <-> String.prefix sub s = true.
Proof.
  unfold find. destruct s as [|c s]; cbn [find_from].
  - destruct (String.prefix sub ""); split; congruence.
  - destruct (String.prefix sub (String c s)); [tauto|].
    destruct (find_from_range sub s (0 + 1) ltac:(lia)) as [-> | H]; split;
      try discriminate; lia.
Qed.

Lemma prefix_empty s : String.prefix "" s = true.
Proof. now destruct s. Qed.

Lemma prefix_cons a s1 b s2 :
  String.prefix (String a s1) (String b s2)
  = if ascii_dec a b then String.prefix s1 s2 else false.
Proof. reflexivity. Qed.

Lemma prefix_nil_r a s1 : String.prefix (String a s1) "" = false.
Proof. reflexivity. Qed.

Lemma find_from_colon s i :
  (0 <= i)%Z -> find_from ":" s i = (-1)%Z <-> ~ In ":"%char (to_text s).
Proof.
  revert i. induction s as [|c s IH]; intros i Hi.
  - simpl. tauto.
  - cbn [find_from].
    change (String.prefix ":" (String c s))
      with (if ascii_dec ":" c then String.prefix "" s else false).
    change (to_text (String c s)) with (c :: to_text s).
    destruct (ascii_dec ":" c) as [<- | Hc].
    + rewrite prefix_empty. split; [lia | intros H; exfalso; apply H; now left].
    + rewrite IH by lia. simpl. split; [intros H [?|?]; auto | tauto].
Qed.

(** [s.find(':') == -1] says that [s] holds no colon. *)
Lemma find_colon s : find s ":" = (-1)%Z <-> ~ In ":"%char (to_text s).
Proof. unfold find. now apply find_from_colon. Qed.

(** The namespace of a key [ns:sub] starts with addr when the key does. *)
Lemma prefix_addr_namespace ns sub :
  String.prefix "addr" (ns +:+ ":" +:+ sub) = String.prefix "addr" ns.
Proof.
  destruct ns as [|c1 [|c2 [|c3 [|c4 ns]]]];
    rewrite ?append_cons; change ("" +:+ ":" +:+ sub) with (String ":" sub);
    rewrite ?prefix_cons, ?prefix_nil_r;
    repeat match goal with
           | |- context [ascii_dec ?a ?b] =>
               destruct (ascii_dec a b); try discriminate
           end;
    rewrite ?prefix_empty; reflexivity.
Qed.

Lemma key_type_category element keys :
  key_type element keys =
    if decide (tag element = "tag") then
      k ← getitem (attrib element) "k"; increment keys (key_category k)
    else Ok keys.
Proof.
  unfold key_type, key_category. destruct (decide _); [|reflexivity].
  destruct (getitem (attrib element) "k") as [k|]; simpl; [|reflexivity].
  destruct (found (search lower k)); [reflexivity|].
  destruct (found (search lower_colon k)); [reflexivity|].
  now destruct (found (search problemchars k)).
Qed.

Lemma key_category_other k :
  key_category k = "other" ->
  found (search lower k) = false /\ found (search lower_colon k) = false /\
  found (search problemchars k) = false.
Proof.
  unfold key_category.
  destruct (found (search lower k)); [discriminate|].
  destruct (found (search lower_colon k)); [discriminate|].
  destruct (found (search problemchars k)); [discriminate | auto].
Qed.

(** ** The shaper: which tags reach the document *)

Section Tags.

Context {pyfloat : Type}.

Implicit Types (st : @shaping pyfloat).

(** Dropping a tag that changes no attached state changes no result of the
    tag loop. *)
Lemma drop_tag (t : Element) ts1 ts2 nd1 :
  (forall st, attached st -> shape_tag t st = Ok st) ->
  for_each shape_tag (ts1 ++ t :: ts2) (mkShaping nd1 (∅ : gmap string (value pyfloat)))
  = for_each shape_tag (ts1 ++ ts2) (mkShaping nd1 ∅).
Proof.
  intros Ht. rewrite !for_each_app.
  destruct (for_each shape_tag ts1 _) as [st1|err] eqn:H1; [|reflexivity].
  simpl. rewrite Ht; [reflexivity|].
  apply (shape_tags_attached _ _ _ H1). intros H. now destruct H.
Qed.

(** C6, the shaper's half: a tag whose key holds a problem character leaves
    the state as it is, so the tag loop gives the same result without it. *)
Lemma problemchar_tag_dropped (t : Element) (k : string) :
  getitem (attrib t) "k" = Ok k -> has_problemchar k = true ->
  (forall st, shape_tag t st = Ok st) /\
  (forall ts1 ts2 st,
     for_each shape_tag (ts1 ++ t :: ts2) st = for_each shape_tag (ts1 ++ ts2) st).
Proof.
  intros Hk Hp.
  assert (forall st, shape_tag t st = Ok st) as Ht.
  { intros st. apply shape_tag_problem with k; auto. now rewrite problemchars_found. }
  split; [exact Ht|]. intros ts1 ts2 st. rewrite !for_each_app.
  destruct (for_each shape_tag ts1 st) as [st1|err]; [|reflexivity].
  simpl. now rewrite Ht.
Qed.

(** C8, as amended: a tag whose key the classifier counts as other is dropped
    without error when the key holds a colon (the tag loop gives the same
    result without the tag), and is stored as a top-level field under its raw
    key when the key holds none. *)
Theorem other_key_tags (t : Element) (st : @shaping pyfloat) (k v : string) :
  getitem (attrib t) "k" = Ok k -> getitem (attrib t) "v" = Ok v ->
  key_category k = "other" ->
  (In ":"%char (to_text k) ->
     shape_tag t st = Ok (attach_address st) /\
     forall ts1 ts2 nd1,
       for_each shape_tag (ts1 ++ t :: ts2)
         (mkShaping nd1 (∅ : gmap string (value pyfloat)))
       = for_each shape_tag (ts1 ++ ts2) (mkShaping nd1 ∅)) /\
  (~ In ":"%char (to_text k) ->
     shape_tag t st
     = Ok (attach_address (mkShaping (<[k := Own (VStr v)]> (node st)) (address st)))).
Proof.
  intros Hk Hv (_ & Hlc & Hp)%key_category_other.
  assert (forall st0 : @shaping pyfloat, shape_tag t st0 =
            if decide (find k ":" = (-1)%Z)
            then Ok (attach_address
                       (mkShaping (<[k := Own (VStr v)]> (node st0)) (address st0)))
            else Ok (attach_address st0)) as Hstep.
  { intros st0. unfold shape_tag. rewrite Hk. simpl. rewrite Hp, Hlc.
    destruct (decide _); [now rewrite Hv | reflexivity]. }
  split.
  - intros Hcolon.
    assert (find k ":" <> (-1)%Z) as Hf by (rewrite find_colon; tauto).
    assert (forall st0 : @shaping pyfloat,
              shape_tag t st0 = Ok (attach_address st0)) as Hdrop.
    { intros st0. rewrite Hstep. now destruct (decide _). }
    split; [apply Hdrop|]. intros ts1 ts2 nd1. apply drop_tag.
    intros st0 Hatt. now rewrite Hdrop, attach_address_id.
  - intros Hcolon. apply find_colon in Hcolon. rewrite Hstep.
    now destruct (decide _).
Qed.

(** C7, as amended: a tag without a problem character in its key goes to the
    address branch exactly when its key has the shape of [lower_colon] and
    begins with the letters addr (so does a key such as addressbook:x): the
    branch writes no top-level field under the raw key and, for a key other
    than addr:street and addr:postcode, stores the value in [address] under
    the text after the colon.  A key of that shape that does not begin with
    addr is stored as a top-level field under the raw key, and a key of
    another shape never changes [address]. *)
Theorem address_routing (t : Element) (st : @shaping pyfloat) (k v : string) :
  getitem (attrib t) "k" = Ok k -> getitem (attrib t) "v" = Ok v ->
  has_problemchar k = false ->
  (forall ns sub, k = ns +:+ ":" +:+ sub ->
     lowercase ns = true -> lowercase sub = true ->
     (String.prefix "addr" ns = true ->
        (forall st', shape_tag t st = Ok st' -> node st' !! k = node st !! k) /\
        (k <> "addr:street" -> k <> "addr:postcode" ->
           shape_tag t st
           = Ok (attach_address
                   (mkShaping (init_key "address" (VDict ∅) (node st))
                      (<[sub := VStr v]> (address st)))))) /\
     (String.prefix "addr" ns = false ->
        shape_tag t st
        = Ok (attach_address
                (mkShaping (<[k := Own (VStr v)]> (node st)) (address st))))) /\
  (~ lower_colon_shaped k ->
     forall st', shape_tag t st = Ok st' -> address st' = address st).
Proof.
  intros Hk Hv Hp.
  assert (shape_tag t st =
            st1 ← (if found (search lower_colon k) then
                     if decide (find k "addr" = 0%Z) then shape_addr_tag t k st
                     else Ok (mkShaping (<[k := Own (VStr v)]> (node st)) (address st))
                   else if decide (find k ":" = (-1)%Z) then
                     Ok (mkShaping (<[k := Own (VStr v)]> (node st)) (address st))
                   else Ok st);
            Ok (attach_address st1)) as Hstep.
  { unfold shape_tag. rewrite Hk. simpl. rewrite problemchars_found, Hp, Hv.
    reflexivity. }
  split.
  - intros ns sub Hshape Hns Hsub.
    assert (found (search lower_colon k) = true) as Hlc.
    { apply lower_colon_shape; [exact Hp|]. exists ns, sub. auto. }
    assert (String.prefix "addr" k = String.prefix "addr" ns) as Hpre
      by (rewrite Hshape; apply prefix_addr_namespace).
    assert (k <> "address") as Hka.
    { intros ->. apply (f_equal to_text) in Hshape.
      rewrite !to_text_append in Hshape.
      assert (In ":"%char (to_text "address")) as Hin
        by (rewrite Hshape; apply in_or_app; right; now left).
      simpl in Hin. intuition discriminate. }
    rewrite Hlc in Hstep. split.
    + intros Haddr. rewrite <- Hpre in Haddr. apply find_zero in Haddr.
      destruct (decide (find k "addr" = 0%Z)); [|contradiction]. split.
      * intros st'. rewrite Hstep. intros (st1 & H1 & [= <-])%bind_Ok.
        apply shape_addr_tag_node in H1.
        rewrite attach_address_node_ne, H1 by exact Hka. now apply init_key_ne.
      * intros Hstreet Hpost. rewrite Hstep.
        unfold shape_addr_tag, is_street_name, is_postal_code. rewrite Hk. simpl.
        rewrite !bool_decide_eq_false_2 by assumption. rewrite Hv. simpl.
        rewrite Hshape, split1_colon by exact Hns. reflexivity.
    + intros Haddr. rewrite <- Hpre in Haddr.
      destruct (decide (find k "addr" = 0%Z)) as [Hf|_].
      { apply find_zero in Hf. congruence. }
      now rewrite Hstep.
  - intros Hshaped st'.
    assert (found (search lower_colon k) = false) as Hlc.
    { destruct (found (search lower_colon k)) eqn:Hlc; [|reflexivity].
      exfalso. apply Hshaped. now apply lower_colon_shape. }
    rewrite Hstep, Hlc.
    destruct (decide (find k ":" = (-1)%Z)); simpl; intros [= <-];
      now rewrite attach_address_address.
Qed.

(** C3, as amended: a postal-code value without a run of five digits is
    extracted to the empty string, and that string is stored: in the shaped
    document the sub-document [address] holds [postcode], bound to the empty
    string, when no later tag writes that sub-key.  In CA 95014-1234 the
    extraction finds the run 95014, which it returns in a list. *)
Theorem postcode_without_digits (float : string -> option pyfloat)
    (e : Element) (d : gmap string (value pyfloat))
    (ts1 ts2 : list Element) (t : Element) (v : string) :
  shape_element float e = Ok (Some d) ->
  iter "tag" e = ts1 ++ t :: ts2 ->
  getitem (attrib t) "k" = Ok "addr:postcode" ->
  getitem (attrib t) "v" = Ok v ->
  has_digit_run5 v = false ->
  (forall t' k', In t' ts2 -> getitem (attrib t') "k" = Ok k' ->
     index (split1 ":" k') 1 <> Ok "postcode") ->
  @update_zip_code pyfloat "CA 95014-1234" = VList [VStr "95014"] /\
  @update_zip_code pyfloat v = VStr "" /\
  exists address : gmap string (value pyfloat),
    d !! "address" = Some (VDict address) /\
    address !! "postcode" = Some (VStr "").
Proof.
  intros (nd1 & st & nd3 & H1 & H2 & H3 & ->)%shape_element_Some Hts Hk Hv Hrun Hlater.
  assert (@update_zip_code pyfloat v = VStr "") as Hzip.
  { unfold update_zip_code. now rewrite five_digits_found, Hrun. }
  split; [vm_compute; reflexivity|]. split; [exact Hzip|].
  rewrite Hts, for_each_app in H2.
  apply bind_Ok in H2 as (sta & Ha & H2). cbn [for_each] in H2.
  apply bind_Ok in H2 as (stb & Hb & H2).
  assert (address stb !! "postcode" = Some (VStr "") /\ attached stb) as [Hpc Hatt].
  { unfold shape_tag in Hb. rewrite Hk in Hb. simpl in Hb.
    apply bind_Ok in Hb as (st1 & Hb & [= <-]).
    unfold shape_addr_tag, is_street_name, is_postal_code in Hb.
    rewrite Hk in Hb. simpl in Hb. rewrite Hv in Hb. injection Hb as <-.
    split; [|apply attach_address_attached].
    rewrite attach_address_address. cbn [address].
    now rewrite lookup_insert_eq, Hzip. }
  exists (address st). split.
  - rewrite snapshot_lookup. cbn [node address].
    rewrite (shape_nds_frame _ _ _ _ H3) by discriminate.
    assert (address st <> ∅) as Hne.
    { apply (shape_tags_nonempty _ _ _ H2). intros He. rewrite He in Hpc.
      now rewrite lookup_empty in Hpc. }
    now rewrite (shape_tags_attached _ _ _ H2 Hatt Hne).
  - rewrite (shape_tags_address_frame _ _ _ "postcode" H2); [exact Hpc | |exact Hlater].
    unfold override_keys. intros Hin. elem_of_keys.
Qed.

End Tags.

(** ** The classifier on keys with a problem character *)

Lemma lower_match_at b a :
  match_at lower (b, a) <> None <->
  b = [] /\ exists x rest, a = x ++ rest /\
    forallb is_lower_us x = true /\ at_eol rest = true.
Proof.
  rewrite match_at_None. unfold lower. split.
  - intros Hne. destruct (ends _ (b, a)) as [|q l] eqn:He; [congruence|].
    assert (In q (ends (Seq Bol
      (Seq (Star (Alt (Chr is_lower) (Chr is_underscore))) Eol)) (b, a)))
      as Hq by (rewrite He; now left).
    clear He Hne.
    apply in_ends_seq in Hq as (m1 & [Hb ->]%in_ends_bol & Hq). simpl in Hb. subst b.
    apply in_ends_seq in Hq as (m2 & H2%in_ends_star & Hq).
    apply (star_path_one_char _ _ _ _ _ (one_char_alt _ _)) in H2
      as (x & rest & -> & Hx & ->).
    apply in_ends_eol in Hq as [He _]. simpl in He.
    split; [reflexivity|]. exists x, rest. auto.
  - intros (-> & x & rest & -> & Hx & He) Hnil.
    assert (In (rev x ++ [], rest)
      (ends (Seq Bol (Seq (Star (Alt (Chr is_lower) (Chr is_underscore))) Eol))
        ([], x ++ rest))) as Hin; [|rewrite Hnil in Hin; destruct Hin].
    apply in_ends_seq. exists ([], x ++ rest). split; [now apply in_ends_bol|].
    apply in_ends_seq. exists (rev x ++ [], rest). split.
    { apply in_ends_star, (star_path_one_char _ _ _ _ _ (one_char_alt _ _)). eauto. }
    now apply in_ends_eol.
Qed.

Lemma lower_found k :
  found (search lower k) = true <->
  exists x rest, to_text k = x ++ rest /\
    forallb is_lower_us x = true /\ at_eol rest = true.
Proof.
  rewrite found_true_iff, scan_anchored.
  - rewrite lower_match_at. split; [intros [_ H]; exact H | auto].
  - intros b y H. now apply lower_match_at in H as [-> _].
Qed.

Lemma lower_us_not_problemchar c : is_lower_us c = true -> is_problemchar c = false.
Proof. destruct c as [[] [] [] [] [] [] [] []]; vm_compute; congruence. Qed.

Lemma lower_us_no_problemchar x :
  forallb is_lower_us x = true -> existsb is_problemchar x = false.
Proof.
  induction x as [|c x IH]; simpl; [reflexivity|].
  intros [Hc Hx]%andb_true_iff. now rewrite (lower_us_not_problemchar c Hc), IH.
Qed.

(** C6, the classifier's half, where it holds: a key with a problem character
    that does not end in a newline is counted under problemchars. *)
Lemma key_category_problemchars k :
  has_problemchar k = true ->
  (forall k0, k <> k0 +:+ String newline "") ->
  key_category k = "problemchars".
Proof.
  intros Hp Hnl. unfold key_category.
  assert (forall x rest, to_text k = x ++ rest -> at_eol rest = true -> rest = [])
    as Hrest.
  { intros x rest Hk [-> | (c & -> & Hc)]%at_eol_cases; [reflexivity|].
    exfalso. apply (Hnl (of_text x)). apply to_text_inj.
    rewrite Hk, to_text_append, to_of_text. apply is_code_eq in Hc. now subst c. }
  destruct (found (search lower k)) eqn:Hl.
  { exfalso. apply lower_found in Hl as (x & rest & Hk & Hx & He).
    rewrite (Hrest x rest Hk He), app_nil_r in Hk.
    unfold has_problemchar in Hp. rewrite Hk, lower_us_no_problemchar in Hp by exact Hx.
    discriminate. }
  destruct (found (search lower_colon k)) eqn:Hlc.
  { exfalso. apply lower_colon_found in Hlc as (x & y & rest & Hk & Hx & Hy & He).
    assert (rest = []) as ->.
    { apply (Hrest (x ++ ":"%char :: y)); [now rewrite <- app_assoc | exact He]. }
    rewrite app_nil_r in Hk. unfold has_problemchar in Hp.
    rewrite Hk, existsb_app in Hp. simpl in Hp.
    rewrite !lower_us_no_problemchar in Hp by assumption. discriminate. }
  now rewrite problemchars_found, Hp.
Qed.

(** ** The field [address] *)

(** C4, where it holds: once the tag loop has put a field in [address], the
    shaped document binds [address] to that dictionary. *)
Lemma address_field {pyfloat : Type} (float : string -> option pyfloat)
    (e : Element) (st : @shaping pyfloat) (d : gmap string (value pyfloat)) :
  shape_tags float e = Ok st -> shape_element float e = Ok (Some d) ->
  address st <> ∅ -> d !! "address" = Some (VDict (address st)).
Proof.
  intros Hst (nd1 & st' & nd3 & H1 & H2 & H3 & ->)%shape_element_Some Hne.
  unfold shape_tags in Hst. rewrite H1 in Hst. simpl in Hst.
  rewrite H2 in Hst. injection Hst as ->.
  rewrite snapshot_lookup. cbn [node address].
  rewrite (shape_nds_frame _ _ _ _ H3) by discriminate.
  assert (attached st) as Hatt.
  { apply (shape_tags_attached _ _ _ H2). intros H. now destruct H. }
  now rewrite (Hatt Hne).
Qed.

(** ** Attributes that collide with the shaper's own keys *)

Section Collisions.

Context {pyfloat : Type} (float : string -> option pyfloat).

Lemma attrs_frame d (nd nd' : gmap string (@slot pyfloat)) key :
  for_each (shape_attr float) d nd = Ok nd' ->
  key <> "created" -> key <> "pos" -> key ∉ d.*1 ->
  nd' !! key = nd !! key.
Proof.
  revert nd. induction d as [|[a v] d IH]; intros nd; cbn [for_each].
  - now intros [= <-].
  - intros (nd1 & H1 & H)%bind_Ok Hc Hp Hk.
    rewrite fmap_cons, not_elem_of_cons in Hk. destruct Hk as [Ha Hk].
    rewrite (IH _ H Hc Hp Hk). now apply (shape_attr_frame float (a, v)).
Qed.

(** An attribute that is neither one of CREATED nor lat or lon is copied
    under its own name, the name type included. *)
Lemma attrs_plain_key d (nd nd' : gmap string (@slot pyfloat)) a v :
  for_each (shape_attr float) d nd = Ok nd' ->
  NoDup d.*1 -> In (a, v) d ->
  a ∉ CREATED -> a ∉ ["lat"; "lon"] -> a <> "created" -> a <> "pos" ->
  nd' !! a = Some (Own (VStr v)).
Proof.
  intros H Hnd Hin Hc Hl Hnc Hnp. revert nd H Hnd Hin.
  induction d as [|[a' v'] d IH]; intros nd H Hnd Hin; [destruct Hin|].
  destruct Hin as [Heq | Hin]; cbn [for_each] in H.
  - injection Heq as -> ->. apply bind_Ok in H as (nd1 & H1 & H).
    rewrite shape_attr_plain in H1 by assumption. injection H1 as <-.
    rewrite fmap_cons in Hnd. apply NoDup_cons in Hnd as [Ha _].
    rewrite (attrs_frame _ _ _ _ H Hnc Hnp Ha). apply lookup_insert_eq.
  - apply bind_Ok in H as (nd1 & H1 & H).
    rewrite fmap_cons in Hnd. apply NoDup_cons in Hnd as [_ Hnd].
    now apply (IH nd1).
Qed.

(** C10, for every element: an attribute named type, on an element without a
    tag of that key, is what the field [type] of the document holds. *)
Lemma type_attribute_wins (e : Element) (d : gmap string (value pyfloat)) v :
  shape_element float e = Ok (Some d) ->
  NoDup (attrib e).*1 -> In ("type", v) (attrib e) ->
  (forall t, In t (iter "tag" e) -> getitem (attrib t) "k" <> Ok "type") ->
  d !! "type" = Some (VStr v).
Proof.
  intros (nd1 & st & nd3 & H1 & H2 & H3 & ->)%shape_element_Some Hnd Hin Htags.
  rewrite snapshot_lookup. cbn [node address].
  rewrite (shape_nds_frame _ _ _ _ H3) by discriminate.
  rewrite (shape_tags_node_frame _ _ _ _ H2) by (auto; discriminate).
  cbn [node].
  rewrite (attrs_plain_key _ _ _ _ _ H1 Hnd Hin); [reflexivity | | | |];
    try discriminate; unfold CREATED; elem_of_keys.
Qed.

End Collisions.

(** * The claims on concrete inputs *)

Lemma shape_example_node : shape_element read_decimal example_node = Ok (Some example_doc).
Proof. vm_compute. reflexivity. Qed.

Lemma shape_way_node_refs :
  shape_element read_decimal (mkElement "way" [] [nd_elem "10"; nd_elem "20"])
  = Ok (Some {[ "type" := VStr "way";
                "node_refs" := VList [VStr "10"; VStr "20"] ]}).
Proof. vm_compute. reflexivity. Qed.

(** ** C1 *)

(** C1, at a failing input: the trailing token Foo is not expected and has no
    rule; [update_name] raises KeyError instead of returning the string, and
    so does [shape_element] on an element with that street. *)
Theorem update_name_unmapped_token_raises :
  group <$> search street_type_re "Main Foo" = Some "Foo" /\
  bool_decide ("Foo" ∈ expected_names) = false /\
  mapping_street_type !! "Foo" = None /\
  update_name "Main Foo" mapping_street_type street_type_re expected_names
  = Raise (KeyError "Foo") /\
  shape_element read_decimal
    (mkElement "node" [("id", "1")] [tag_elem "addr:street" "Main Foo"])
  = Raise (KeyError "Foo").
Proof. repeat split; vm_compute; reflexivity. Qed.

(** Whatever the string: a token that is neither expected nor a key of the
    mapping makes [update_name] raise. *)
Lemma update_name_unmapped name mapping re_string expected m :
  search re_string name = Some m ->
  group m ∉ expected -> mapping !! group m = None ->
  update_name name mapping re_string expected = Raise (KeyError (group m)).
Proof.
  intros Hs Hexp Hmap. unfold update_name. rewrite Hs. cbv zeta.
  now rewrite (bool_decide_eq_false_2 _ Hexp), Hmap.
Qed.

(** ** C2 *)

Lemma pos_with_lat_only :
  getitem [("id", "1"); ("lat", "37.3")] "lon" = Raise (KeyError "lon") /\
  shape_element read_decimal (mkElement "node" [("id", "1"); ("lat", "37.3")] [])
  = Ok (Some {[ "type" := VStr "node"; "id" := VStr "1";
                "pos" := VList [VFloat (Qmake 373 10); VNone] ]}).
Proof. split; vm_compute; reflexivity. Qed.

Lemma pos_field_witness :
  example_doc !! "pos" = expected_pos read_decimal (attrib example_node) /\
  forall a v, a ∈ ["lat"; "lon"] -> getitem (attrib example_node) a = Ok v ->
    is_Some (read_decimal v).
Proof.
  apply (pos_field read_decimal example_node example_doc).
  - vm_compute. reflexivity.
  - compute_done.
  - compute_done.
  - intros t Ht. vm_compute in Ht. destruct Ht as [<- | []]. vm_compute. discriminate.
Defined.

(** ** C3 *)

Lemma postcode_without_digits_stored :
  has_digit_run5 "none" = false /\
  shape_element read_decimal
    (mkElement "node" [("id", "1")] [tag_elem "addr:postcode" "none"])
  = Ok (Some {[ "type" := VStr "node"; "id" := VStr "1";
                "address" := VDict {[ "postcode" := VStr "" ]} ]}) /\
  @update_zip_code Q "CA 95014-1234" = VList [VStr "95014"].
Proof. repeat split; vm_compute; reflexivity. Qed.

Lemma postcode_without_digits_witness :
  @update_zip_code Q "CA 95014-1234" = VList [VStr "95014"] /\
  @update_zip_code Q "none" = VStr "" /\
  exists address : gmap string (value Q),
    ({[ "type" := VStr "node"; "id" := VStr "1"; "amenity" := VStr "cafe";
        "address" := VDict {[ "postcode" := VStr "" ]} ]}
       : gmap string (value Q)) !! "address" = Some (VDict address) /\
    address !! "postcode" = Some (VStr "").
Proof.
  apply (postcode_without_digits read_decimal
           (mkElement "node" [("id", "1")]
              [tag_elem "addr:postcode" "none"; tag_elem "amenity" "cafe"])
           _ [] [tag_elem "amenity" "cafe"] (tag_elem "addr:postcode" "none") "none").
  - vm_compute. reflexivity.
  - vm_compute. reflexivity.
  - vm_compute. reflexivity.
  - vm_compute. reflexivity.
  - vm_compute. reflexivity.
  - intros t' k' [<- | []] [= <-]. vm_compute. discriminate.
Defined.

(** ** C4 *)

(** C4, at a failing input: the only addr tag of the element is a street on
    the deny-list; the shaped document has an [address] field all the same,
    bound to an empty dictionary. *)
Theorem denied_street_leaves_empty_address :
  bool_decide ("Brunnenweg" ∈ not_to_import_list) = true /\
  shape_element read_decimal
    (mkElement "node" [("id", "1")] [tag_elem "addr:street" "Brunnenweg"])
  = Ok (Some {[ "type" := VStr "node"; "id" := VStr "1"; "address" := VDict ∅ ]}).
Proof. split; vm_compute; reflexivity. Qed.

(** ** C5 *)

Lemma unreadable_lat_ends_the_run :
  read_decimal "abc" = None /\
  process_map read_decimal [plain_node "1"; unreadable_node; plain_node "3"]
  = mkRun [plain_doc "1"] (Raise (ValueError "abc")).
Proof. split; vm_compute; reflexivity. Qed.

Lemma unreadable_coordinate_aborts_witness :
  exists err,
    shape_element read_decimal unreadable_node = Raise err /\
    process_map read_decimal ([plain_node "1"] ++ unreadable_node :: [plain_node "3"])
    = mkRun [plain_doc "1"] (Raise err).
Proof.
  apply (unreadable_coordinate_aborts read_decimal
           [plain_node "1"] [plain_node "3"] unreadable_node "lat" "abc").
  - left. reflexivity.
  - right. left. reflexivity.
  - compute_done.
  - vm_compute. reflexivity.
  - vm_compute. reflexivity.
Defined.

(** ** C6 *)

(** C6, at a failing input: the key a followed by a newline (k="a&#10;" in
    the file) holds a problem character, and [key_type] counts it as lower,
    because [$] also matches before a final newline and [lower] is tried
    first; the shaper, which tries [problemchars] first, drops the tag. *)
Theorem key_with_final_newline_counted_lower :
  let k := "a" +:+ String newline "" in
  has_problemchar k = true /\
  key_category k = "lower" /\
  key_type (tag_elem k "x") no_keys
  = Ok {["lower" := 1%Z; "lower_colon" := 0%Z; "problemchars" := 0%Z;
         "other" := 0%Z]} /\
  shape_element read_decimal (mkElement "node" [("id", "1")] [tag_elem k "x"])
  = Ok (Some {[ "type" := VStr "node"; "id" := VStr "1" ]}).
Proof. repeat split; vm_compute; reflexivity. Qed.

(** ** C7 *)

Lemma addressbook_routed_to_address :
  shape_element read_decimal
    (mkElement "node" [("id", "1")] [tag_elem "addressbook:x" "v"])
  = Ok (Some {[ "type" := VStr "node"; "id" := VStr "1";
                "address" := VDict {[ "x" := VStr "v" ]} ]}).
Proof. vm_compute. reflexivity. Qed.

Lemma address_routing_witness :
  shape_tag (tag_elem "addressbook:x" "v") start_state
  = Ok (attach_address
          (mkShaping (init_key "address" (VDict ∅) (node start_state))
             (<["x" := VStr "v"]> (address start_state)))).
Proof.
  destruct (address_routing (tag_elem "addressbook:x" "v") start_state
              "addressbook:x" "v") as [Hshape _].
  - vm_compute. reflexivity.
  - vm_compute. reflexivity.
  - vm_compute. reflexivity.
  - destruct (Hshape "addressbook" "x") as [Haddr _].
    + vm_compute. reflexivity.
    + vm_compute. reflexivity.
    + vm_compute. reflexivity.
    + destruct Haddr as [_ Hstore]; [vm_compute; reflexivity|].
      apply Hstore; discriminate.
Defined.

(** ** C8 *)

Lemma other_key_without_colon_stored :
  key_category "Name" = "other" /\
  shape_element read_decimal (mkElement "node" [("id", "1")] [tag_elem "Name" "x"])
  = Ok (Some {[ "type" := VStr "node"; "id" := VStr "1"; "Name" := VStr "x" ]}).
Proof. split; vm_compute; reflexivity. Qed.

Lemma other_key_tags_witness :
  (In ":"%char (to_text "Name") ->
     shape_tag (tag_elem "Name" "x") start_state = Ok (attach_address start_state) /\
     forall ts1 ts2 nd1,
       for_each shape_tag (ts1 ++ tag_elem "Name" "x" :: ts2)
         (mkShaping nd1 (∅ : gmap string (value Q)))
       = for_each shape_tag (ts1 ++ ts2) (mkShaping nd1 ∅)) /\
  (~ In ":"%char (to_text "Name") ->
     shape_tag (tag_elem "Name" "x") start_state
     = Ok (attach_address
             (mkShaping (<["Name" := Own (VStr "x")]> (node start_state))
                (address start_state)))).
Proof.
  apply (other_key_tags (tag_elem "Name" "x") start_state "Name" "x").
  - vm_compute. reflexivity.
  - vm_compute. reflexivity.
  - vm_compute. reflexivity.
Defined.

(** ** C10 *)

(** C10: the field [type] is not protected: an attribute named type, or a
    tag with the key type, replaces the element's tag name there, whatever
    its value. *)
Theorem type_field_overwritten {pyfloat : Type} (float : string -> option pyfloat)
    (v : string) :
  shape_element float (mkElement "node" [("type", v)] [])
  = Ok (Some {[ "type" := VStr v ]}) /\
  shape_element float (mkElement "node" [] [tag_elem "type" v])
  = Ok (Some {[ "type" := VStr v ]}).
Proof.
  split.
  - (* the attribute loop stores the attribute under the key type *)
    vm_compute. reflexivity.
  - (* the key type has no colon: the tag loop stores it under the raw key *)
    vm_compute. reflexivity.
Qed.

(** * Further properties of the code *)

Lemma key_counts_lookup a b c d k :
  key_counts a b c d !! k =
    if decide (k = "lower") then Some a
    else if decide (k = "lower_colon") then Some b
    else if decide (k = "problemchars") then Some c
    else if decide (k = "other") then Some d
    else None.
Proof.
  unfold key_counts.
  repeat (destruct (decide _) as [->|?];
          [ repeat (rewrite lookup_insert_ne by discriminate);
            first [apply lookup_insert_eq | apply lookup_singleton_eq] |]).
  rewrite !lookup_insert_ne by congruence. now apply lookup_singleton_ne.
Qed.

Lemma increment_key_counts a b c d k :
  increment (key_counts a b c d) k =
    if decide (k = "lower") then Ok (key_counts (a + 1) b c d)
    else if decide (k = "lower_colon") then Ok (key_counts a (b + 1) c d)
    else if decide (k = "problemchars") then Ok (key_counts a b (c + 1) d)
    else if decide (k = "other") then Ok (key_counts a b c (d + 1))
    else Raise (KeyError k).
Proof.
  unfold increment. rewrite key_counts_lookup.
  repeat (destruct (decide _) as [->|?]; [|]); try reflexivity;
    f_equal; apply map_eq; intros i; rewrite lookup_insert, !key_counts_lookup;
    repeat (destruct (decide _) as [->|?]; simplify_eq; try reflexivity).
Qed.

Lemma getitem_key d k v : getitem d k = Ok v -> k ∈ d.*1.
Proof.
  intros H%getitem_In. apply list_elem_of_fmap. exists (k, v).
  split; [reflexivity | now apply list_elem_of_In].
Qed.

Lemma getitem_Raise d k err :
  getitem d k = Raise err -> err = KeyError k /\ k ∉ d.*1.
Proof.
  intros H. destruct (decide (k ∈ d.*1)) as [Hin|Hin].
  - apply getitem_present in Hin as [v Hv]. congruence.
  - rewrite getitem_absent in H by exact Hin. split; congruence.
Qed.

Lemma key_category_cases k : key_category k ∈ ["lower"; "lower_colon"; "problemchars"; "other"].
Proof.
  unfold key_category. repeat (destruct (found _)); elem_of_keys.
Qed.

Lemma keyed_dec e : {keyed e} + {tag e = "tag" /\ "k" ∉ (attrib e).*1}.
Proof.
  unfold keyed. destruct (decide (tag e = "tag")) as [Ht|Ht].
  - destruct (decide ("k" ∈ (attrib e).*1)); [left | right]; tauto.
  - left. tauto.
Qed.

(** The loop of the classifier from any counters. *)
Lemma keys_loop es a b c d :
  (Forall keyed es /\
   for_each key_type es (key_counts a b c d)
   = Ok (key_counts (a + counted "lower" es) (b + counted "lower_colon" es)
           (c + counted "problemchars" es) (d + counted "other" es))) \/
  (Exists (fun e => tag e = "tag" /\ "k" ∉ (attrib e).*1) es /\
   for_each key_type es (key_counts a b c d) = Raise (KeyError "k")).
Proof.
  revert a b c d. induction es as [|e es IH]; intros a b c d.
  - left. split; [constructor|]. simpl. now rewrite !Z.add_0_r.
  - cbn [for_each counted]. rewrite key_type_category. unfold in_category.
    destruct (decide (tag e = "tag")) as [Ht|Ht].
    + rewrite bool_decide_eq_true_2 by exact Ht. cbn [andb].
      destruct (getitem (attrib e) "k") as [k|err] eqn:Hk.
      * assert (Hin : "k" ∈ (attrib e).*1).
        { now apply getitem_key in Hk. }
        cbn [mbind result_bind]. rewrite increment_key_counts.
        pose proof (key_category_cases k) as Hc.
        repeat (destruct (decide (key_category k = _)) as [Heq|?]);
          [ rewrite ?Heq .. | exfalso; revert Hc; elem_of_keys ];
          cbn [mbind result_bind];
          (lazymatch goal with
          | |- context [for_each key_type es (key_counts ?a' ?b' ?c' ?d')] =>
              destruct (IH a' b' c' d') as [[HF ->] | [HE ->]]
          end;
          [ left; split; [constructor; [intros _; exact Hin | exact HF]|];
            do 2 f_equal;
            repeat match goal with
            | |- context [bool_decide ?P] =>
                destruct (bool_decide_reflect P); try congruence
            end; lia
          | right; split; [now apply Exists_cons_tl | reflexivity] ]).
      * apply getitem_Raise in Hk as Hk'. destruct Hk' as [-> Hnk].
        right. split; [|reflexivity]. apply Exists_cons_hd. now split.
    + rewrite bool_decide_eq_false_2 by exact Ht. cbn [andb mbind result_bind].
      destruct (IH a b c d) as [[HF ->] | [HE ->]].
      * left. split; [constructor; [intros ?; contradiction | exact HF]|].
        f_equal.
      * right. split; [now apply Exists_cons_tl | reflexivity].
Qed.

Lemma keyed_or_not es :
  Forall keyed es -> Exists (fun e => tag e = "tag" /\ "k" ∉ (attrib e).*1) es -> False.
Proof.
  rewrite Forall_forall, Exists_exists. intros HF (e & Hin & Ht & Hk).
  exact (Hk (HF e Hin Ht)).
Qed.

Lemma process_map_keys_loop es :
  process_map_keys es = for_each key_type es (key_counts 0 0 0 0).
Proof. reflexivity. Qed.

(** X1. The classifier's pass over a file, when it ends without an error,
    returns the four counters, each holding the number of [tag] elements whose
    key falls in its category; no other key is added. *)
Theorem process_map_keys_counts (elements : list Element) (keys : gmap string Z) :
  process_map_keys elements = Ok keys ->
  keys = key_counts (counted "lower" elements) (counted "lower_colon" elements)
           (counted "problemchars" elements) (counted "other" elements).
Proof.
  rewrite process_map_keys_loop.
  destruct (keys_loop elements 0 0 0 0) as [[_ ->] | [_ ->]]; [|discriminate].
  now intros [= <-].
Qed.

Lemma process_map_keys_counts_witness :
  key_counts 1 1 1 1
  = key_counts (counted "lower" sample_elements) (counted "lower_colon" sample_elements)
      (counted "problemchars" sample_elements) (counted "other" sample_elements).
Proof. apply process_map_keys_counts. vm_compute. reflexivity. Defined.

(** X2. The classifier's pass ends without an error exactly when every [tag]
    element has an attribute [k]; otherwise it raises KeyError for [k], and it
    raises nothing else. *)
Theorem process_map_keys_outcome (elements : list Element) :
  (Forall keyed elements <-> exists keys, process_map_keys elements = Ok keys) /\
  (Exists (fun e => tag e = "tag" /\ "k" ∉ (attrib e).*1) elements <->
   process_map_keys elements = Raise (KeyError "k")) /\
  forall err, process_map_keys elements = Raise err -> err = KeyError "k".
Proof.
  rewrite process_map_keys_loop.
  destruct (keys_loop elements 0 0 0 0) as [[HF ->] | [HE ->]].
  - split; [|split].
    + split; [eauto | intros _; exact HF].
    + split; [intros HE; destruct (keyed_or_not _ HF HE) | discriminate].
    + discriminate.
  - split; [|split].
    + split; [intros HF; destruct (keyed_or_not _ HF HE) | intros [? [=]]].
    + split; [reflexivity | intros _; exact HE].
    + now intros err [= <-].
Qed.

Lemma at_eol_newline rest :
  at_eol rest = true <-> rest = [] \/ rest = [newline].
Proof.
  rewrite at_eol_cases. split; (intros [H | H]; [now left | right]).
  - destruct H as (c & -> & ->%is_code_eq). reflexivity.
  - exists newline. now split.
Qed.

Lemma lower_like_found k : found (search lower k) = true <-> lower_like k.
Proof.
  rewrite lower_found. unfold lower_like, lowercase. split.
  - intros (x & rest & Hk & Hx & [-> | ->]%at_eol_newline); exists (of_text x);
      rewrite to_of_text; (split; [exact Hx|]).
    + left. apply to_text_inj. now rewrite Hk, app_nil_r, to_of_text.
    + right. apply to_text_inj. now rewrite Hk, to_text_append, to_of_text.
  - intros (x & Hx & [-> | ->]).
    + exists (to_text x), []. now rewrite app_nil_r.
    + exists (to_text x), [newline]. now rewrite to_text_append.
Qed.

Lemma lower_colon_like_found k :
  found (search lower_colon k) = true <-> lower_colon_like k.
Proof.
  rewrite lower_colon_found. unfold lower_colon_like, lowercase. split.
  - intros (x & y & rest & Hk & Hx & Hy & [-> | ->]%at_eol_newline);
      exists (of_text x), (of_text y); rewrite !to_of_text;
      (split; [exact Hx|]); (split; [exact Hy|]).
    + left. apply to_text_inj.
      rewrite Hk, app_nil_r, !to_text_append, !to_of_text. reflexivity.
    + right. apply to_text_inj.
      rewrite Hk, !to_text_append, !to_of_text. reflexivity.
  - intros (x & y & Hx & Hy & [-> | ->]).
    + exists (to_text x), (to_text y), [].
      now rewrite app_nil_r, !to_text_append.
    + exists (to_text x), (to_text y), [newline].
      now rewrite !to_text_append.
Qed.

Lemma lower_like_no_colon k : lower_like k -> lower_colon_like k -> False.
Proof.
  intros (x & Hx & Hk) (x' & y' & _ & _ & Hk').
  assert (Hin : In ":"%char (to_text k)).
  { destruct Hk' as [-> | ->]; rewrite !to_text_append;
      apply in_or_app; right; apply in_or_app; left; now left. }
  assert (Hnot : ~ In ":"%char (to_text x)).
  { intros Hc. unfold lowercase in Hx. rewrite forallb_forall in Hx.
    apply Hx in Hc. discriminate. }
  destruct Hk as [-> | ->]; [tauto|].
  rewrite to_text_append in Hin. apply in_app_or in Hin as [Hc | Hc]; [tauto|].
  destruct Hc as [Hc | []]. discriminate.
Qed.

(** X3. The category of a key, as the classifier counts it: [lower] for
    lowercase letters and underscores (the empty key too), [lower_colon] for
    two such segments around one colon, each also with one final newline;
    [problemchars] for every other key that holds a problem character, and
    [other] for the rest. *)
Theorem key_category_spec (k : string) :
  (key_category k = "lower" <-> lower_like k) /\
  (key_category k = "lower_colon" <-> lower_colon_like k) /\
  (key_category k = "problemchars" <->
     ~ lower_like k /\ ~ lower_colon_like k /\ has_problemchar k = true) /\
  (key_category k = "other" <->
     ~ lower_like k /\ ~ lower_colon_like k /\ has_problemchar k = false).
Proof.
  pose proof (lower_like_no_colon k) as Hx. revert Hx.
  rewrite <- lower_like_found, <- lower_colon_like_found, <- problemchars_found.
  unfold key_category.
  destruct (found (search lower k)), (found (search lower_colon k)),
    (found (search problemchars k)); intros Hx; repeat split; try congruence;
    try tauto; intros; intuition congruence.
Qed.

(** ** Counting the tag names *)

Lemma count_tag_lookup m e t :
  count_tag m e !! t =
    if decide (tag e = t) then Some (default 0 (m !! t) + 1)%Z else m !! t.
Proof.
  unfold count_tag. destruct (decide (tag e = t)) as [<-|Hne].
  - destruct (m !! tag e) as [n|]; now rewrite lookup_insert_eq.
  - destruct (m !! tag e) as [n|]; now rewrite lookup_insert_ne.
Qed.

Lemma tags_loop es m t :
  foldl count_tag m es !! t =
    match occurrences t es with
    | O => m !! t
    | S n => Some (default 0 (m !! t) + Z.of_nat (S n))%Z
    end.
Proof.
  unfold occurrences. revert m. induction es as [|e es IH]; intros m; [reflexivity|].
  cbn [foldl]. rewrite IH, count_tag_lookup.
  destruct (decide (tag e = t)) as [Ht|Ht].
  - rewrite filter_cons_True by exact Ht. cbn [length default].
    destruct (length _); f_equal; unfold id; lia.
  - rewrite filter_cons_False by exact Ht. reflexivity.
Qed.

(** X4. After the counting loop, [tags] maps every tag name that occurs among
    the elements to the number of its occurrences, and holds no other key. *)
Theorem tags_counts (elements : list Element) (t : string) :
  tags elements !! t =
    match occurrences t elements with
    | O => None
    | S n => Some (Z.of_nat (S n))
    end.
Proof.
  unfold tags. rewrite tags_loop, lookup_empty. now destruct (occurrences t elements).
Qed.

(** ** The contributors *)

Lemma add_user_spec e users :
  exists users', add_user e users = Ok users' /\
    forall u, u ∈ users' <-> u ∈ users \/ getitem (attrib e) "uid" = Ok u.
Proof.
  unfold add_user. destruct (bool_decide_reflect ("uid" ∈ (attrib e).*1)) as [Hin|Hin].
  - destruct (getitem_present _ _ Hin) as [v Hv]. rewrite Hv. cbn [mbind result_bind].
    eexists. split; [reflexivity|]. intros u. rewrite elem_of_union, elem_of_singleton.
    split; intros [H|H]; auto; [right | left]; congruence.
  - exists users. split; [reflexivity|]. intros u. split; [auto|].
    intros [H|H]; [exact H|]. apply getitem_key in H. contradiction.
Qed.

Lemma users_loop es users :
  exists users', for_each add_user es users = Ok users' /\
    forall u, u ∈ users' <->
      u ∈ users \/ exists e, In e es /\ getitem (attrib e) "uid" = Ok u.
Proof.
  revert users. induction es as [|e es IH]; intros users.
  - exists users. split; [reflexivity|]. intros u. split; [auto|].
    intros [H | (e & [] & _)]. exact H.
  - cbn [for_each]. destruct (add_user_spec e users) as (u1 & -> & H1).
    cbn [mbind result_bind]. destruct (IH u1) as (u2 & -> & H2).
    exists u2. split; [reflexivity|]. intros u. rewrite H2, H1. split.
    + intros [[H | H] | (e' & Hin & H)]; eauto.
      * right. exists e. split; [now left | exact H].
      * right. exists e'. split; [now right | exact H].
    + intros [H | (e' & [<- | Hin] & H)]; [auto | auto |].
      right. exists e'. now split.
Qed.

(** X5. The contributors' pass never raises, and the set it returns holds
    exactly the values of the [uid] attributes of the elements. *)
Theorem process_map_users_spec (elements : list Element) :
  exists users, process_map_users elements = Ok users /\
    forall u, u ∈ users <->
      exists e, In e elements /\ getitem (attrib e) "uid" = Ok u.
Proof.
  destruct (users_loop elements ∅) as (users & H & Hu).
  exists users. split; [exact H|]. intros u. rewrite Hu.
  split; [intros [H0 | H0]; [now apply elem_of_empty in H0 | exact H0] | auto].
Qed.

(** ** The audit of the street names *)

Lemma reported_empty t name : reported ∅ t name <-> False.
Proof. unfold reported. split; [intros (w & H & _) | tauto]. now rewrite lookup_empty in H. Qed.

Lemma audit_street_type_reported rl n re ex t name :
  reported (audit_street_type rl n re ex) t name <->
  reported rl t name \/ (name = n /\ found_token re n t /\ t ∉ ex).
Proof.
  unfold audit_street_type, found_token, reported.
  destruct (search re n) as [m|] eqn:Hm.
  2:{ split; [auto | intros [H | (_ & (m & [=] & _) & _)]; exact H]. }
  cbv zeta. destruct (bool_decide_reflect (group m ∈ ex)) as [Hex|Hex].
  { split; [auto | intros [H | (_ & (m' & [= <-] & <-) & Hn)]; [exact H | contradiction]]. }
  destruct (decide (t = group m)) as [->|Hne].
  - rewrite lookup_insert_eq. split.
    + intros (w & [= <-] & Hin). apply elem_of_union in Hin as [Hin | Hin].
      * apply elem_of_singleton in Hin. right. eauto.
      * left. destruct (rl !! group m) as [w|]; [eauto | now apply elem_of_empty in Hin].
    + intros [(w & Hw & Hin) | (-> & _ & _)]; eexists; (split; [reflexivity|]).
      * rewrite Hw. apply elem_of_union. now right.
      * apply elem_of_union. left. now apply elem_of_singleton.
  - rewrite lookup_insert_ne by congruence. split; [auto|].
    intros [H | (_ & (m' & [= <-] & <-) & _)]; [exact H | congruence].
Qed.

Lemma audit_tag_reported re ex tg rl rl' t name :
  audit_tag re ex tg rl = Ok rl' ->
  reported rl' t name <->
  reported rl t name \/
  ((getitem (attrib tg) "k" = Ok "addr:street" /\ getitem (attrib tg) "v" = Ok name) /\
   found_token re name t /\ t ∉ ex).
Proof.
  unfold audit_tag, is_street_name.
  destruct (getitem (attrib tg) "k") as [k|] eqn:Hk; [|discriminate].
  cbn [mbind result_bind].
  destruct (bool_decide_reflect (k = "addr:street")) as [->|Hne].
  - destruct (getitem (attrib tg) "v") as [v|] eqn:Hv; [|discriminate].
    cbn [mbind result_bind]. intros [= <-]. rewrite audit_street_type_reported.
    split; (intros [H | H]; [now left | right]).
    + destruct H as (-> & H1 & H2). auto.
    + destruct H as ((_ & [= ->]) & H1 & H2). auto.
  - intros [= <-]. split; [auto|]. intros [H | ((H & _) & _)]; [exact H | congruence].
Qed.

Lemma audit_tags_reported re ex ts rl rl' t name :
  for_each (audit_tag re ex) ts rl = Ok rl' ->
  reported rl' t name <->
  reported rl t name \/
  ((exists tg, In tg ts /\ getitem (attrib tg) "k" = Ok "addr:street" /\
      getitem (attrib tg) "v" = Ok name) /\
   found_token re name t /\ t ∉ ex).
Proof.
  revert rl. induction ts as [|tg ts IH]; intros rl.
  - intros [= <-]. split; [auto|]. intros [H | ((tg & [] & _) & _)]. exact H.
  - cbn [for_each]. intros (rl1 & H1 & H2)%bind_Ok.
    rewrite (IH _ H2), (audit_tag_reported _ _ _ _ _ _ _ H1). split.
    + intros [[H | ((Hk & Hv) & Ht)] | ((tg' & Hin & Hkv) & Ht)]; [now left | right ..].
      * split; [|exact Ht]. exists tg. split; [now left | now split].
      * split; [|exact Ht]. exists tg'. split; [now right | exact Hkv].
    + intros [H | ((tg' & [<- | Hin] & Hkv) & Ht)]; [now left; left | |].
      * left. right. now split.
      * right. split; [|exact Ht]. now exists tg'.
Qed.

Lemma audit_elem_reported re ex e rl rl' t name :
  audit_elem re ex e rl = Ok rl' ->
  reported rl' t name <->
  reported rl t name \/ (street_value e name /\ found_token re name t /\ t ∉ ex).
Proof.
  unfold audit_elem, street_value.
  destruct (decide (tag e = "node" ∨ tag e = "way")) as [Ht|Ht].
  - intros H. rewrite (audit_tags_reported _ _ _ _ _ _ _ H). tauto.
  - intros [= <-]. tauto.
Qed.

Lemma audit_loop_reported re ex es rl rl' t name :
  for_each (audit_elem re ex) es rl = Ok rl' ->
  reported rl' t name <->
  reported rl t name \/
  ((exists e, In e es /\ street_value e name) /\ found_token re name t /\ t ∉ ex).
Proof.
  revert rl. induction es as [|e es IH]; intros rl.
  - intros [= <-]. split; [auto|]. intros [H | ((e & [] & _) & _)]. exact H.
  - cbn [for_each]. intros (rl1 & H1 & H2)%bind_Ok.
    rewrite (IH _ H2), (audit_elem_reported _ _ _ _ _ _ _ H1). split.
    + intros [[H | (Hv & Ht)] | ((e' & Hin & Hv) & Ht)]; [now left | right ..].
      * split; [|exact Ht]. exists e. split; [now left | exact Hv].
      * split; [|exact Ht]. exists e'. split; [now right | exact Hv].
    + intros [H | ((e' & [<- | Hin] & Hv) & Ht)]; [now left; left | |].
      * left. right. now split.
      * right. split; [|exact Ht]. now exists e'.
Qed.

Lemma audit_sound es re ex rl t name :
  audit es re ex = Ok rl -> reported rl t name ->
  (exists e, In e es /\ street_value e name) /\ found_token re name t /\ t ∉ ex.
Proof.
  intros H Hr. apply (audit_loop_reported _ _ _ _ _ t name) in H.
  apply H in Hr as [Hr | Hr]; [now apply reported_empty in Hr | exact Hr].
Qed.



(** X7. The update of an audited name never fails: for a name that the audit
    lists under a street type that is a key of the mapping, [update_name]
    returns the name with the match replaced by the mapping's value.  The
    value holds no backslash, which [re.sub] would interpret. *)
Theorem audited_name_updates (elements : list Element) (reg_string : regex)
    (expected_list : list string) (mapping : gmap string string)
    (return_list : gmap string (gset string)) (t name repl : string)
    (ways : gset string) :
  audit elements reg_string expected_list = Ok return_list ->
  return_list !! t = Some ways -> name ∈ ways ->
  mapping !! t = Some repl -> ~ In backslash (to_text repl) ->
  update_name name mapping reg_string expected_list
  = Ok (sub reg_string repl name).
Proof.
  intros H Ht Hin Hm _.
  destruct (audit_sound _ _ _ _ t name H) as (_ & (m & Hs & <-) & Hex); [now exists ways|].
  unfold update_name. rewrite Hs. cbv zeta.
  rewrite bool_decide_eq_false_2 by exact Hex. now rewrite Hm.
Qed.

Lemma audited_name_updates_witness :
  update_name "Main St" mapping_street_type street_type_re expected_names
  = Ok (sub street_type_re "Street" "Main St").
Proof.
  apply (audited_name_updates audited_elements street_type_re expected_names
           mapping_street_type audited_report "St" "Main St" "Street" {[ "Main St" ]}).
  - vm_compute. reflexivity.
  - vm_compute. reflexivity.
  - now apply elem_of_singleton.
  - vm_compute. reflexivity.
  - vm_compute. intuition discriminate.
Defined.

(** ** The street-direction pattern *)

Lemma nsew_is_word c : is_nsew c = true -> is_word c = true.
Proof. destruct c as [[] [] [] [] [] [] [] []]; vm_compute; congruence. Qed.

Lemma match_at_direction_behind b a :
  b <> [] -> match_at street_direction_re (b, a) = None.
Proof. intros Hb. destruct b; [congruence | reflexivity]. Qed.

Lemma scan_direction_behind b a :
  b <> [] -> scan street_direction_re b a = None.
Proof.
  intros Hb. apply scan_None. intros x y _. apply match_at_direction_behind.
  destruct x as [|c x] using rev_ind; [exact Hb|].
  rewrite rev_app_distr. discriminate.
Qed.

Lemma scan_direction a :
  scan street_direction_re [] a =
    match a with
    | c :: r =>
        if is_nsew c && negb (head_is is_word r) then
          match r with
          | d :: r' =>
              if decide (d = "."%char) then Some (([], a), ([d; c], r'))
              else Some (([], a), ([c], r))
          | [] => Some (([], a), ([c], r))
          end
        else None
    | [] => None
    end.
Proof.
  destruct a as [|c r]; [reflexivity|].
  assert (Hnext : scan street_direction_re [c] r = None)
    by now apply scan_direction_behind.
  cbn [scan]. unfold match_at, street_direction_re. cbn [ends fst snd flat_map].
  destruct (is_nsew c) eqn:Hc; cbn [andb app flat_map head];
    [|destruct r; [reflexivity | exact Hnext]].
  unfold word_boundary, word_behind, word_ahead. cbn [fst snd].
  rewrite (nsew_is_word _ Hc). unfold Opt. cbn [ends fst snd].
  destruct r as [|d r']; cbn [head_is negb xorb app flat_map head]; [reflexivity|].
  destruct (is_word d) eqn:Hd; cbn [negb xorb app flat_map head].
  - exact Hnext.
  - cbn [fst snd]. destruct (decide (d = "."%char)) as [->|Hne]; [reflexivity|].
    destruct (is_code 46 d) eqn:H46; [|reflexivity].
    apply is_code_eq in H46. contradiction.
Qed.

Lemma search_direction name :
  search street_direction_re name =
    match direction_token name with
    | Some (tok, rest) => Some (mkMatch "" tok rest)
    | None => None
    end.
Proof.
  unfold search, direction_token. rewrite scan_direction.
  destruct (to_text name) as [|c r]; [reflexivity|].
  destruct (is_nsew c && negb (head_is is_word r)); [|reflexivity].
  destruct r as [|d r']; [reflexivity|].
  destruct (decide (d = "."%char)) as [->|Hne]; cbn [fst snd rev app].
  - pose proof (between_app [] ["."%char; c] [c; "."%char] r') as Hb.
    cbn [app] in Hb. now rewrite Hb.
  - pose proof (between_app [] [c] [c] (d :: r')) as Hb.
    cbn [app] in Hb. now rewrite Hb.
Qed.

Lemma sub_direction name tok rest repl :
  direction_token name = Some (tok, rest) ->
  sub street_direction_re repl name = repl +:+ rest.
Proof.
  unfold direction_token, sub. intros H.
  destruct (to_text name) as [|c r] eqn:Hn; [discriminate|].
  clear Hn. cbn [sub_from]. rewrite scan_direction.
  destruct (is_nsew c && negb (head_is is_word r)); [|discriminate].
  assert (Hend : forall fuel b a, b <> [] ->
            sub_from street_direction_re (to_text repl) fuel true b a = a).
  { intros [|fuel] b a Hb; [reflexivity|]. cbn [sub_from].
    now rewrite scan_direction_behind. }
  destruct r as [|d r'].
  - injection H as <- <-. cbn [fst snd length Nat.ltb Nat.leb].
    rewrite Hend by discriminate. unfold between. cbn [fst snd length Nat.sub take app].
    now rewrite of_text_app, of_to_text.
  - destruct (decide (d = "."%char)) as [->|Hne]; injection H as <- <-;
      cbn [fst snd].
    + replace (length r' <? length (c :: "."%char :: r')) with true
        by (symmetry; apply Nat.ltb_lt; simpl; lia).
      rewrite Hend by discriminate. unfold between. cbn [fst snd].
      rewrite Nat.sub_diag. cbn [take app].
      now rewrite of_text_app, of_to_text.
    + replace (length (d :: r') <? length (c :: d :: r')) with true
        by (symmetry; apply Nat.ltb_lt; simpl; lia).
      rewrite Hend by discriminate. unfold between. cbn [fst snd].
      rewrite Nat.sub_diag. cbn [take app].
      now rewrite of_text_app, of_to_text.
Qed.

Lemma direction_token_short name tok rest :
  direction_token name = Some (tok, rest) -> (String.length tok <= 2)%nat.
Proof.
  unfold direction_token. destruct (to_text name) as [|c r]; [discriminate|].
  destruct (is_nsew c && negb (head_is is_word r)); [|discriminate].
  destruct r as [|d r']; [intros [= <- _]; simpl; lia|].
  destruct (decide (d = "."%char)); intros [= <- _]; simpl; lia.
Qed.

Lemma direction_token_unexpected name tok rest :
  direction_token name = Some (tok, rest) -> tok ∉ expected_directions.
Proof.
  intros H%direction_token_short Hin. revert H. unfold expected_directions in Hin.
  rewrite !elem_of_cons, elem_of_nil in Hin.
  destruct Hin as [-> | [-> | [-> | [-> | []]]]]; simpl; lia.
Qed.

(** X8. The direction pass in closed form: it looks only at the start of the
    name.  With no direction letter standing alone there, the name is
    returned as it is; otherwise the letter, with its dot, is replaced by the
    mapping's word and the rest is kept, and a letter that is no key of the
    mapping (the lowercase ones) raises KeyError. *)
Theorem update_name_direction_spec (name : string) :
  update_name name mapping_street_direction street_direction_re expected_directions
  = match direction_token name with
    | None => Ok name
    | Some (tok, rest) =>
        match mapping_street_direction !! tok with
        | Some full => Ok (full +:+ rest)
        | None => Raise (KeyError tok)
        end
    end.
Proof.
  unfold update_name. rewrite search_direction.
  destruct (direction_token name) as [[tok rest]|] eqn:Htok; [|reflexivity].
  cbn [group]. cbv zeta.
  rewrite bool_decide_eq_false_2 by exact (direction_token_unexpected _ _ _ Htok).
  destruct (mapping_street_direction !! tok) as [full|]; [|reflexivity].
  now rewrite (sub_direction _ _ _ full Htok).
Qed.

Lemma direction_word_stable full rest :
  full ∈ ["East"; "North"; "South"; "West"] ->
  direction_token (full +:+ rest) = None.
Proof.
  rewrite !elem_of_cons, elem_of_nil. unfold direction_token.
  intros [-> | [-> | [-> | [-> | []]]]]; reflexivity.
Qed.

Lemma mapping_street_direction_words tok full :
  mapping_street_direction !! tok = Some full ->
  full ∈ ["East"; "North"; "South"; "West"].
Proof.
  intros H%elem_of_list_to_map_2%list_elem_of_In.
  unfold mapping_street_direction_items in H. cbn [In] in H.
  repeat (destruct H as [[= <- <-] | H]; [elem_of_keys|]). destruct H.
Qed.

(** X9. The direction pass is idempotent: a name that it returned goes through
    a second pass unchanged. *)
Theorem update_name_direction_idempotent (name name' : string) :
  update_name name mapping_street_direction street_direction_re expected_directions
  = Ok name' ->
  update_name name' mapping_street_direction street_direction_re expected_directions
  = Ok name'.
Proof.
  intros H. pose proof H as H0. revert H0.
  unfold update_name at 1. rewrite search_direction.
  destruct (direction_token name) as [[tok rest]|] eqn:Htok;
    [|now intros [= <-]].
  cbn [group]. cbv zeta.
  destruct (bool_decide _); [now intros [= <-]|].
  destruct (mapping_street_direction !! tok) as [full|] eqn:Hfull; [|discriminate].
  intros [= <-]. rewrite (sub_direction _ _ _ full Htok).
  unfold update_name. rewrite search_direction.
  now rewrite (direction_word_stable _ _ (mapping_street_direction_words _ _ Hfull)).
Qed.

Lemma update_name_direction_idempotent_witness :
  update_name "North 1st Street" mapping_street_direction street_direction_re
    expected_directions
  = Ok "North 1st Street".
Proof.
  apply (update_name_direction_idempotent "N. 1st Street"). vm_compute. reflexivity.
Defined.

(** X10. A street name that starts with a lowercase n, s, e or w standing alone
    as a word makes the direction pass raise KeyError: the pattern ignores
    case, the mapping has only the uppercase letters. *)
Theorem update_name_lowercase_direction_raises (name : string) (c : ascii) (r : text) :
  to_text name = c :: r -> c ∈ ["n"; "s"; "e"; "w"]%char ->
  head_is is_word r = false ->
  exists tok rest,
    direction_token name = Some (tok, rest) /\
    update_name name mapping_street_direction street_direction_re expected_directions
    = Raise (KeyError tok).
Proof.
  intros Hn Hc Hr. unfold update_name. rewrite search_direction.
  unfold direction_token. rewrite Hn, Hr.
  rewrite !elem_of_cons, elem_of_nil in Hc.
  destruct Hc as [-> | [-> | [-> | [-> | []]]]];
    (destruct r as [|d r']; [|destruct (decide (d = "."%char)) as [->|?]]);
    do 2 eexists; (split; [reflexivity|]); reflexivity.
Qed.

Lemma update_name_lowercase_direction_raises_witness :
  exists tok rest,
    direction_token "e main Street" = Some (tok, rest) /\
    update_name "e main Street" mapping_street_direction street_direction_re
      expected_directions
    = Raise (KeyError tok).
Proof.
  apply (update_name_lowercase_direction_raises "e main Street" "e" (to_text " main Street"));
    [reflexivity | repeat constructor | reflexivity].
Defined.

(** ** Postal codes *)

Lemma five_digits_match_some b a q :
  match_at five_digits (b, a) = Some q ->
  exists ds rest, a = ds ++ rest /\ length ds = 5%nat /\
    forallb is_digit ds = true /\ q = (rev ds ++ b, rest).
Proof.
  unfold match_at, five_digits.
  destruct a as [|c1 [|c2 [|c3 [|c4 [|c5 rest]]]]]; cbn [ends fst snd flat_map app head];
    repeat (match goal with
            | |- context [if is_digit ?c then _ else _] => destruct (is_digit c) eqn:?
            end; cbn [ends fst snd flat_map app head]);
    try discriminate.
  intros [= <-]. exists [c1; c2; c3; c4; c5], rest.
  repeat split. cbn [forallb]. now rewrite Heqb0, Heqb1, Heqb2, Heqb3, Heqb4.
Qed.

Lemma findall_five_digits s fuel b a :
  rev b ++ a = to_text s ->
  Forall (zip5_of s) (findall_from five_digits fuel b a).
Proof.
  revert b a. induction fuel as [|fuel IH]; intros b a Hs; [constructor|].
  cbn [findall_from]. destruct (scan five_digits b a) as [[p q]|] eqn:Hscan;
    [|constructor].
  apply scan_Some in Hscan as (x & y & -> & -> & Hm & _).
  apply five_digits_match_some in Hm as (ds & rest & -> & Hlen & Hds & ->).
  cbn [fst snd].
  assert (Hq : rev (rev ds ++ rev x ++ b) ++ rest = to_text s).
  { rewrite <- Hs, !rev_app_distr, !rev_involutive, <- !app_assoc. reflexivity. }
  constructor.
  - rewrite between_app. repeat split.
    + now rewrite <- length_to_text, to_of_text.
    + now rewrite to_of_text.
    + exists (of_text (rev b ++ x)), (of_text rest). apply to_text_inj.
      rewrite !to_text_append, !to_of_text, <- Hs, <- !app_assoc. reflexivity.
  - destruct (length rest <? length (ds ++ rest)); [now apply IH|].
    destruct rest as [|c rest']; [constructor|]. apply IH.
    rewrite <- Hq. cbn [rev]. rewrite <- !app_assoc. reflexivity.
Qed.

(** X11. Postal-code extraction on a value that holds a run of five digits
    returns a list, never a string: it is not empty, and each of its items is
    a run of five digits cut out of the value. *)
Theorem update_zip_code_runs {float : Type} (zip_in : string) :
  has_digit_run5 zip_in = true ->
  exists z zs,
    @update_zip_code float zip_in = VList (VStr <$> z :: zs) /\
    Forall (zip5_of zip_in) (z :: zs).
Proof.
  intros Hrun. unfold update_zip_code. rewrite five_digits_found, Hrun.
  pose proof (findall_five_digits zip_in (S (String.length zip_in)) [] (to_text zip_in)
                eq_refl) as HF.
  rewrite <- five_digits_found in Hrun. apply found_true_iff in Hrun.
  fold (findall five_digits zip_in) in HF.
  destruct (findall five_digits zip_in) as [|z zs] eqn:Hall.
  - unfold findall in Hall. cbn [findall_from] in Hall.
    destruct (scan five_digits [] (to_text zip_in)) as [[p q]|]; [discriminate | congruence].
  - now exists z, zs.
Qed.

Lemma update_zip_code_runs_witness :
  exists z zs,
    @update_zip_code Q "95014 CA 95134-1234" = VList (VStr <$> z :: zs) /\
    Forall (zip5_of "95014 CA 95134-1234") (z :: zs).
Proof. apply (@update_zip_code_runs Q "95014 CA 95134-1234"). reflexivity. Defined.

(** ** The fields [created] and [node_refs], and the copied attributes *)

Section Fields.

Context {pyfloat : Type} (float : string -> option pyfloat).

Implicit Types (nd : gmap string (@slot pyfloat)) (m : gmap string (value pyfloat)).

Lemma created_slot_insert a v m :
  created_slot (<[a := v]> m) = Some (Own (VDict (<[a := v]> m))).
Proof.
  unfold created_slot. destruct (decide _) as [H|H]; [|reflexivity].
  now apply insert_non_empty in H.
Qed.

Lemma shape_attr_created a v nd nd' m :
  shape_attr float (a, v) nd = Ok nd' -> a <> "created" ->
  nd !! "created" = created_slot m ->
  nd' !! "created"
  = created_slot (if bool_decide (a ∈ CREATED) then <[a := VStr v]> m else m).
Proof.
  unfold shape_attr. cbn [fst snd]. intros H Ha Hm.
  destruct (bool_decide (a ∈ CREATED)).
  { rewrite created_slot_insert. unfold init_key in H. rewrite Hm in H.
    unfold created_slot in H. destruct (decide (m = ∅)) as [->|Hne].
    - rewrite lookup_insert_eq in H. injection H as <-. apply lookup_insert_eq.
    - rewrite Hm in H. unfold created_slot in H.
      destruct (decide (m = ∅)); [contradiction|].
      injection H as <-. apply lookup_insert_eq. }
  destruct (bool_decide (a ∈ ["lat"; "lon"])).
  { destruct (float v); [|discriminate].
    destruct (init_key "pos" _ nd !! "pos") as [[[]|]|]; try discriminate.
    destruct (bool_decide _) in H; [|discriminate].
    injection H as <-. now rewrite lookup_insert_ne, init_key_ne by discriminate. }
  injection H as <-. now rewrite lookup_insert_ne by congruence.
Qed.

Lemma created_of_cons a v d :
  created_of ((a, v) :: d)
  = if bool_decide (a ∈ CREATED)
    then <[a := VStr v]> (created_of (pyfloat := pyfloat) d)
    else created_of d.
Proof.
  unfold created_of. destruct (bool_decide_reflect (a ∈ CREATED)) as [H|H].
  - now rewrite filter_cons_True by exact H.
  - now rewrite filter_cons_False by exact H.
Qed.

Lemma created_of_absent a d :
  a ∉ d.*1 -> created_of (pyfloat := pyfloat) d !! a = None.
Proof.
  intros Ha. unfold created_of. apply not_elem_of_list_to_map_1.
  intros (x & Hx & Hin)%list_elem_of_fmap.
  apply list_elem_of_fmap in Hin as ([a' v'] & -> & Hin).
  apply list_elem_of_filter in Hin as [_ Hin]. cbn [fst snd] in Hx. subst a'.
  apply Ha, list_elem_of_fmap. now exists (a, v').
Qed.

Lemma attrs_created d nd nd' m :
  for_each (shape_attr float) d nd = Ok nd' ->
  "created" ∉ d.*1 -> NoDup d.*1 ->
  nd !! "created" = created_slot m ->
  nd' !! "created" = created_slot (created_of d ∪ m).
Proof.
  revert nd m. induction d as [|[a v] d IH]; intros nd m; cbn [for_each].
  - intros [= <-] _ _ Hm. change (created_of []) with (∅ : gmap string (value pyfloat)).
    now rewrite (left_id_L ∅ (∪)).
  - intros (nd1 & H1 & H)%bind_Ok Hc Hnd Hm.
    rewrite fmap_cons in Hc, Hnd. apply not_elem_of_cons in Hc as [Ha Hc].
    apply NoDup_cons in Hnd as [Hfresh Hnd]. cbn [fst] in Ha, Hfresh.
    rewrite (IH _ _ H Hc Hnd (shape_attr_created _ _ _ _ _ H1 (not_eq_sym Ha) Hm)).
    rewrite created_of_cons. destruct (bool_decide (a ∈ CREATED)); [|reflexivity].
    f_equal. rewrite <- insert_union_l.
    now rewrite <- insert_union_r by now apply created_of_absent.
Qed.

(** X12. For a node or way without an attribute or a tag named created, the
    field [created] of the document holds exactly the attributes of the
    element whose name is in CREATED, each under its name; without any such
    attribute the field is absent. *)
Theorem created_field (e : Element) (d : gmap string (value pyfloat)) :
  shape_element float e = Ok (Some d) ->
  NoDup (attrib e).*1 ->
  "created" ∉ (attrib e).*1 ->
  (forall t, In t (iter "tag" e) -> getitem (attrib t) "k" <> Ok "created") ->
  d !! "created" = expected_created (attrib e).
Proof.
  intros (nd1 & st & nd3 & H1 & H2 & H3 & ->)%shape_element_Some Hnd Hc Htags.
  rewrite snapshot_lookup. cbn [node address].
  rewrite (shape_nds_frame _ _ _ _ H3) by discriminate.
  rewrite (shape_tags_node_frame _ _ _ _ H2) by (auto; discriminate).
  cbn [node].
  rewrite (attrs_created _ _ _ ∅ H1 Hc Hnd) by reflexivity.
  rewrite (right_id_L ∅ (∪)). unfold created_slot, expected_created.
  now destruct (decide _).
Qed.

Lemma shape_nd_refs n nd nd' l :
  shape_nd n nd = Ok nd' -> nd !! "node_refs" = refs_slot l ->
  exists r, getitem (attrib n) "ref" = Ok r /\
    nd' !! "node_refs" = refs_slot (l ++ [VStr r]).
Proof.
  unfold shape_nd, init_key. intros H Hl. rewrite Hl in H.
  assert (Hsnoc : forall r, refs_slot (l ++ [VStr r]) = Some (Own (VList (l ++ [VStr r])))).
  { intros r. destruct l; reflexivity. }
  destruct l as [|x l]; cbn [refs_slot] in H.
  - rewrite lookup_insert_eq in H.
    apply bind_Ok in H as (r & Hr & [= <-]). exists r. split; [exact Hr|].
    rewrite Hsnoc. apply lookup_insert_eq.
  - rewrite Hl in H. cbn [refs_slot] in H.
    apply bind_Ok in H as (r & Hr & [= <-]). exists r. split; [exact Hr|].
    rewrite Hsnoc. apply lookup_insert_eq.
Qed.

Lemma nds_refs nds nd nd' l :
  for_each shape_nd nds nd = Ok nd' -> nd !! "node_refs" = refs_slot l ->
  exists refs, Forall2 (fun n r => getitem (attrib n) "ref" = Ok r) nds refs /\
    nd' !! "node_refs" = refs_slot (l ++ (VStr <$> refs)).
Proof.
  revert nd l. induction nds as [|n nds IH]; intros nd l; cbn [for_each].
  - intros [= <-] Hl. exists []. split; [constructor|]. now rewrite app_nil_r.
  - intros (nd1 & H1 & H)%bind_Ok Hl.
    destruct (shape_nd_refs _ _ _ _ H1 Hl) as (r & Hr & Hl1).
    destruct (IH _ _ H Hl1) as (refs & HF & Hl').
    exists (r :: refs). split; [now constructor|].
    now rewrite Hl', <- app_assoc.
Qed.

(** X13. For a node or way without an attribute or a tag named node_refs, the
    field [node_refs] of the document is the list of the [ref] attributes of
    the [nd] descendants, in document order; it is absent when there is
    none. *)
Theorem node_refs_field (e : Element) (d : gmap string (value pyfloat)) :
  shape_element float e = Ok (Some d) ->
  "node_refs" ∉ (attrib e).*1 ->
  (forall t, In t (iter "tag" e) -> getitem (attrib t) "k" <> Ok "node_refs") ->
  exists refs,
    Forall2 (fun n r => getitem (attrib n) "ref" = Ok r) (iter "nd" e) refs /\
    d !! "node_refs" =
      match refs with
      | [] => None
      | _ :: _ => Some (VList (VStr <$> refs))
      end.
Proof.
  intros (nd1 & st & nd3 & H1 & H2 & H3 & ->)%shape_element_Some Hattr Htags.
  assert (Hstart : node st !! "node_refs" = refs_slot []).
  { rewrite (shape_tags_node_frame _ _ _ _ H2) by (auto; discriminate). cbn [node].
    rewrite (attrs_frame float _ _ _ _ H1) by (auto; discriminate).
    now apply lookup_singleton_ne. }
  destruct (nds_refs _ _ _ _ H3 Hstart) as (refs & HF & Hl).
  exists refs. split; [exact HF|].
  rewrite snapshot_lookup. cbn [node address]. rewrite Hl. cbn [app].
  now destruct (VStr <$> refs) eqn:Hr; destruct refs.
Qed.

(** X14. An attribute that is not in CREATED, is not lat or lon and does not
    bear the name of one of the shaper's own fields is copied into the
    document as a string under its own name, unless a tag has that key. *)
Theorem plain_attribute_field (e : Element) (d : gmap string (value pyfloat))
    (a v : string) :
  shape_element float e = Ok (Some d) ->
  NoDup (attrib e).*1 -> In (a, v) (attrib e) ->
  a ∉ CREATED -> a ∉ ["lat"; "lon"] ->
  a ∉ ["created"; "pos"; "address"; "node_refs"] ->
  (forall t, In t (iter "tag" e) -> getitem (attrib t) "k" <> Ok a) ->
  d !! a = Some (VStr v).
Proof.
  intros (nd1 & st & nd3 & H1 & H2 & H3 & ->)%shape_element_Some Hnd Hin Hc Hl Hown Htags.
  assert (a <> "created" /\ a <> "pos" /\ a <> "address" /\ a <> "node_refs")
    as (Hn1 & Hn2 & Hn3 & Hn4) by (revert Hown; clear; elem_of_keys).
  rewrite snapshot_lookup. cbn [node address].
  rewrite (shape_nds_frame _ _ _ _ H3) by exact Hn4.
  rewrite (shape_tags_node_frame _ _ _ _ H2) by auto.
  cbn [node]. now rewrite (attrs_plain_key float _ _ _ _ _ H1 Hnd Hin).
Qed.

Lemma lower_colon_has_colon k :
  found (search lower_colon k) = true -> In ":"%char (to_text k).
Proof.
  intros (x & y & rest & -> & _)%lower_colon_found.
  apply in_or_app. right. now left.
Qed.

Lemma shape_tag_stored (t : Element) (st : @shaping pyfloat) k v :
  getitem (attrib t) "k" = Ok k -> getitem (attrib t) "v" = Ok v ->
  stored_top_level k ->
  shape_tag t st
  = Ok (attach_address (mkShaping (<[k := Own (VStr v)]> (node st)) (address st))).
Proof.
  intros Hk Hv [Hp Hshape]. unfold shape_tag. rewrite Hk. cbn [mbind result_bind].
  rewrite problemchars_found, Hp.
  destruct (found (search lower_colon k)) eqn:Hlc.
  - destruct Hshape as [Hnc | [_ Hpre]].
    { destruct Hnc. now apply lower_colon_has_colon. }
    destruct (decide (find k "addr" = 0%Z)) as [Hz|Hz].
    { apply find_zero in Hz. congruence. }
    now rewrite Hv.
  - destruct Hshape as [Hnc | [Hsh _]].
    + apply find_colon in Hnc. destruct (decide _); [|contradiction]. now rewrite Hv.
    + apply (lower_colon_shape _ Hp) in Hsh. congruence.
Qed.

(** X15. A tag that the shaper stores as a field of the document overrides
    whatever the attributes and the earlier tags put under its key: the
    document holds the value of the last such tag. *)
Theorem tag_field (e : Element) (d : gmap string (value pyfloat))
    (ts1 ts2 : list Element) (t : Element) (k v : string) :
  shape_element float e = Ok (Some d) ->
  iter "tag" e = ts1 ++ t :: ts2 ->
  getitem (attrib t) "k" = Ok k -> getitem (attrib t) "v" = Ok v ->
  stored_top_level k -> k ∉ ["address"; "node_refs"] ->
  (forall t', In t' ts2 -> getitem (attrib t') "k" <> Ok k) ->
  d !! k = Some (VStr v).
Proof.
  intros (nd1 & st & nd3 & H1 & H2 & H3 & ->)%shape_element_Some Hts Hk Hv Hst Hown Hlater.
  assert (k <> "address" /\ k <> "node_refs") as [Hn1 Hn2]
    by (revert Hown; clear; elem_of_keys).
  rewrite Hts, for_each_app in H2. apply bind_Ok in H2 as (st1 & _ & H2).
  cbn [for_each] in H2. apply bind_Ok in H2 as (st2 & Ht & H2).
  rewrite (shape_tag_stored _ _ _ _ Hk Hv Hst) in Ht. injection Ht as <-.
  rewrite snapshot_lookup. cbn [node address].
  rewrite (shape_nds_frame _ _ _ _ H3) by exact Hn2.
  rewrite (shape_tags_node_frame _ _ _ _ H2) by auto.
  rewrite attach_address_node_ne by exact Hn1. cbn [node].
  now rewrite lookup_insert_eq.
Qed.

End Fields.

(** ** What the driver returns *)

Section Data.

Context {pyfloat : Type} (float : string -> option pyfloat).

Implicit Types (nd : gmap string (@slot pyfloat)).

Lemma insert_keeps nd k (x : @slot pyfloat) key :
  is_Some (nd !! key) -> is_Some (<[k := x]> nd !! key).
Proof. intros H. apply lookup_insert_is_Some. destruct (decide (k = key)); auto. Qed.

Lemma init_key_keeps nd k v key :
  is_Some (nd !! key) -> is_Some (init_key k v nd !! key).
Proof. unfold init_key. destruct (nd !! k); [auto | apply insert_keeps]. Qed.

Lemma shape_attr_keeps item nd nd' key :
  shape_attr float item nd = Ok nd' -> is_Some (nd !! key) -> is_Some (nd' !! key).
Proof.
  unfold shape_attr. intros H Hs.
  destruct (bool_decide (item.1 ∈ CREATED)).
  { destruct (init_key "created" _ nd !! "created") as [[[]|]|]; try discriminate.
    injection H as <-. now apply insert_keeps, init_key_keeps. }
  destruct (bool_decide (item.1 ∈ ["lat"; "lon"])).
  { destruct (float item.2); [|discriminate].
    destruct (init_key "pos" _ nd !! "pos") as [[[]|]|]; try discriminate.
    destruct (bool_decide _) in H; [|discriminate].
    injection H as <-. now apply insert_keeps, init_key_keeps. }
  injection H as <-. now apply insert_keeps.
Qed.

Lemma attach_address_keeps (st : @shaping pyfloat) key :
  is_Some (node st !! key) -> is_Some (node (attach_address st) !! key).
Proof.
  unfold attach_address. destruct (decide _); [auto|]. cbn [node]. apply insert_keeps.
Qed.

Lemma shape_tag_keeps t (st st' : @shaping pyfloat) key :
  shape_tag t st = Ok st' -> is_Some (node st !! key) -> is_Some (node st' !! key).
Proof.
  intros (k & _ & [[_ ->] | (_ & st1 & -> & Hcase)])%shape_tag_cases Hs; [exact Hs|].
  apply attach_address_keeps.
  destruct Hcase as [(_ & _ & H) | [(_ & v & _ & ->) | (_ & _ & ->)]].
  - rewrite (shape_addr_tag_node _ _ _ _ H). now apply init_key_keeps.
  - cbn [node]. now apply insert_keeps.
  - exact Hs.
Qed.

Lemma shape_nd_keeps n nd nd' key :
  shape_nd n nd = Ok nd' -> is_Some (nd !! key) -> is_Some (nd' !! key).
Proof.
  unfold shape_nd. intros H Hs.
  destruct (init_key "node_refs" _ nd !! "node_refs") as [[[]|]|]; try discriminate.
  apply bind_Ok in H as (r & _ & [= <-]). now apply insert_keeps, init_key_keeps.
Qed.

(** Every document has the field [type], so none is empty. *)
Lemma shape_element_type e (d : gmap string (value pyfloat)) :
  shape_element float e = Ok (Some d) -> is_Some (d !! "type").
Proof.
  intros (nd1 & st & nd3 & H1 & H2 & H3 & ->)%shape_element_Some.
  rewrite snapshot_lookup. cbn [node address]. apply fmap_is_Some.
  eapply (for_each_invariant shape_nd (fun nd => is_Some (nd !! "type"))); [|exact H3|].
  { intros n s s' _. apply shape_nd_keeps. }
  eapply (for_each_invariant shape_tag (fun st => is_Some (node st !! "type")));
    [|exact H2|].
  { intros t s s' _. apply shape_tag_keeps. }
  cbn [node].
  eapply (for_each_invariant (shape_attr float) (fun nd => is_Some (nd !! "type")));
    [|exact H1|].
  { intros t s s' _. apply shape_attr_keeps. }
  rewrite lookup_singleton_eq. eauto.
Qed.

Lemma shape_element_nonempty e (d : gmap string (value pyfloat)) :
  shape_element float e = Ok (Some d) -> d <> ∅.
Proof.
  intros [x Hx]%shape_element_type ->. now rewrite lookup_empty in Hx.
Qed.

Lemma shape_element_other e :
  ~ (tag e = "node" \/ tag e = "way") -> shape_element float e = Ok None.
Proof. intros H. unfold shape_element. now destruct (decide _). Qed.

Lemma shape_element_shaped e :
  tag e = "node" \/ tag e = "way" -> shape_element float e <> Ok None.
Proof.
  intros H. unfold shape_element. destruct (decide _); [|contradiction].
  destruct (shape_tags float e) as [st|]; [|discriminate]. cbn [mbind result_bind].
  destruct (for_each _ _ _); discriminate.
Qed.

Lemma process_map_from_data es (acc data : list (gmap string (value pyfloat))) :
  outcome (process_map_from float es acc) = Ok data <->
  exists new, data = acc ++ new /\
    Forall2 (fun e d => shape_element float e = Ok (Some d))
      (filter (fun e => tag e = "node" \/ tag e = "way") es) new.
Proof.
  revert acc. induction es as [|e es IH]; intros acc; cbn [process_map_from].
  - cbn [outcome]. split.
    + intros [= <-]. exists []. split; [now rewrite app_nil_r | constructor].
    + intros (new & -> & HF). inversion HF. now rewrite app_nil_r.
  - destruct (decide (tag e = "node" \/ tag e = "way")) as [Hs|Hs].
    + rewrite filter_cons_True by exact Hs.
      destruct (shape_element float e) as [[el|]|err] eqn:He.
      * rewrite decide_False by now apply (shape_element_nonempty e).
        rewrite IH. split.
        -- intros (new & -> & HF). exists (el :: new).
           split; [now rewrite <- app_assoc | now constructor].
        -- intros (new & -> & HF). inversion HF as [|? d ? new' Hd HF']; subst.
           rewrite He in Hd. injection Hd as <-.
           exists new'. split; [now rewrite <- app_assoc | exact HF'].
      * now apply shape_element_shaped in He.
      * cbn [outcome]. split; [discriminate|].
        intros (new & _ & HF). inversion HF; congruence.
    + rewrite filter_cons_False by exact Hs.
      rewrite (shape_element_other e Hs). apply IH.
Qed.

(** X16. The driver returns exactly the documents of the node and way
    elements, in their order, when each of them shapes without an error: no
    document is dropped as empty, other elements contribute nothing, and
    every returned document was also written to the output. *)
Theorem process_map_data (elements : list Element)
    (data : list (gmap string (value pyfloat))) :
  (outcome (process_map float elements) = Ok data <->
   Forall2 (fun e d => shape_element float e = Ok (Some d))
     (filter (fun e => tag e = "node" \/ tag e = "way") elements) data) /\
  (outcome (process_map float elements) = Ok data ->
   written (process_map float elements) = data).
Proof.
  split; [|apply process_map_from_written].
  unfold process_map. rewrite process_map_from_data. cbn [app].
  split; [now intros (new & -> & HF) | intros HF; now exists data].
Qed.

End Data.

Lemma created_field_witness :
  example_way_doc !! "created" = expected_created (attrib example_way).
Proof.
  apply (created_field read_decimal example_way example_way_doc).
  - vm_compute. reflexivity.
  - compute_done.
  - compute_done.
  - intros t Ht. vm_compute in Ht. destruct Ht as [<- | []]. vm_compute. discriminate.
Defined.

Lemma node_refs_field_witness :
  exists refs,
    Forall2 (fun n r => getitem (attrib n) "ref" = Ok r) (iter "nd" example_way) refs /\
    example_way_doc !! "node_refs" =
      match refs with
      | [] => None
      | _ :: _ => Some (VList (VStr <$> refs))
      end.
Proof.
  apply (node_refs_field read_decimal example_way example_way_doc).
  - vm_compute. reflexivity.
  - compute_done.
  - intros t Ht. vm_compute in Ht. destruct Ht as [<- | []]. vm_compute. discriminate.
Defined.

Lemma plain_attribute_field_witness : example_way_doc !! "id" = Some (VStr "7").
Proof.
  apply (plain_attribute_field read_decimal example_way example_way_doc "id" "7").
  - vm_compute. reflexivity.
  - compute_done.
  - left. reflexivity.
  - compute_done.
  - compute_done.
  - compute_done.
  - intros t Ht. vm_compute in Ht. destruct Ht as [<- | []]. vm_compute. discriminate.
Defined.

Lemma tag_field_witness : example_way_doc !! "highway" = Some (VStr "residential").
Proof.
  apply (tag_field read_decimal example_way example_way_doc
           [] [] (tag_elem "highway" "residential") "highway" "residential").
  - vm_compute. reflexivity.
  - vm_compute. reflexivity.
  - vm_compute. reflexivity.
  - vm_compute. reflexivity.
  - split; [vm_compute; reflexivity|]. left. vm_compute. intuition discriminate.
  - compute_done.
  - intros t' [].
Defined.

(** ** Indexing stays in range *)

Lemma bind_Raise {A B : Type} (m : result A) (f : A -> result B) err :
  (a ← m; f a) = Raise err <->
  m = Raise err \/ exists a, m = Ok a /\ f a = Raise err.
Proof.
  destruct m as [a|e]; cbn [mbind result_bind]; split.
  - intros H. right. eauto.
  - intros [[=] | (a' & [= <-] & H)]. exact H.
  - intros [= <-]. now left.
  - intros [[= <-] | (a' & [=] & _)]. reflexivity.
Qed.

Lemma for_each_Raise {A S : Type} (f : A -> S -> result S) l s err :
  for_each f l s = Raise err ->
  exists l1 x l2 s', l = l1 ++ x :: l2 /\ for_each f l1 s = Ok s' /\
    f x s' = Raise err.
Proof.
  revert s. induction l as [|x l IH]; intros s; cbn [for_each]; [discriminate|].
  intros [H | (s1 & H1 & H)]%bind_Raise.
  - exists [], x, l, s. auto.
  - destruct (IH _ H) as (l1 & y & l2 & s' & -> & Hl1 & Hy).
    exists (x :: l1), y, l2, s'. split; [reflexivity|]. split; [|exact Hy].
    cbn [for_each]. now rewrite H1.
Qed.

Lemma getitem_not_index_error d k err :
  getitem d k = Raise err -> is_index_error err = false.
Proof. now intros [-> _]%getitem_Raise. Qed.

Lemma split1_two k :
  In ":"%char (to_text k) -> exists a b, split1 ":" k = [a; b].
Proof.
  induction k as [|c k IH]; [intros []|]. cbn [split1].
  destruct (decide (c = ":"%char)) as [->|Hne]; [eauto|].
  intros [Hc | Hin]; [congruence|].
  destruct (IH Hin) as (a & b & ->). eauto.
Qed.

Lemma index_split k :
  found (search lower_colon k) = true ->
  exists key, index (split1 ":" k) 1 = Ok key.
Proof.
  intros (a & b & ->)%lower_colon_has_colon%split1_two. now exists b.
Qed.

Lemma update_name_not_index_error name mapping re expected err :
  update_name name mapping re expected = Raise err -> is_index_error err = false.
Proof.
  unfold update_name. destruct (search re name) as [m|]; [|discriminate].
  cbv zeta. destruct (bool_decide _); [discriminate|].
  destruct (mapping !! group m); [discriminate|]. now intros [= <-].
Qed.

Section InRange.

Context {pyfloat : Type} (float : string -> option pyfloat).

Implicit Types (nd : gmap string (@slot pyfloat)).

Lemma shape_attr_two_slots item nd nd' :
  shape_attr float item nd = Ok nd' -> two_slots nd -> two_slots nd'.
Proof.
  unfold shape_attr, two_slots. intros H Hnd l.
  destruct (bool_decide (item.1 ∈ CREATED)).
  { destruct (init_key "created" _ nd !! "created") as [[[]|]|]; try discriminate.
    injection H as <-. rewrite lookup_insert_ne, init_key_ne by discriminate.
    apply Hnd. }
  destruct (bool_decide (item.1 ∈ ["lat"; "lon"])).
  { destruct (float item.2); [|discriminate].
    destruct (init_key "pos" _ nd !! "pos") as [[[| | |l0|]|]|] eqn:Hpos; try discriminate.
    destruct (bool_decide _) in H; [|discriminate].
    injection H as <-. rewrite lookup_insert_eq. intros [= <-].
    rewrite length_insert. unfold init_key in Hpos.
    destruct (nd !! "pos") eqn:Hp0.
    - apply Hnd. congruence.
    - rewrite lookup_insert_eq in Hpos. now injection Hpos as <-. }
  injection H as <-. destruct (decide (item.1 = "pos")) as [->|Hne].
  - now rewrite lookup_insert_eq.
  - rewrite lookup_insert_ne by exact Hne. apply Hnd.
Qed.

Lemma shape_attr_in_range item nd err :
  shape_attr float item nd = Raise err -> two_slots nd -> is_index_error err = false.
Proof.
  unfold shape_attr, two_slots. intros H Hnd.
  destruct (bool_decide (item.1 ∈ CREATED)).
  { destruct (init_key "created" _ nd !! "created") as [[[]|]|]; try discriminate;
      now injection H as <-. }
  destruct (bool_decide (item.1 ∈ ["lat"; "lon"])); [|discriminate].
  destruct (float item.2); [|now injection H as <-].
  destruct (init_key "pos" _ nd !! "pos") as [[[| | |l0|]|]|] eqn:Hpos;
    try (now injection H as <-).
  assert (Hlen : length l0 = 2%nat).
  { unfold init_key in Hpos. destruct (nd !! "pos") eqn:Hp0.
    - apply Hnd. congruence.
    - rewrite lookup_insert_eq in Hpos. now injection Hpos as <-. }
  rewrite Hlen in H. destruct (bool_decide (item.1 = "lat")); discriminate.
Qed.

Lemma shape_street_in_range v sub_attr (ad : gmap string (value pyfloat)) err :
  shape_street v sub_attr ad = Raise err ->
  (exists key, index sub_attr 1 = Ok key) -> is_index_error err = false.
Proof.
  unfold shape_street. intros H [key Hkey].
  repeat (destruct (decide _); [discriminate|]).
  apply bind_Raise in H as [H | (name1 & _ & H)];
    [now apply update_name_not_index_error in H|].
  apply bind_Raise in H as [H | (name2 & _ & H)];
    [now apply update_name_not_index_error in H|].
  rewrite Hkey in H. discriminate.
Qed.

Lemma shape_addr_tag_in_range t k (st : @shaping pyfloat) err :
  shape_addr_tag t k st = Raise err ->
  found (search lower_colon k) = true -> is_index_error err = false.
Proof.
  unfold shape_addr_tag, is_street_name, is_postal_code.
  intros H [key Hkey]%index_split.
  apply bind_Raise in H as [H | (street & _ & H)].
  { apply bind_Raise in H as [H | (? & _ & [=])]. now apply getitem_not_index_error in H. }
  destruct street.
  - apply bind_Raise in H as [H | (v & _ & H)];
      [now apply getitem_not_index_error in H|].
    destruct (bool_decide _); [discriminate|].
    apply bind_Raise in H as [H | (? & _ & [=])].
    eapply shape_street_in_range; eauto.
  - apply bind_Raise in H as [H | (postal & _ & H)].
    { apply bind_Raise in H as [H | (? & _ & [=])]. now apply getitem_not_index_error in H. }
    rewrite Hkey in H.
    destruct postal; (apply bind_Raise in H as [H | (v & _ & [=])]);
      now apply getitem_not_index_error in H.
Qed.

Lemma shape_tag_in_range t (st : @shaping pyfloat) err :
  shape_tag t st = Raise err -> is_index_error err = false.
Proof.
  unfold shape_tag. intros [H | (k & _ & H)]%bind_Raise;
    [now apply getitem_not_index_error in H|].
  destruct (found (search problemchars k)); [discriminate|].
  apply bind_Raise in H as [H | (? & _ & [=])].
  destruct (found (search lower_colon k)) eqn:Hlc.
  - destruct (decide _); [now apply shape_addr_tag_in_range in H|].
    apply bind_Raise in H as [H | (? & _ & [=])].
    now apply getitem_not_index_error in H.
  - destruct (decide _); [|discriminate].
    apply bind_Raise in H as [H | (? & _ & [=])].
    now apply getitem_not_index_error in H.
Qed.

Lemma shape_nd_in_range n nd err :
  shape_nd n nd = Raise err -> is_index_error err = false.
Proof.
  unfold shape_nd. intros H.
  destruct (init_key "node_refs" _ nd !! "node_refs") as [[[| | |l|]|]|];
    try (now injection H as <-).
  apply bind_Raise in H as [H | (? & _ & [=])].
  now apply getitem_not_index_error in H.
Qed.

(** X17. The shaper never indexes out of range: the second part of a split
    key and the two slots of [pos] are always there, so whatever exception
    [shape_element] raises, it is no IndexError. *)
Theorem shape_element_in_range (e : Element) (err : exn) :
  shape_element float e = Raise err -> is_index_error err = false.
Proof.
  unfold shape_element, shape_tags. destruct (decide _); [|discriminate].
  intros [H | (st & _ & H)]%bind_Raise.
  - apply bind_Raise in H as [H | (nd1 & _ & H)].
    + apply for_each_Raise in H as (l1 & x & l2 & nd & _ & Hl1 & Hx).
      apply (shape_attr_in_range _ _ _ Hx).
      eapply (for_each_invariant (shape_attr float) two_slots); [|exact Hl1|].
      * intros item s s' _. apply shape_attr_two_slots.
      * intros l Hl. rewrite lookup_singleton_ne in Hl by discriminate. discriminate.
    + apply for_each_Raise in H as (l1 & x & l2 & st & _ & _ & Hx).
      now apply shape_tag_in_range in Hx.
  - apply bind_Raise in H as [H | (? & _ & [=])].
    apply for_each_Raise in H as (l1 & x & l2 & nd & _ & _ & Hx).
    now apply shape_nd_in_range in Hx.
Qed.

End InRange.

Lemma shape_element_in_range_witness :
  is_index_error (KeyError "Foo") = false.
Proof.
  apply (shape_element_in_range read_decimal
           (mkElement "node" [("id", "1")] [tag_elem "addr:street" "Main Foo"])).
  vm_compute. reflexivity.
Defined.

(** ** Tags that are ignored, attributes that are missing *)

Lemma iter_children name tg attrs cs :
  tg <> name ->
  iter name (mkElement tg attrs cs)
  = filter (fun x => tag x = name) (flat_map descendants cs).
Proof.
  intros H. unfold iter. cbn [descendants children].
  now rewrite filter_cons_False by exact H.
Qed.

Lemma flat_map_descendants_app cs1 t cs2 :
  flat_map descendants (cs1 ++ t :: cs2)
  = flat_map descendants cs1 ++ descendants t ++ flat_map descendants cs2.
Proof. now rewrite flat_map_app. Qed.

(** X18. A [tag] child whose key holds a problem character is ignored
    altogether: the element shapes to the same document, or raises the same
    exception, with the child deleted; its value is not even looked up. *)
Theorem problemchar_tag_ignored {pyfloat : Type} (float : string -> option pyfloat)
    (tg : string) (attrs : list (string * string)) (cs1 cs2 : list Element)
    (tattrs : list (string * string)) (k : string) :
  getitem tattrs "k" = Ok k -> has_problemchar k = true ->
  shape_element float (mkElement tg attrs (cs1 ++ mkElement "tag" tattrs [] :: cs2))
  = shape_element float (mkElement tg attrs (cs1 ++ cs2)).
Proof.
  intros Hk Hp. unfold shape_element, shape_tags. cbn [tag attrib].
  destruct (decide (tg = "node" ∨ tg = "way")) as [Hs|Hs]; [|reflexivity].
  assert (tg <> "tag" /\ tg <> "nd") as [Ht Hn] by (destruct Hs as [-> | ->]; split; discriminate).
  rewrite !iter_children by assumption.
  rewrite flat_map_descendants_app, flat_map_app, !filter_app.
  cbn [descendants children flat_map app].
  rewrite (filter_cons_True (fun x => tag x = "tag")) by reflexivity.
  rewrite (filter_cons_False (fun x => tag x = "nd")) by discriminate.
  rewrite !filter_nil. cbn [app].
  destruct (for_each (shape_attr float) attrs _) as [nd1|err]; [|reflexivity].
  cbn [mbind result_bind].
  now rewrite (proj2 (problemchar_tag_dropped (mkElement "tag" tattrs []) k Hk Hp)).
Qed.

Lemma problemchar_tag_ignored_witness :
  shape_element read_decimal noisy_node
  = shape_element read_decimal
      (mkElement "node" [("id", "1")]
         ([tag_elem "name" "x"]
          ++ [tag_elem "addr:street" "Main St"; tag_elem "addr:city" "San Jose"])).
Proof.
  apply (problemchar_tag_ignored read_decimal "node" [("id", "1")]
           [tag_elem "name" "x"]
           [tag_elem "addr:street" "Main St"; tag_elem "addr:city" "San Jose"]
           [("k", "opening hours")] "opening hours"); reflexivity.
Defined.

Lemma for_each_raises {A S : Type} (f : A -> S -> result S) l x :
  In x l -> (forall s, exists err, f x s = Raise err) ->
  forall s, exists err, for_each f l s = Raise err.
Proof.
  intros Hin Hx. induction l as [|y l IH]; [destruct Hin|]. intros s.
  cbn [for_each]. destruct Hin as [-> | Hin].
  - destruct (Hx s) as [err ->]. now exists err.
  - destruct (f y s) as [s'|err]; [apply (IH Hin) | now exists err].
Qed.

Section Missing.

Context {pyfloat : Type} (float : string -> option pyfloat).

Lemma shape_tag_without_key t (st : @shaping pyfloat) :
  "k" ∉ (attrib t).*1 -> shape_tag t st = Raise (KeyError "k").
Proof.
  intros H. unfold shape_tag. rewrite (getitem_absent _ "k") by exact H. reflexivity.
Qed.

Lemma shape_nd_without_ref n (nd : gmap string (@slot pyfloat)) :
  "ref" ∉ (attrib n).*1 -> exists err, shape_nd n nd = Raise err.
Proof.
  intros H. unfold shape_nd. rewrite (getitem_absent _ "ref") by exact H.
  destruct (init_key "node_refs" _ nd !! "node_refs") as [[[]|]|]; eauto.
Qed.

Lemma missing_attribute_raises e :
  tag e = "node" \/ tag e = "way" ->
  (exists t, In t (iter "tag" e) /\ "k" ∉ (attrib t).*1) \/
  (exists n, In n (iter "nd" e) /\ "ref" ∉ (attrib n).*1) ->
  exists err, shape_element float e = Raise err.
Proof.
  intros Hs Hmiss. unfold shape_element, shape_tags.
  destruct (decide _); [|contradiction].
  destruct (for_each (shape_attr float) (attrib e) _) as [nd1|err]; [|now exists err].
  cbn [mbind result_bind].
  destruct (for_each shape_tag (iter "tag" e) _) as [st|err] eqn:Htags;
    [|now exists err].
  cbn [mbind result_bind]. destruct Hmiss as [(t & Hin & Hk) | (n & Hin & Hr)].
  - destruct (for_each_raises shape_tag _ t Hin
                (fun s => ex_intro _ _ (shape_tag_without_key t s Hk))
                (mkShaping nd1 ∅)) as [err Herr].
    congruence.
  - destruct (for_each_raises shape_nd _ n Hin
                (fun s => shape_nd_without_ref n s Hr) (node st)) as [err ->].
    now exists err.
Qed.

(** X19. A [tag] descendant without the attribute [k], or an [nd] descendant
    without the attribute [ref], makes [shape_element] raise on that node or
    way, and the driver's run ends there: it returns no data and has written
    only the documents of the elements before. *)
Theorem missing_attribute_aborts (es1 es2 : list Element) (e : Element)
    (data : list (gmap string (value pyfloat))) :
  tag e = "node" \/ tag e = "way" ->
  (exists t, In t (iter "tag" e) /\ "k" ∉ (attrib t).*1) \/
  (exists n, In n (iter "nd" e) /\ "ref" ∉ (attrib n).*1) ->
  outcome (process_map float es1) = Ok data ->
  exists err,
    shape_element float e = Raise err /\
    process_map float (es1 ++ e :: es2) = mkRun data (Raise err).
Proof.
  intros Hs Hmiss H1.
  destruct (missing_attribute_raises e Hs Hmiss) as [err Herr].
  exists err. split; [exact Herr|].
  unfold process_map in *. rewrite process_map_from_app, H1.
  cbn [process_map_from]. now rewrite Herr.
Qed.

End Missing.

Lemma missing_attribute_aborts_witness :
  exists err,
    shape_element read_decimal (mkElement "way" [("id", "2")] [mkElement "nd" [] []])
    = Raise err /\
    process_map read_decimal
      ([plain_node "1"]
       ++ mkElement "way" [("id", "2")] [mkElement "nd" [] []] :: [plain_node "3"])
    = mkRun [plain_doc "1"] (Raise err).
Proof.
  apply (missing_attribute_aborts read_decimal [plain_node "1"] [plain_node "3"]
           (mkElement "way" [("id", "2")] [mkElement "nd" [] []])).
  - right. reflexivity.
  - right. exists (mkElement "nd" [] []). split; [now left | compute_done].
  - vm_compute. reflexivity.
Defined.

(** ** Address values in the document *)

Section AddressValues.

Context {pyfloat : Type} (float : string -> option pyfloat).

Implicit Types (st : @shaping pyfloat).

(** A tag that is no street-name tag writes its own sub-key only. *)
Lemma shape_tag_address_frame_other t st st' key :
  shape_tag t st = Ok st' ->
  getitem (attrib t) "k" <> Ok "addr:street" ->
  (forall k, getitem (attrib t) "k" = Ok k -> index (split1 ":" k) 1 <> Ok key) ->
  address st' !! key = address st !! key.
Proof.
  intros (k & Hk & [[_ ->] | (_ & st1 & -> & Hcase)])%shape_tag_cases Hstreet Hsub;
    [reflexivity|].
  rewrite attach_address_address.
  destruct Hcase as [(_ & _ & H) | [(_ & v & _ & ->) | (_ & _ & ->)]];
    [|reflexivity ..].
  unfold shape_addr_tag, is_street_name, is_postal_code in H. rewrite Hk in H.
  cbn [mbind result_bind] in H.
  rewrite bool_decide_eq_false_2 in H by congruence.
  destruct (bool_decide (k = "addr:postcode"));
    apply bind_Ok in H as (v & _ & H); apply bind_Ok in H as (k1 & Hk1 & H);
    injection H as <-; cbn [address]; rewrite lookup_insert_ne; auto;
    intros ->; now apply (Hsub k).
Qed.

Lemma shape_tag_address_kept t st st' sub :
  shape_tag t st = Ok st' ->
  (forall k', getitem (attrib t) "k" = Ok k' -> ~ writes_sub k' sub) ->
  address st' !! sub = address st !! sub.
Proof.
  intros H Hw.
  assert (getitem (attrib t) "k" = Ok "addr:street" \/
          getitem (attrib t) "k" <> Ok "addr:street") as [Hs|Hs].
  { destruct (getitem (attrib t) "k") as [k|]; [|now right].
    destruct (decide (k = "addr:street")) as [->|]; [now left | right; congruence]. }
  - apply (shape_tag_address_frame _ _ _ _ H).
    + intros Hin. apply (Hw _ Hs). now right.
    + intros k Hk Hi. apply (Hw _ Hk). now left.
  - apply (shape_tag_address_frame_other _ _ _ _ H Hs).
    intros k Hk Hi. apply (Hw _ Hk). now left.
Qed.

Lemma shape_tags_address_kept ts st st' sub :
  for_each shape_tag ts st = Ok st' ->
  (forall t' k', In t' ts -> getitem (attrib t') "k" = Ok k' -> ~ writes_sub k' sub) ->
  address st' !! sub = address st !! sub.
Proof.
  revert st. induction ts as [|t ts IH]; intros st; cbn [for_each].
  - now intros [= <-].
  - intros (st1 & H1 & H)%bind_Ok Hw.
    rewrite (IH _ H) by (intros t' k' Hin; apply Hw; now right).
    apply (shape_tag_address_kept _ _ _ _ H1). intros k'. apply Hw. now left.
Qed.

Lemma shape_tag_addr_other t st k v ns sub :
  getitem (attrib t) "k" = Ok k -> getitem (attrib t) "v" = Ok v ->
  has_problemchar k = false ->
  k = ns +:+ ":" +:+ sub -> lowercase ns = true -> lowercase sub = true ->
  String.prefix "addr" ns = true ->
  k <> "addr:street" -> k <> "addr:postcode" ->
  shape_tag t st
  = Ok (attach_address
          (mkShaping (init_key "address" (VDict ∅) (node st))
             (<[sub := VStr v]> (address st)))).
Proof.
  intros Hk Hv Hp Hshape Hns Hsub Hpre Hstreet Hpost.
  assert (found (search lower_colon k) = true) as Hlc.
  { apply lower_colon_shape; [exact Hp|]. exists ns, sub. auto. }
  assert (find k "addr" = 0%Z) as Hfind.
  { apply find_zero. rewrite Hshape, prefix_addr_namespace. exact Hpre. }
  unfold shape_tag. rewrite Hk. cbn [mbind result_bind].
  rewrite problemchars_found, Hp, Hlc.
  destruct (decide (find k "addr" = 0%Z)); [|contradiction].
  unfold shape_addr_tag, is_street_name, is_postal_code. rewrite Hk.
  cbn [mbind result_bind].
  rewrite !bool_decide_eq_false_2 by assumption. rewrite Hv.
  cbn [mbind result_bind].
  rewrite Hshape, split1_colon by exact Hns. reflexivity.
Qed.

(** X20. The value of an address tag other than the street name and the
    postal code is found in the document: the sub-document [address] holds it
    under the part of the key after the colon, unless a later tag writes that
    sub-key. *)
Theorem address_tag_field (e : Element) (d : gmap string (value pyfloat))
    (ts1 ts2 : list Element) (t : Element) (k v ns sub : string) :
  shape_element float e = Ok (Some d) ->
  iter "tag" e = ts1 ++ t :: ts2 ->
  getitem (attrib t) "k" = Ok k -> getitem (attrib t) "v" = Ok v ->
  has_problemchar k = false ->
  k = ns +:+ ":" +:+ sub -> lowercase ns = true -> lowercase sub = true ->
  String.prefix "addr" ns = true ->
  k <> "addr:street" -> k <> "addr:postcode" ->
  (forall t' k', In t' ts2 -> getitem (attrib t') "k" = Ok k' -> ~ writes_sub k' sub) ->
  exists address : gmap string (value pyfloat),
    d !! "address" = Some (VDict address) /\
    address !! sub = Some (VStr v).
Proof.
  intros He Hts Hk Hv Hp Hshape Hns Hsub Hpre Hstreet Hpost Hlater.
  destruct (shape_element_Some float _ _ He) as (nd1 & st & nd3 & H1 & H2 & H3 & Hd).
  assert (Hst : shape_tags float e = Ok st).
  { unfold shape_tags. rewrite H1. exact H2. }
  rewrite Hts, for_each_app in H2. apply bind_Ok in H2 as (st1 & _ & H2).
  cbn [for_each] in H2. apply bind_Ok in H2 as (st2 & Ht & H2).
  rewrite (shape_tag_addr_other _ _ _ _ _ _ Hk Hv Hp Hshape Hns Hsub Hpre Hstreet Hpost)
    in Ht.
  injection Ht as <-.
  assert (Hsubv : address st !! sub = Some (VStr v)).
  { rewrite (shape_tags_address_kept _ _ _ _ H2 Hlater), attach_address_address.
    cbn [address]. apply lookup_insert_eq. }
  exists (address st). split; [|exact Hsubv].
  apply (address_field float e st d Hst He). intros Hempty.
  rewrite Hempty, lookup_empty in Hsubv. discriminate.
Qed.

End AddressValues.

Lemma address_tag_field_witness :
  exists address : gmap string (value Q),
    ({[ "type" := VStr "node"; "id" := VStr "1"; "name" := VStr "x";
        "address" := VDict {[ "city" := VStr "San Jose";
                              "street" := VStr "Main Street" ]} ]}
       : gmap string (value Q)) !! "address" = Some (VDict address) /\
    address !! "city" = Some (VStr "San Jose").
Proof.
  apply (address_tag_field read_decimal noisy_node _
           [tag_elem "name" "x"; mkElement "tag" [("k", "opening hours")] [];
            tag_elem "addr:street" "Main St"]
           []
           (tag_elem "addr:city" "San Jose") "addr:city" "San Jose" "addr" "city").
  - vm_compute. reflexivity.
  - vm_compute. reflexivity.
  - vm_compute. reflexivity.
  - vm_compute. reflexivity.
  - vm_compute. reflexivity.
  - vm_compute. reflexivity.
  - vm_compute. reflexivity.
  - vm_compute. reflexivity.
  - vm_compute. reflexivity.
  - discriminate.
  - discriminate.
  - intros t' k' [].
Defined.

(** ** The street-type pass changes the trailing token only *)

(** X21. The street-type pass changes nothing but the trailing token: when it
    returns another name than the one it was given, the name ended with a
    run of non-blank characters (up to the end of the string or its final
    newline) that is a key of the mapping, and the result is the name with
    that run replaced by the mapping's value. *)
Theorem update_name_street_type_trailing_token (name name' : string) :
  update_name name mapping_street_type street_type_re expected_names = Ok name' ->
  name' = name \/
  exists pre tok rest repl,
    to_text name = pre ++ tok ++ rest /\
    tok <> [] /\ forallb is_nonspace tok = true /\ at_eol rest = true /\
    mapping_street_type !! of_text tok = Some repl /\
    name' = of_text (pre ++ to_text repl ++ rest).
Proof.
  unfold update_name.
  destruct (search street_type_re name) as [m|] eqn:Hs; [|intros [= <-]; now left].
  cbv zeta. destruct (bool_decide _); [intros [= <-]; now left|].
  destruct (mapping_street_type !! group m) as [repl|] eqn:Hmap; [|discriminate].
  intros [= <-]. right.
  apply search_street in Hs as (pre & run & rest & Hf & ->). cbn [group] in Hmap.
  rewrite (sub_street _ _ _ _ repl Hf).
  destruct Hf as (Hname & _ & (_ & Hne & Hrun & Heol) & _).
  exists pre, run, rest, repl. auto 10.
Qed.

Lemma update_name_street_type_trailing_token_witness :
  "N Main Street" = "N Main St" \/
  exists pre tok rest repl,
    to_text "N Main St" = pre ++ tok ++ rest /\
    tok <> [] /\ forallb is_nonspace tok = true /\ at_eol rest = true /\
    mapping_street_type !! of_text tok = Some repl /\
    "N Main Street" = of_text (pre ++ to_text repl ++ rest).
Proof.
  apply (update_name_street_type_trailing_token "N Main St" "N Main Street").
  vm_compute. reflexivity.
Defined.

(** ** The street name in the document *)

Section StreetValue.

Context {pyfloat : Type} (float : string -> option pyfloat).

Implicit Types (st : @shaping pyfloat).

Lemma shape_street_normalized v sub_attr (ad ad' : gmap string (value pyfloat)) :
  v ∉ street_literals -> index sub_attr 1 = Ok "street" ->
  shape_street v sub_attr ad = Ok ad' ->
  exists name2, normalize_street v = Ok name2 /\ ad' = <["street" := VStr name2]> ad.
Proof.
  unfold street_literals, shape_street, normalize_street. intros Hlit Hidx H.
  rewrite !not_elem_of_cons in Hlit. destruct Hlit as (H1 & H2 & H3 & H4 & H5 & _).
  destruct (decide (v = "Stewart Drive Suite #1")); [contradiction|].
  destruct (decide (v = "West Evelyn Avenue Suite #114")); [contradiction|].
  destruct (decide (v = "Zanker Rd., San Jose, CA" ∨ v = "Zanker Road, San Jose, CA"))
    as [[?|?]|_]; [contradiction | contradiction |].
  destruct (decide (v = "1425 E Dunne Ave")); [contradiction|].
  apply bind_Ok in H as (name1 & Hn1 & H). apply bind_Ok in H as (name2 & Hn2 & H).
  rewrite Hidx in H. cbn [mbind result_bind] in H. injection H as <-.
  exists name2. split; [|reflexivity]. rewrite Hn1. exact Hn2.
Qed.

Lemma shape_tag_street t st st' v :
  getitem (attrib t) "k" = Ok "addr:street" -> getitem (attrib t) "v" = Ok v ->
  v ∉ not_to_import_list -> v ∉ street_literals ->
  shape_tag t st = Ok st' ->
  exists name2, normalize_street v = Ok name2 /\
    address st' = <["street" := VStr name2]> (address st).
Proof.
  intros Hk Hv Hdeny Hlit H. unfold shape_tag in H. rewrite Hk in H.
  cbn [mbind result_bind] in H.
  replace (found (search problemchars "addr:street")) with false in H
    by (vm_compute; reflexivity).
  replace (found (search lower_colon "addr:street")) with true in H
    by (vm_compute; reflexivity).
  destruct (decide (find "addr:street" "addr" = 0%Z)) as [_|Hn];
    [|exfalso; apply Hn; vm_compute; reflexivity].
  apply bind_Ok in H as (st1 & H1 & [= <-]). rewrite attach_address_address.
  unfold shape_addr_tag, is_street_name in H1. rewrite Hk in H1.
  cbn [mbind result_bind] in H1. rewrite bool_decide_eq_true_2 in H1 by reflexivity.
  rewrite Hv in H1. cbn [mbind result_bind] in H1.
  rewrite bool_decide_eq_false_2 in H1 by exact Hdeny.
  apply bind_Ok in H1 as (ad1 & Had & [= <-]). cbn [address].
  apply (shape_street_normalized _ _ _ _ Hlit) in Had; [exact Had|].
  vm_compute. reflexivity.
Qed.

(** X22. The street name in the document is the normalized one: for a
    street-name tag whose value is neither on the deny-list nor one of the
    literal cases, the sub-document [address] holds under street the result
    of the street-type pass followed by the direction pass, unless a later
    tag writes that sub-key. *)
Theorem street_field (e : Element) (d : gmap string (value pyfloat))
    (ts1 ts2 : list Element) (t : Element) (v : string) :
  shape_element float e = Ok (Some d) ->
  iter "tag" e = ts1 ++ t :: ts2 ->
  getitem (attrib t) "k" = Ok "addr:street" -> getitem (attrib t) "v" = Ok v ->
  v ∉ not_to_import_list -> v ∉ street_literals ->
  (forall t' k', In t' ts2 -> getitem (attrib t') "k" = Ok k' ->
     ~ writes_sub k' "street") ->
  exists (name2 : string) (address : gmap string (value pyfloat)),
    normalize_street v = Ok name2 /\
    d !! "address" = Some (VDict address) /\
    address !! "street" = Some (VStr name2).
Proof.
  intros He Hts Hk Hv Hdeny Hlit Hlater.
  destruct (shape_element_Some float _ _ He) as (nd1 & st & nd3 & H1 & H2 & H3 & Hd).
  assert (Hst : shape_tags float e = Ok st).
  { unfold shape_tags. rewrite H1. exact H2. }
  rewrite Hts, for_each_app in H2. apply bind_Ok in H2 as (st1 & _ & H2).
  cbn [for_each] in H2. apply bind_Ok in H2 as (st2 & Ht & H2).
  destruct (shape_tag_street _ _ _ _ Hk Hv Hdeny Hlit Ht) as (name2 & Hnorm & Had).
  assert (Hsubv : address st !! "street" = Some (VStr name2)).
  { rewrite (shape_tags_address_kept _ _ _ _ H2 Hlater), Had. apply lookup_insert_eq. }
  exists name2, (address st). split; [exact Hnorm|]. split; [|exact Hsubv].
  apply (address_field float e st d Hst He). intros Hempty.
  rewrite Hempty, lookup_empty in Hsubv. discriminate.
Qed.

End StreetValue.

Lemma street_field_witness :
  exists (name2 : string) (address : gmap string (value Q)),
    normalize_street "N. Main St" = Ok name2 /\
    ({[ "type" := VStr "node"; "id" := VStr "1";
        "address" := VDict {[ "street" := VStr "North Main Street" ]} ]}
       : gmap string (value Q)) !! "address" = Some (VDict address) /\
    address !! "street" = Some (VStr name2).
Proof.
  apply (street_field read_decimal
           (mkElement "node" [("id", "1")] [tag_elem "addr:street" "N. Main St"])
           _ [] [] (tag_elem "addr:street" "N. Main St") "N. Main St").
  - vm_compute. reflexivity.
  - vm_compute. reflexivity.
  - vm_compute. reflexivity.
  - vm_compute. reflexivity.
  - compute_done.
  - compute_done.
  - intros t' k' [].
Defined.

(** ** The two passes together *)

Lemma street_type_pass_stable name name' :
  update_name name mapping_street_type street_type_re expected_names = Ok name' ->
  update_name name' mapping_street_type street_type_re expected_names = Ok name'.
Proof.
  intros H. pose proof H as H0. unfold update_name in H.
  destruct (search street_type_re name) as [m|] eqn:Hs; [|injection H as <-; exact H0].
  cbv zeta in H. destruct (bool_decide (group m ∈ expected_names)) eqn:Hexp;
    [injection H as <-; exact H0|].
  destruct (mapping_street_type !! group m) as [repl|] eqn:Hmap; [|discriminate].
  injection H as <-.
  apply search_street in Hs as (pre & run & rest & Hf & ->). cbn [group] in *.
  apply mapping_street_type_ok in Hmap as [Hin | [Hk Hr]].
  - apply bool_decide_eq_false in Hexp. contradiction.
  - now apply update_name_again with pre run rest.
Qed.

Lemma direction_pass_result v1 v2 :
  update_name v1 mapping_street_direction street_direction_re expected_directions
  = Ok v2 ->
  direction_token v2 = None /\
  (v2 = v1 \/
   exists tok rest full, direction_token v1 = Some (tok, rest) /\
     mapping_street_direction !! tok = Some full /\ v2 = full +:+ rest).
Proof.
  unfold update_name. rewrite search_direction.
  destruct (direction_token v1) as [[tok rest]|] eqn:Htok;
    [|intros [= <-]; split; [exact Htok | now left]].
  cbn [group]. cbv zeta.
  rewrite bool_decide_eq_false_2 by exact (direction_token_unexpected _ _ _ Htok).
  destruct (mapping_street_direction !! tok) as [full|] eqn:Hfull; [|discriminate].
  intros [= <-]. rewrite (sub_direction _ _ _ full Htok). split.
  - apply direction_word_stable, (mapping_street_direction_words _ _ Hfull).
  - right. now exists tok, rest, full.
Qed.

Lemma direction_token_shape v1 tok rest :
  direction_token v1 = Some (tok, rest) ->
  exists c, to_text v1 = to_text tok ++ to_text rest /\
    is_nsew c = true /\
    ((to_text tok = [c] /\ head_is is_word (to_text rest) = false) \/
     to_text tok = [c; "."%char]).
Proof.
  unfold direction_token. destruct (to_text v1) as [|c r]; [discriminate|].
  destruct (is_nsew c) eqn:Hc; [|discriminate]. cbn [andb].
  destruct (head_is is_word r) eqn:Hr; [discriminate|]. cbn [negb].
  destruct r as [|d r'].
  - intros [= <- <-]. exists c. cbn. auto.
  - destruct (decide (d = "."%char)) as [->|Hne]; intros [= <- <-]; exists c;
      cbn; rewrite ?to_of_text; auto.
Qed.

Lemma direction_token_longer v1 tok rest run rest0 :
  direction_token v1 = Some (tok, rest) -> to_text rest = run ++ rest0 ->
  direction_token (of_text (to_text tok ++ run)) <> None.
Proof.
  intros (c & _ & Hc & Hshape)%direction_token_shape Hrest.
  unfold direction_token. rewrite to_of_text.
  destruct Hshape as [[-> Hw] | ->]; cbn [app]; rewrite Hc; cbn [andb].
  - assert (head_is is_word run = false) as ->.
    { rewrite Hrest in Hw. now destruct run. }
    cbn [negb]. destruct run as [|d run']; [discriminate|].
    destruct (decide _); discriminate.
  - cbn [head_is]. replace (is_word "."%char) with false by reflexivity.
    cbn [negb]. destruct (decide _); discriminate.
Qed.

Lemma known_names_no_direction k :
  k ∈ expected_names \/ is_Some (mapping_street_type !! k) ->
  direction_token k = None.
Proof.
  assert (forallb (fun k => bool_decide (direction_token k = None))
            (expected_names ++ mapping_street_type_items.*1) = true) as Hall
    by (vm_compute; reflexivity).
  rewrite forallb_forall in Hall. intros Hk.
  apply (bool_decide_eq_true_1 (direction_token k = None)), Hall, in_or_app.
  destruct Hk as [Hk | [repl Hk]].
  - left. now apply list_elem_of_In.
  - right. apply elem_of_list_to_map_2 in Hk. apply list_elem_of_In.
    apply list_elem_of_fmap. now exists (k, repl).
Qed.

Lemma open_tail_suffix u rest run rest0 :
  u ++ rest = run ++ rest0 -> forallb is_nonspace u = true ->
  forallb is_nonspace run = true -> at_eol rest0 = true -> open_tail rest.
Proof.
  revert run. induction u as [|c u IH]; intros run Heq Hu Hrun Heol.
  - exists run, rest0. auto.
  - cbn [forallb] in Hu. apply andb_true_iff in Hu as [Hc Hu].
    destruct run as [|c' run'].
    + cbn [app] in Heq. subst rest0.
      apply at_eol_cases in Heol as [? | (c0 & [= <- _] & H0)]; [discriminate|].
      apply newline_is_space in H0. congruence.
    + cbn [app] in Heq. injection Heq as <- Heq. cbn [forallb] in Hrun.
      apply andb_true_iff in Hrun as [_ Hrun]. now apply (IH run').
Qed.

Lemma word_behind_rev_app (h l a : text) :
  l <> [] -> word_behind (rev (h ++ l), a) = word_behind (rev l, a).
Proof.
  intros Hl. destruct l as [|c l] using rev_ind; [congruence|].
  now rewrite app_assoc, !rev_app_distr.
Qed.

Lemma street_match_none_behind b b' a :
  word_behind (b, a) = word_behind (b', a) ->
  match_at street_type_re (b, a) = None -> match_at street_type_re (b', a) = None.
Proof.
  intros Hw. rewrite !street_type_no_match. unfold word_boundary, word_ahead.
  cbn [snd]. rewrite Hw. auto.
Qed.

Lemma street_found_swap h h' rest pre run rest0 :
  forallb is_nonspace h = true -> forallb is_nonspace h' = true ->
  ~ open_tail rest ->
  street_found (h ++ rest) pre run rest0 ->
  exists x, pre = h ++ x /\ street_found (h' ++ rest) (h' ++ x) run rest0.
Proof.
  intros Hh Hh' Hopen (Hs & Hb & Ht & Hfirst).
  pose proof Ht as (_ & Hne & Hrun & Heol).
  apply app_eq_app in Hs as [l [[-> Hl] | [-> Hl]]].
  { destruct Hopen. rewrite forallb_app in Hh. apply andb_true_iff in Hh as [_ Hl'].
    now apply (open_tail_suffix l rest run rest0). }
  assert (l <> []) as Hlne.
  { intros ->. apply Hopen. exists run, rest0. auto. }
  exists l. split; [reflexivity|]. split; [|split; [|split]].
  - now rewrite Hl, <- app_assoc.
  - revert Hb. unfold word_boundary, word_ahead. cbn [snd].
    now rewrite !word_behind_rev_app.
  - exact Ht.
  - intros x' y' Hxy Hlen.
    apply app_eq_app in Hxy as [u [[Hx Hy] | [Hx Hy]]].
    + apply street_type_no_match. intros (_ & run1 & rest1 & Heq & _ & Hr1 & He1).
      apply Hopen. rewrite Hx, forallb_app in Hh'. apply andb_true_iff in Hh' as [_ Hu].
      apply (open_tail_suffix u rest run1 rest1); auto. now rewrite <- Hy.
    + destruct (decide (u = [])) as [->|Hu].
      * apply street_type_no_match. intros (_ & run1 & rest1 & Heq & _ & Hr1 & He1).
        apply Hopen. exists run1, rest1. cbn [app] in Hy. subst y'. auto.
      * subst x'. apply (street_match_none_behind (rev (h ++ u))).
        { now rewrite !word_behind_rev_app. }
        apply Hfirst.
        -- now rewrite Hy, <- app_assoc.
        -- rewrite !length_app in *. lia.
Qed.

Lemma direction_token_nonspace v1 tok rest :
  direction_token v1 = Some (tok, rest) ->
  forallb is_nonspace (to_text tok) = true /\
  exists c h, to_text tok = c :: h /\ is_word c = true.
Proof.
  intros (c & _ & Hc%nsew_is_word & Hshape)%direction_token_shape.
  pose proof (word_is_nonspace _ Hc) as Hn.
  destruct Hshape as [[-> _] | ->]; cbn [forallb]; rewrite Hn; eauto.
Qed.

(** A name that the street-type pass returns and in which the direction pass
    finds a token has a blank further on. *)
Lemma type_pass_needs_blank v1 tok rest name' :
  direction_token v1 = Some (tok, rest) ->
  update_name v1 mapping_street_type street_type_re expected_names = Ok name' ->
  ~ open_tail (to_text rest).
Proof.
  intros Htok Hup (run & rest0 & Hrest & Hrun & Heol).
  destruct (direction_token_shape _ _ _ Htok) as (c0 & Hv1 & _ & _).
  destruct (direction_token_nonspace _ _ _ Htok) as (Hh1 & c & h & Hh & Hc).
  assert (Hf : street_found (to_text v1) [] (to_text tok ++ run) rest0).
  { split; [|split; [|split]].
    - now rewrite Hv1, Hrest, app_assoc.
    - rewrite Hh. cbn [rev app]. unfold word_boundary, word_behind, word_ahead.
      cbn [fst snd]. now rewrite Hc.
    - split; [reflexivity|]. split; [rewrite Hh; discriminate|].
      split; [|exact Heol]. now rewrite forallb_app, Hh1, Hrun.
    - intros x y _ Hlen. cbn [length] in Hlen. lia. }
  assert (Hs : search street_type_re v1
               = Some (mkMatch (of_text []) (of_text (to_text tok ++ run))
                         (of_text rest0)))
    by (apply search_street; eauto 10).
  pose proof (direction_token_longer _ _ _ _ _ Htok Hrest) as Hlong.
  unfold update_name in Hup. rewrite Hs in Hup. cbn [group] in Hup. cbv zeta in Hup.
  destruct (bool_decide_reflect (of_text (to_text tok ++ run) ∈ expected_names))
    as [Hin|_].
  { apply Hlong, known_names_no_direction. now left. }
  destruct (mapping_street_type !! of_text (to_text tok ++ run)) eqn:Hmap;
    [|discriminate].
  apply Hlong, known_names_no_direction. right. eauto.
Qed.

(** X23. The street normalization of the shaper, the street-type pass followed
    by the direction pass, is idempotent: a name that it returned is returned
    unchanged, without an exception, when it is normalized again. *)
Theorem normalize_street_idempotent (v v2 : string) :
  normalize_street v = Ok v2 -> normalize_street v2 = Ok v2.
Proof.
  unfold normalize_street. intros (v1 & H1 & H2)%bind_Ok.
  pose proof (street_type_pass_stable _ _ H1) as Hst1.
  destruct (direction_pass_result _ _ H2) as [Hnone Hcase].
  assert (Hdir2 : update_name v2 mapping_street_direction street_direction_re
                    expected_directions = Ok v2).
  { unfold update_name. now rewrite search_direction, Hnone. }
  enough (update_name v2 mapping_street_type street_type_re expected_names = Ok v2)
    as -> by exact Hdir2.
  destruct Hcase as [-> | (tok & rest & full & Htok & Hfull & ->)]; [exact Hst1|].
  pose proof (type_pass_needs_blank _ _ _ _ Htok Hst1) as Hopen.
  destruct (direction_token_shape _ _ _ Htok) as (c0 & Hv1 & _ & _).
  destruct (direction_token_nonspace _ _ _ Htok) as (Hh1 & _).
  assert (Hh2 : forallb is_nonspace (to_text full) = true).
  { pose proof (mapping_street_direction_words _ _ Hfull) as Hw.
    rewrite !elem_of_cons, elem_of_nil in Hw.
    destruct Hw as [-> | [-> | [-> | [-> | []]]]]; reflexivity. }
  assert (Hv2 : to_text (full +:+ rest) = to_text full ++ to_text rest)
    by apply to_text_append.
  unfold update_name in Hst1 |- *.
  destruct (search street_type_re v1) as [m1|] eqn:Hs1.
  - apply search_street in Hs1 as (pre & run & rest0 & Hf & ->).
    pose proof Hf as Hf1. rewrite Hv1 in Hf1.
    destruct (street_found_swap _ (to_text full) _ _ _ _ Hh1 Hh2 Hopen Hf1)
      as (x & -> & Hf2).
    rewrite <- Hv2 in Hf2.
    assert (Hs2 : search street_type_re (full +:+ rest)
                  = Some (mkMatch (of_text (to_text full ++ x)) (of_text run)
                            (of_text rest0)))
      by (apply search_street; eauto 10).
    rewrite Hs2. cbn [group] in *. cbv zeta in *.
    destruct (bool_decide (of_text run ∈ expected_names)); [reflexivity|].
    destruct (mapping_street_type !! of_text run) as [repl|]; [|discriminate].
    injection Hst1 as Hsub. f_equal.
    rewrite (sub_street _ _ _ _ repl Hf) in Hsub.
    rewrite (sub_street _ _ _ _ repl Hf2).
    apply (f_equal to_text) in Hsub. rewrite to_of_text in Hsub.
    destruct Hf as (Hname & _). rewrite Hname in Hsub. apply app_inv_head in Hsub.
    apply to_text_inj. rewrite to_of_text, Hsub.
    destruct Hf2 as (Hname2 & _). now rewrite Hname2.
  - destruct (search street_type_re (full +:+ rest)) as [m2|] eqn:Hs2; [|reflexivity].
    exfalso. apply search_street in Hs2 as (pre & run & rest0 & Hf2 & _).
    rewrite Hv2 in Hf2.
    destruct (street_found_swap _ (to_text tok) _ _ _ _ Hh2 Hh1 Hopen Hf2)
      as (x & _ & Hf1).
    rewrite <- Hv1 in Hf1.
    assert (search street_type_re v1
            = Some (mkMatch (of_text (to_text tok ++ x)) (of_text run) (of_text rest0)))
      by (apply search_street; eauto 10).
    congruence.
Qed.

Lemma normalize_street_idempotent_witness :
  normalize_street "North Main Street" = Ok "North Main Street".
Proof.
  apply (normalize_street_idempotent "N. Main St"). vm_compute. reflexivity.
Defined.
